(** * Many-to-many search over a contraction hierarchy

    A shallow embedding of
    [src/engine/routing_algorithms/many_to_many_ch.cpp]: the self-loop
    correction [addLoopWeight], the edge relaxation [relaxOutgoingEdges],
    the two routing steps, the bucket walk
    [retrievePackedPathFromSearchSpace] and the driver [manyToManySearch].

    Conventions.  [NodeID] and the matrix indices are 32-bit unsigned
    integers, carried as [N] with the wrap-around of their arithmetic
    written out; [EdgeWeight] and [EdgeDuration] are 32-bit signed
    integers, carried as [Z], their additions reduced to the two's
    complement range.  A C++ vector is a list; reading or writing a vector
    outside its bounds, and dereferencing its end iterator, is the outcome
    [OutOfBounds].  [BOOST_ASSERT] is modelled as it behaves in a build with
    assertions enabled: a violated condition is the outcome
    [AssertionFailed].  Loops whose termination is not structural take a
    fuel argument and answer [OutOfFuel] when it is used up. *)

From stdpp Require Import base option list sorting numbers gmap.
From Stdlib Require Import ZArith Lia.

Local Open Scope Z_scope.

(** ** Scalar types (util/typedefs.hpp, outside the translated file) *)

Definition NodeID := N.
Definition EdgeWeight := Z.
Definition EdgeDuration := Z.

Definition wrap_uint32 (n : N) : N := (n mod 4294967296)%N.

Definition wrap_int32 (z : Z) : Z :=
  (z + 2147483648) mod 4294967296 - 2147483648.

Definition int32_range (z : Z) : Prop := -2147483648 <= z <= 2147483647.

(** [a + b] on two 32-bit signed values. *)
Definition add32 (a b : Z) : Z := wrap_int32 (a + b).

(** Modelled from the spec: the sentinels "unreachable/invalid" of the data
    model.  Their declarations are not in the translated file; they are the
    largest value of the respective 32-bit type. *)
Definition INVALID_EDGE_WEIGHT : EdgeWeight := 2147483647.
Definition MAXIMAL_EDGE_DURATION : EdgeDuration := 2147483647.
Definition SPECIAL_NODEID : NodeID := 4294967295%N.

(** [std::tie(a, b) < std::tie(c, d)] on signed pairs. *)
Definition tie_lt (a b c d : Z) : bool :=
  (a <? c) || ((a =? c) && (b <? d)).

(** ** Outcomes of a call *)

Inductive outcome (A : Type) : Type :=
| Done (a : A)
| AssertionFailed
| OutOfBounds
| OutOfFuel.
Arguments Done {A} a.
Arguments AssertionFailed {A}.
Arguments OutOfBounds {A}.
Arguments OutOfFuel {A}.

#[global] Instance outcome_ret : MRet outcome := fun A a => Done a.

#[global] Instance outcome_bind : MBind outcome := fun A B k m =>
  match m with
  | Done a => k a
  | AssertionFailed => AssertionFailed
  | OutOfBounds => OutOfBounds
  | OutOfFuel => OutOfFuel
  end.

(** [BOOST_ASSERT(cond)]. *)
Definition BOOST_ASSERT (cond : bool) : outcome unit :=
  if cond then Done tt else AssertionFailed.

(** [v[i]] read from a vector. *)
Definition at_index {A} (v : list A) (i : nat) : outcome A :=
  match v !! i with
  | Some x => Done x
  | None => OutOfBounds
  end.

(** ** Bucket entries (many_to_many.hpp, outside the translated file) *)

Record NodeBucket : Type := mkNodeBucket {
  middle_node : NodeID;
  parent_node : NodeID;
  column_index : N;
  weight : EdgeWeight;
  duration : EdgeDuration
}.

(** Modelled from the spec: [NodeBucket::operator<], the order [std::sort]
    uses.  The list is "sorted by [middle_node]", and "ties among equal
    [middle_node] are unordered across columns": two entries of one node
    compare equal, whatever their columns. *)
Definition bucket_lt (a b : NodeBucket) : bool :=
  (middle_node a <? middle_node b)%N.

(** Modelled from the spec: the order "by (node id, column)", in which the
    ties are "broken by [column_index] when probing a specific column". *)
Definition key_lt (n1 c1 n2 c2 : N) : bool :=
  ((n1 <? n2) || ((n1 =? n2) && (c1 <? c2)))%N.

(** Modelled from the spec: [NodeBucket::Compare], the comparison of an
    entry with a node id used for "equal-range by node id". *)
Definition Compare_bucket_node (b : NodeBucket) (n : NodeID) : bool :=
  (middle_node b <? n)%N.
Definition Compare_node_bucket (n : NodeID) (b : NodeBucket) : bool :=
  (n <? middle_node b)%N.

(** Modelled from the spec: [NodeBucket::ColumnCompare(column_idx)], the
    comparison "by (node id, column)" used when one column's path is
    reconstructed. *)
Definition ColumnCompare_bucket_node (column_idx : N) (b : NodeBucket) (n : NodeID) : bool :=
  key_lt (middle_node b) (column_index b) n column_idx.
Definition ColumnCompare_node_bucket (column_idx : N) (n : NodeID) (b : NodeBucket) : bool :=
  key_lt n column_idx (middle_node b) (column_index b).

(** ** Binary searches of the C++ library

    [std::lower_bound] and [std::upper_bound] as the usual halving loops
    over the index range [first, first + len); [std::equal_range] is the
    pair of both. *)

Fixpoint lower_bound_loop {A} (below : A -> bool) (v : list A)
    (fuel first len : nat) : nat :=
  match fuel with
  | O => first
  | S fuel' =>
      if (len =? 0)%nat then first
      else
        let half := Nat.div2 len in
        match v !! (first + half)%nat with
        | Some x =>
            if below x
            then lower_bound_loop below v fuel' (first + half + 1)%nat (len - half - 1)%nat
            else lower_bound_loop below v fuel' first half
        | None => first
        end
  end.

Definition lower_bound {A} (below : A -> bool) (v : list A) : nat :=
  lower_bound_loop below v (length v) 0%nat (length v).

(** [upper_bound] moves right while the value is not less than the element:
    it is the same loop with the test negated. *)
Definition upper_bound {A} (above : A -> bool) (v : list A) : nat :=
  lower_bound_loop (fun x => negb (above x)) v (length v) 0%nat (length v).

Definition equal_range {A} (below above : A -> bool) (v : list A) : nat * nat :=
  (lower_bound below v, upper_bound above v).

(** The elements an iterator pair ranges over. *)
Definition iterator_range {A} (v : list A) (r : nat * nat) : list A :=
  take (r.2 - r.1)%nat (drop r.1 v).

(** [v[i] = x] written to a vector. *)
Definition store {A} (v : list A) (i : nat) (x : A) : outcome (list A) :=
  if (i <? length v)%nat then Done (<[i:=x]> v) else OutOfBounds.

(** [b] is not less than [a]. *)
Definition bucket_le (a b : NodeBucket) : Prop := bucket_lt b a = false.

#[global] Instance bucket_le_dec : RelDecision bucket_le.
Proof. intros a b. unfold bucket_le. apply _. Defined.

(** Modelled from the spec: [std::sort] with [NodeBucket::operator<].  The
    library promises a permutation in which no entry is less than an earlier
    one; the entries of one node compare equal and may come out in any
    order.  The merge sort is one such sort; what is proved of the sorted
    list rests on the order by node alone. *)
Definition sort_buckets (buckets : list NodeBucket) : list NodeBucket :=
  merge_sort bucket_le buckets.

(** ** The graph accessor

    Modelled from the spec: "neighbors(node, direction) -> sequence of
    (target_node, weight, duration, usable_forward, usable_backward);
    self_loop_weight(node) -> weight | invalid; self_loop_duration(node) ->
    duration; node_count() -> integer".  The facade class is outside the
    translated file. *)

Module EdgeData.
Record t : Type := mk {
  target : NodeID;
  weight : EdgeWeight;
  duration : EdgeDuration;
  forward : bool;
  backward : bool
}.
End EdgeData.

Record DataFacade : Type := mkDataFacade {
  GetNumberOfNodes : N;
  GetAdjacentEdgeRange : NodeID -> list EdgeData.t;
  self_loop_weight : NodeID -> EdgeWeight;
  self_loop_duration : NodeID -> EdgeDuration
}.

(** [ch::getLoopWeight<UseDuration>(facade, node)]. *)
Definition getLoopWeight (UseDuration : bool) (facade : DataFacade) (node : NodeID) : Z :=
  if UseDuration then self_loop_duration facade node else self_loop_weight facade node.

Definition FORWARD_DIRECTION : bool := true.
Definition REVERSE_DIRECTION : bool := false.

(** ** The search heap

    Modelled from the spec: "addressable min-priority-queue keyed by path
    cost, holding per-node auxiliary data (parent node, cumulative secondary
    cost)", with the operations [Insert], [DecreaseKey], [WasInserted],
    [GetKey], [GetData], [DeleteMin] and [Empty].  [inserted_nodes] is the
    node storage, which keeps a node after it was popped; [heap] holds the
    nodes still queued.  Among nodes of the same smallest key [DeleteMin]
    pops the one that comes last in the enumeration of [heap]. *)

Module HeapData.
Record t : Type := mk {
  parent : NodeID;
  duration : EdgeDuration
}.
End HeapData.

Record HeapNode : Type := mkHeapNode {
  key : EdgeWeight;
  data : HeapData.t
}.

Record QueryHeap : Type := mkQueryHeap {
  inserted_nodes : gmap N HeapNode;
  heap : gset N
}.

Definition empty_heap : QueryHeap := mkQueryHeap ∅ ∅.

Definition WasInserted (h : QueryHeap) (node : NodeID) : bool :=
  bool_decide (is_Some (inserted_nodes h !! node)).

Definition Insert (h : QueryHeap) (node : NodeID) (k : EdgeWeight) (d : HeapData.t) : QueryHeap :=
  mkQueryHeap (<[node := mkHeapNode k d]> (inserted_nodes h)) ({[node]} ∪ heap h).

Definition GetKey (h : QueryHeap) (node : NodeID) : outcome EdgeWeight :=
  match inserted_nodes h !! node with
  | Some e => Done (key e)
  | None => OutOfBounds
  end.

Definition GetData (h : QueryHeap) (node : NodeID) : outcome HeapData.t :=
  match inserted_nodes h !! node with
  | Some e => Done (data e)
  | None => OutOfBounds
  end.

Definition SetData (h : QueryHeap) (node : NodeID) (d : HeapData.t) : QueryHeap :=
  mkQueryHeap (alter (fun e => mkHeapNode (key e) d) node (inserted_nodes h)) (heap h).

Definition DecreaseKey (h : QueryHeap) (node : NodeID) (k : EdgeWeight) : QueryHeap :=
  mkQueryHeap (alter (fun e => mkHeapNode k (data e)) node (inserted_nodes h)) (heap h).

Definition Empty (h : QueryHeap) : bool := bool_decide (heap h = ∅).

Definition key_or_zero (h : QueryHeap) (node : NodeID) : EdgeWeight :=
  match inserted_nodes h !! node with
  | Some e => key e
  | None => 0
  end.

Definition min_key_node (h : QueryHeap) : option NodeID :=
  foldr (fun n acc =>
           match acc with
           | None => Some n
           | Some m => if key_or_zero h n <? key_or_zero h m then Some n else Some m
           end) None (elements (heap h)).

Definition DeleteMin (h : QueryHeap) : outcome (NodeID * QueryHeap) :=
  match min_key_node h with
  | Some n => Done (n, mkQueryHeap (inserted_nodes h) (heap h ∖ {[n]}))
  | None => OutOfBounds
  end.

(** ** Query endpoints

    Modelled from the spec: a phantom node is "a query endpoint already
    resolved to one or two graph-anchored positions with associated offset
    costs", and seeding inserts each anchor with "cost = phantom offset,
    parent = self".  [insertTargetInHeap] and [insertSourceInHeap] are
    outside the translated file; a phantom node is carried as the list of
    its anchors for the search at hand. *)

Record Anchor : Type := mkAnchor {
  anchor_node : NodeID;
  anchor_weight : EdgeWeight;
  anchor_duration : EdgeDuration
}.

Record PhantomNode : Type := mkPhantomNode {
  source_anchors : list Anchor;
  target_anchors : list Anchor
}.

Definition insert_anchors (h : QueryHeap) (anchors : list Anchor) : QueryHeap :=
  foldl (fun h a =>
           Insert h (anchor_node a) (anchor_weight a)
                  (HeapData.mk (anchor_node a) (anchor_duration a)))
        h anchors.

Definition insertTargetInHeap (h : QueryHeap) (phantom : PhantomNode) : QueryHeap :=
  insert_anchors h (target_anchors phantom).

Definition insertSourceInHeap (h : QueryHeap) (phantom : PhantomNode) : QueryHeap :=
  insert_anchors h (source_anchors phantom).

(** ** The result matrices, row-major *)

Record Tables : Type := mkTables {
  weights_table : list EdgeWeight;
  durations_table : list EdgeDuration;
  middle_nodes_table : list NodeID
}.

(** [row_idx * number_of_targets + column_idx] on [unsigned]. *)
Definition cell_index (row_idx number_of_targets column_idx : N) : nat :=
  N.to_nat (wrap_uint32 (row_idx * number_of_targets + column_idx)).

(** ** The routines of many_to_many_ch.cpp *)

Section ManyToManyCH.

(** [stallAtNode<DIRECTION>(facade, node, weight, query_heap)] lives in
    routing_base_ch.hpp; the spec gives its contract only: "returns true =>
    skip this node's expansion". *)
Variable stallAtNode : bool -> DataFacade -> NodeID -> EdgeWeight -> QueryHeap -> bool.

(** [addLoopWeight]: the two reference parameters come back with the
    returned flag. *)
Definition addLoopWeight (facade : DataFacade) (node : NodeID)
    (weight : EdgeWeight) (duration : EdgeDuration)
    : outcome (bool * EdgeWeight * EdgeDuration) :=
  _ ← BOOST_ASSERT (weight <? 0);
  let loop_weight := getLoopWeight false facade node in
  if negb (loop_weight =? INVALID_EDGE_WEIGHT) then
    let new_weight_with_loop := add32 weight loop_weight in
    if 0 <=? new_weight_with_loop then
      Done (true, new_weight_with_loop, add32 duration (getLoopWeight true facade node))
    else Done (false, weight, duration)
  else Done (false, weight, duration).

(** The body of the loop over the adjacent edges in [relaxOutgoingEdges]. *)
Definition relax_edge (DIRECTION : bool) (node : NodeID) (weight : EdgeWeight)
    (duration : EdgeDuration) (query_heap : QueryHeap) (edge : EdgeData.t)
    : outcome QueryHeap :=
  if (if DIRECTION then EdgeData.forward edge else EdgeData.backward edge) then
    let to := EdgeData.target edge in
    let edge_weight := EdgeData.weight edge in
    let edge_duration := EdgeData.duration edge in
    _ ← BOOST_ASSERT (0 <? edge_weight);
    let to_weight := add32 weight edge_weight in
    let to_duration := add32 duration edge_duration in
    if negb (WasInserted query_heap to) then
      Done (Insert query_heap to to_weight (HeapData.mk node to_duration))
    else
      to_key ← GetKey query_heap to;
      to_data ← GetData query_heap to;
      if tie_lt to_weight to_duration to_key (HeapData.duration to_data) then
        Done (DecreaseKey (SetData query_heap to (HeapData.mk node to_duration)) to to_weight)
      else Done query_heap
  else Done query_heap.

Fixpoint relax_edges (DIRECTION : bool) (node : NodeID) (weight : EdgeWeight)
    (duration : EdgeDuration) (query_heap : QueryHeap) (edges : list EdgeData.t)
    : outcome QueryHeap :=
  match edges with
  | [] => Done query_heap
  | edge :: rest =>
      query_heap ← relax_edge DIRECTION node weight duration query_heap edge;
      relax_edges DIRECTION node weight duration query_heap rest
  end.

Definition relaxOutgoingEdges (DIRECTION : bool) (facade : DataFacade) (node : NodeID)
    (weight : EdgeWeight) (duration : EdgeDuration) (query_heap : QueryHeap)
    : outcome QueryHeap :=
  if stallAtNode DIRECTION facade node weight query_heap then Done query_heap
  else relax_edges DIRECTION node weight duration query_heap
         (GetAdjacentEdgeRange facade node).

(** The body of the loop over the bucket entries in [forwardRoutingStep].
    [current_weight] and [current_duration] are references into the tables,
    bound before the candidate is formed. *)
Definition merge_bucket (facade : DataFacade) (row_idx number_of_targets : N)
    (node : NodeID) (source_weight : EdgeWeight) (source_duration : EdgeDuration)
    (tables : Tables) (current_bucket : NodeBucket) : outcome Tables :=
  let column_idx := column_index current_bucket in
  let target_weight := weight current_bucket in
  let target_duration := duration current_bucket in
  let cell := cell_index row_idx number_of_targets column_idx in
  current_weight ← at_index (weights_table tables) cell;
  current_duration ← at_index (durations_table tables) cell;
  let new_weight := add32 source_weight target_weight in
  let new_duration := add32 source_duration target_duration in
  if new_weight <? 0 then
    '(corrected, new_weight, new_duration) ← addLoopWeight facade node new_weight new_duration;
    if (corrected : bool) then
      weights ← store (weights_table tables) cell (Z.min current_weight new_weight);
      durations ← store (durations_table tables) cell (Z.min current_duration new_duration);
      middle_nodes ← store (middle_nodes_table tables) cell node;
      Done (mkTables weights durations middle_nodes)
    else Done tables
  else if tie_lt new_weight new_duration current_weight current_duration then
    weights ← store (weights_table tables) cell new_weight;
    durations ← store (durations_table tables) cell new_duration;
    middle_nodes ← store (middle_nodes_table tables) cell node;
    Done (mkTables weights durations middle_nodes)
  else Done tables.

Fixpoint merge_buckets (facade : DataFacade) (row_idx number_of_targets : N)
    (node : NodeID) (source_weight : EdgeWeight) (source_duration : EdgeDuration)
    (tables : Tables) (bucket_list : list NodeBucket) : outcome Tables :=
  match bucket_list with
  | [] => Done tables
  | current_bucket :: rest =>
      tables ← merge_bucket facade row_idx number_of_targets node
                 source_weight source_duration tables current_bucket;
      merge_buckets facade row_idx number_of_targets node
        source_weight source_duration tables rest
  end.

(** The entries [std::equal_range] with [NodeBucket::Compare] selects. *)
Definition node_buckets (search_space_with_buckets : list NodeBucket) (node : NodeID)
    : list NodeBucket :=
  iterator_range search_space_with_buckets
    (equal_range (fun b => Compare_bucket_node b node)
                 (fun b => Compare_node_bucket node b)
                 search_space_with_buckets).

Definition forwardRoutingStep (facade : DataFacade) (row_idx number_of_targets : N)
    (query_heap : QueryHeap) (search_space_with_buckets : list NodeBucket)
    (tables : Tables) : outcome (QueryHeap * Tables) :=
  '(node, query_heap) ← DeleteMin query_heap;
  source_weight ← GetKey query_heap node;
  source_data ← GetData query_heap node;
  let source_duration := HeapData.duration source_data in
  tables ← merge_buckets facade row_idx number_of_targets node
             source_weight source_duration tables
             (node_buckets search_space_with_buckets node);
  query_heap ← relaxOutgoingEdges FORWARD_DIRECTION facade node
                 source_weight source_duration query_heap;
  Done (query_heap, tables).

Definition backwardRoutingStep (facade : DataFacade) (column_idx : N)
    (query_heap : QueryHeap) (search_space_with_buckets : list NodeBucket)
    : outcome (QueryHeap * list NodeBucket) :=
  '(node, query_heap) ← DeleteMin query_heap;
  target_weight ← GetKey query_heap node;
  target_data ← GetData query_heap node;
  let target_duration := HeapData.duration target_data in
  let parent := HeapData.parent target_data in
  let search_space_with_buckets :=
    search_space_with_buckets
      ++ [mkNodeBucket node parent column_idx target_weight target_duration] in
  query_heap ← relaxOutgoingEdges REVERSE_DIRECTION facade node
                 target_weight target_duration query_heap;
  Done (query_heap, search_space_with_buckets).

(** ** Walking the bucket list *)

(** [bucket_list.first] after [std::equal_range] with
    [NodeBucket::ColumnCompare(column_idx)]. *)
Definition column_lower_bound (search_space_with_buckets : list NodeBucket)
    (node : NodeID) (column_idx : N) : nat :=
  (equal_range (fun b => ColumnCompare_bucket_node column_idx b node)
               (fun b => ColumnCompare_node_bucket column_idx node b)
               search_space_with_buckets).1.

(** The [while] loop of [retrievePackedPathFromSearchSpace]; [first] is the
    position [bucket_list.first] points to.  The condition reads
    [first->parent_node] and [first->middle_node] before it compares [first]
    with the end of the list. *)
Fixpoint follow_parents (fuel : nat) (column_idx : N)
    (search_space_with_buckets : list NodeBucket) (first : nat)
    (packed_path : list NodeID) : outcome (list NodeID) :=
  current ← at_index search_space_with_buckets first;
  if negb (parent_node current =? middle_node current)%N
     && negb (first =? length search_space_with_buckets)%nat
  then
    match fuel with
    | O => OutOfFuel
    | S fuel' =>
        follow_parents fuel' column_idx search_space_with_buckets
          (column_lower_bound search_space_with_buckets (parent_node current) column_idx)
          (packed_path ++ [parent_node current])
    end
  else Done packed_path.

Definition retrievePackedPathFromSearchSpace (fuel : nat) (middle_node_id : NodeID)
    (column_idx : N) (search_space_with_buckets : list NodeBucket)
    : outcome (list NodeID) :=
  let first := column_lower_bound search_space_with_buckets middle_node_id column_idx in
  current ← at_index search_space_with_buckets first;
  follow_parents fuel column_idx search_space_with_buckets first [middle_node current].

(** [ch::retrievePackedPathFromSingleManyToManyHeap], declared in
    routing_base_ch.hpp; the driver quotes its body, which is followed
    here.  [GetData] of a node that was never inserted is an access outside
    the node storage. *)
Fixpoint heap_parents (fuel : nat) (search_heap : QueryHeap)
    (current_node_id : NodeID) (packed_path : list NodeID) : outcome (list NodeID) :=
  d ← GetData search_heap current_node_id;
  if negb (current_node_id =? HeapData.parent d)%N
     && WasInserted search_heap (HeapData.parent d)
  then
    match fuel with
    | O => OutOfFuel
    | S fuel' =>
        heap_parents fuel' search_heap (HeapData.parent d)
          (packed_path ++ [HeapData.parent d])
    end
  else Done packed_path.

Definition retrievePackedPathFromSingleManyToManyHeap (fuel : nat)
    (search_heap : QueryHeap) (middle_node_id : NodeID) (packed_path : list NodeID)
    : outcome (list NodeID) :=
  heap_parents fuel search_heap middle_node_id packed_path.

(** ** The driver *)

(** [while (!query_heap.Empty()) backwardRoutingStep(...)]. *)
Fixpoint backward_sweep (fuel : nat) (facade : DataFacade) (column_idx : N)
    (query_heap : QueryHeap) (search_space_with_buckets : list NodeBucket)
    : outcome (QueryHeap * list NodeBucket) :=
  if Empty query_heap then Done (query_heap, search_space_with_buckets)
  else
    match fuel with
    | O => OutOfFuel
    | S fuel' =>
        '(query_heap, search_space_with_buckets) ←
          backwardRoutingStep facade column_idx query_heap search_space_with_buckets;
        backward_sweep fuel' facade column_idx query_heap search_space_with_buckets
    end.

(** [while (!query_heap.Empty()) forwardRoutingStep(...)]. *)
Fixpoint forward_sweep (fuel : nat) (facade : DataFacade) (row_idx number_of_targets : N)
    (query_heap : QueryHeap) (search_space_with_buckets : list NodeBucket)
    (tables : Tables) : outcome (QueryHeap * Tables) :=
  if Empty query_heap then Done (query_heap, tables)
  else
    match fuel with
    | O => OutOfFuel
    | S fuel' =>
        '(query_heap, tables) ←
          forwardRoutingStep facade row_idx number_of_targets query_heap
            search_space_with_buckets tables;
        forward_sweep fuel' facade row_idx number_of_targets query_heap
          search_space_with_buckets tables
    end.

(** The loop over the target columns; [column_idx] counts the entries of
    [target_indices] passed so far (an index list is shorter than 2^32). *)
Fixpoint backward_searches (fuel : nat) (facade : DataFacade)
    (phantom_nodes : list PhantomNode) (target_indices : list nat) (column_idx : N)
    (search_space_with_buckets : list NodeBucket) : outcome (list NodeBucket) :=
  match target_indices with
  | [] => Done search_space_with_buckets
  | index :: rest =>
      phantom ← at_index phantom_nodes index;
      let query_heap := insertTargetInHeap empty_heap phantom in
      '(_, search_space_with_buckets) ←
        backward_sweep fuel facade column_idx query_heap search_space_with_buckets;
      backward_searches fuel facade phantom_nodes rest (column_idx + 1)%N
        search_space_with_buckets
  end.

(** The loop over the columns that follows a row's search: both half paths
    are retrieved for every column and only printed. *)
Fixpoint retrieve_paths (fuel : nat) (query_heap : QueryHeap)
    (search_space_with_buckets : list NodeBucket) (tables : Tables)
    (row_idx number_of_targets : N) (columns : list N) : outcome unit :=
  match columns with
  | [] => Done tt
  | column_idx :: rest =>
      middle_node_id ←
        at_index (middle_nodes_table tables)
                 (N.to_nat (row_idx * number_of_targets + column_idx));
      _ ← retrievePackedPathFromSearchSpace fuel middle_node_id column_idx
            search_space_with_buckets;
      _ ← retrievePackedPathFromSingleManyToManyHeap fuel query_heap middle_node_id [];
      retrieve_paths fuel query_heap search_space_with_buckets tables
        row_idx number_of_targets rest
  end.

Definition columns_upto (number_of_targets : N) : list N :=
  N.of_nat <$> seq 0 (N.to_nat number_of_targets).

(** The loop over the source rows. *)
Fixpoint forward_searches (fuel : nat) (facade : DataFacade)
    (phantom_nodes : list PhantomNode) (source_indices : list nat) (row_idx : N)
    (number_of_targets : N) (search_space_with_buckets : list NodeBucket)
    (tables : Tables) : outcome Tables :=
  match source_indices with
  | [] => Done tables
  | index :: rest =>
      phantom ← at_index phantom_nodes index;
      let query_heap := insertSourceInHeap empty_heap phantom in
      '(query_heap, tables) ←
        forward_sweep fuel facade row_idx (wrap_uint32 number_of_targets) query_heap
          search_space_with_buckets tables;
      _ ← retrieve_paths fuel query_heap search_space_with_buckets tables
            row_idx number_of_targets (columns_upto number_of_targets);
      forward_searches fuel facade phantom_nodes rest (row_idx + 1)%N
        number_of_targets search_space_with_buckets tables
  end.

Definition initial_tables (number_of_entries : nat) : Tables :=
  mkTables (replicate number_of_entries INVALID_EDGE_WEIGHT)
           (replicate number_of_entries MAXIMAL_EDGE_DURATION)
           (replicate number_of_entries SPECIAL_NODEID).

(** [manyToManySearch] up to its [return]: the three tables as they stand
    when the row loop is left. *)
Definition manyToManySearch_tables (fuel : nat) (facade : DataFacade)
    (phantom_nodes : list PhantomNode) (source_indices target_indices : list nat)
    : outcome Tables :=
  let number_of_sources := length source_indices in
  let number_of_targets := length target_indices in
  let number_of_entries := (number_of_sources * number_of_targets)%nat in
  let tables := initial_tables number_of_entries in
  search_space_with_buckets ←
    backward_searches fuel facade phantom_nodes target_indices 0%N [];
  let search_space_with_buckets := sort_buckets search_space_with_buckets in
  forward_searches fuel facade phantom_nodes source_indices 0%N
    (N.of_nat number_of_targets) search_space_with_buckets tables.

Definition manyToManySearch (fuel : nat) (facade : DataFacade)
    (phantom_nodes : list PhantomNode) (source_indices target_indices : list nat)
    : outcome (list EdgeDuration) :=
  tables ← manyToManySearch_tables fuel facade phantom_nodes source_indices target_indices;
  Done (durations_table tables).

End ManyToManyCH.

(** * Notions used to state the properties *)

(** ** Sorted bucket lists *)

(** A vector is partitioned by [below] when the elements satisfying it come
    before all others: the precondition of the library's binary searches. *)
Definition partitioned {A} (below : A -> bool) (v : list A) : Prop :=
  forall i j x y, (i <= j)%nat -> v !! i = Some x -> v !! j = Some y ->
    below y = true -> below x = true.

(** The bucket list ordered by (node, column): what the searches with
    [ColumnCompare] take for granted.  The order of [std::sort] does not
    reach that far. *)
Definition buckets_sorted (v : list NodeBucket) : Prop :=
  StronglySorted
    (fun a b => key_lt (middle_node b) (column_index b)
                       (middle_node a) (column_index a) = false) v.

(** The bucket list ordered by node alone, whatever the order among the
    entries of one node: the bucket list as [std::sort] leaves it. *)
Definition sorted_by_node (v : list NodeBucket) : Prop :=
  StronglySorted (fun a b => (middle_node a <= middle_node b)%N) v.

(** ** The walk of path reconstruction *)

(** The first entry of a node in a column, if there is one. *)
Definition bucket_entry (bs : list NodeBucket) (n : NodeID) (c : N) : option NodeBucket :=
  head (filter (fun b => middle_node b = n /\ column_index b = c) bs).

(** [parent_chain bs c n rest]: starting at the entry of [n] in column [c]
    and following [parent_node] from entry to entry within the column, the
    nodes [rest] are passed in this order and the last entry reached is its
    own parent. *)
Inductive parent_chain (bs : list NodeBucket) (c : N) : NodeID -> list NodeID -> Prop :=
| parent_chain_root n b :
    bucket_entry bs n c = Some b ->
    parent_node b = n ->
    parent_chain bs c n []
| parent_chain_step n b rest :
    bucket_entry bs n c = Some b ->
    parent_node b <> n ->
    parent_chain bs c (parent_node b) rest ->
    parent_chain bs c n (parent_node b :: rest).

(** The walk of path reconstruction in the words of the spec: "starting
    from the bucket entry matching (middle_node, column), repeatedly follow
    parent_node to the next bucket entry for the same column, appending each
    visited node, until parent_node == middle_node of the current entry
    (self-referential root) or no further entry exists for that node in
    that column".  [spec_walk bs c n rest]: from node [n] the walk appends
    the nodes [rest]. *)
Inductive spec_walk (bs : list NodeBucket) (c : N) : NodeID -> list NodeID -> Prop :=
| spec_walk_root n b :
    bucket_entry bs n c = Some b ->
    parent_node b = middle_node b ->
    spec_walk bs c n []
| spec_walk_missing n :
    bucket_entry bs n c = None ->
    spec_walk bs c n []
| spec_walk_step n b rest :
    bucket_entry bs n c = Some b ->
    parent_node b <> middle_node b ->
    spec_walk bs c (parent_node b) rest ->
    spec_walk bs c n (parent_node b :: rest).

(** ** Searches on a finite graph *)

(** The node identifiers of a graph with [n] nodes. *)
Definition node_set (n : N) : gset N :=
  list_to_set (N.of_nat <$> seq 0 (N.to_nat n)).

(** The graph is finite: every edge of a node leads to a node. *)
Definition facade_wf (facade : DataFacade) : Prop :=
  forall n e, (n < GetNumberOfNodes facade)%N ->
    e ∈ GetAdjacentEdgeRange facade n ->
    (EdgeData.target e < GetNumberOfNodes facade)%N.

(** What [relaxOutgoingEdges] asserts of the edges it traverses. *)
Definition edges_positive (DIRECTION : bool) (facade : DataFacade) : Prop :=
  forall n e, (n < GetNumberOfNodes facade)%N ->
    e ∈ GetAdjacentEdgeRange facade n ->
    (if DIRECTION then EdgeData.forward e else EdgeData.backward e) = true ->
    0 < EdgeData.weight e.

(** The queued nodes are in the node storage, and the storage holds nodes
    of the graph only. *)
Definition heap_wf (facade : DataFacade) (h : QueryHeap) : Prop :=
  heap h ⊆ dom (inserted_nodes h)
  /\ dom (inserted_nodes h) ⊆ node_set (GetNumberOfNodes facade).

(** The pops a search can still make: the queued nodes and the nodes of the
    graph never inserted so far. *)
Definition search_room (facade : DataFacade) (h : QueryHeap) : nat :=
  size (heap h) + size (node_set (GetNumberOfNodes facade) ∖ dom (inserted_nodes h)).

Definition anchors_wf (facade : DataFacade) (anchors : list Anchor) : Prop :=
  Forall (fun a => (anchor_node a < GetNumberOfNodes facade)%N) anchors.

Definition phantom_wf (facade : DataFacade) (phantom : PhantomNode) : Prop :=
  anchors_wf facade (source_anchors phantom) /\ anchors_wf facade (target_anchors phantom).

(** The three tables have [n] cells each. *)
Definition tables_sized (n : nat) (tables : Tables) : Prop :=
  length (weights_table tables) = n
  /\ length (durations_table tables) = n
  /\ length (middle_nodes_table tables) = n.

(** The content of one cell of the three tables. *)
Definition cell_content (tables : Tables) (cell : nat)
    : option EdgeWeight * option EdgeDuration * option NodeID :=
  (weights_table tables !! cell, durations_table tables !! cell,
   middle_nodes_table tables !! cell).

Definition cell_unreachable (tables : Tables) (cell : nat) : Prop :=
  cell_content tables cell
  = (Some INVALID_EDGE_WEIGHT, Some MAXIMAL_EDGE_DURATION, Some SPECIAL_NODEID).

(** The negative-weight rule discards the candidate a bucket entry forms
    with a node settled at (weight, duration). *)
Definition discarded (facade : DataFacade) (node : NodeID)
    (source_weight : EdgeWeight) (b : NodeBucket) : Prop :=
  let new_weight := add32 source_weight (weight b) in
  new_weight < 0
  /\ (self_loop_weight facade node = INVALID_EDGE_WEIGHT
      \/ add32 new_weight (self_loop_weight facade node) < 0).

Section Settled.

Variable stallAtNode : bool -> DataFacade -> NodeID -> EdgeWeight -> QueryHeap -> bool.

(** [settles facade h node w d]: the forward settle loop started with heap
    [h] pops [node] at some step, its key being [w] and its duration [d]. *)
Inductive settles (facade : DataFacade) : QueryHeap -> NodeID -> EdgeWeight -> EdgeDuration -> Prop :=
| settles_now h node h1 e :
    DeleteMin h = Done (node, h1) ->
    inserted_nodes h1 !! node = Some e ->
    settles facade h node (key e) (HeapData.duration (data e))
| settles_later h node h1 e h2 n w d :
    DeleteMin h = Done (node, h1) ->
    inserted_nodes h1 !! node = Some e ->
    relaxOutgoingEdges stallAtNode FORWARD_DIRECTION facade node
      (key e) (HeapData.duration (data e)) h1 = Done h2 ->
    settles facade h2 n w d ->
    settles facade h n w d.

End Settled.

(** ** The bucket list under construction *)

(** What the backward searches maintain of the bucket list. *)
Definition bucket_key (b : NodeBucket) : N * N := (middle_node b, column_index b).

Definition keys_unique (bs : list NodeBucket) : Prop := NoDup (bucket_key <$> bs).

Definition parents_earlier (bs : list NodeBucket) : Prop :=
  forall i b, bs !! i = Some b ->
    parent_node b = middle_node b
    \/ exists j b', (j < i)%nat /\ bs !! j = Some b'
         /\ bucket_key b' = (parent_node b, column_index b).

(** The state of the backward search of column [c]: the entries of the
    column belong to popped nodes, and the parent recorded for an inserted
    node is the node itself or a node that has its entry. *)
Definition sweep_inv (c : N) (h : QueryHeap) (bs : list NodeBucket) : Prop :=
  heap h ⊆ dom (inserted_nodes h)
  /\ keys_unique bs
  /\ parents_earlier bs
  /\ (forall b, b ∈ bs ->
        (column_index b <= c)%N
        /\ (column_index b = c ->
            middle_node b ∈ dom (inserted_nodes h) /\ middle_node b ∉ heap h))
  /\ (forall x e, inserted_nodes h !! x = Some e ->
        HeapData.parent (data e) = x
        \/ exists b, b ∈ bs /\ bucket_key b = (HeapData.parent (data e), c)).

(** * Small inputs on which the routines are run *)

Definition never_stall : bool -> DataFacade -> NodeID -> EdgeWeight -> QueryHeap -> bool :=
  fun _ _ _ _ _ => false.

(** A graph without edges in which every node has a self-loop of weight 8
    and duration 0. *)
Definition loop_facade : DataFacade :=
  mkDataFacade 6 (fun _ => []) (fun _ => 8) (fun _ => 0).

(** A 1 x 1 matrix whose cell holds weight 2 and duration 20, reached
    through middle node 7. *)
Definition one_cell : Tables := mkTables [2] [20] [7%N].

(** A sorted bucket list for column 0 in which node 1 names the parent 2,
    a node without an entry of its own. *)
Definition broken_chain : list NodeBucket :=
  [mkNodeBucket 1%N 2%N 0%N 5 5; mkNodeBucket 3%N 4%N 0%N 1 1; mkNodeBucket 4%N 4%N 0%N 0 0].

(** The path 0 - 1 - 2, every edge stored at both ends, usable forward
    from the lower to the higher node only; weights equal durations. *)
Definition path_facade : DataFacade :=
  mkDataFacade 3
    (fun n =>
       if (n =? 0)%N then [EdgeData.mk 1%N 2 2 true false]
       else if (n =? 1)%N then [EdgeData.mk 0%N 2 2 false true; EdgeData.mk 2%N 3 3 true false]
       else if (n =? 2)%N then [EdgeData.mk 1%N 3 3 false true]
       else [])
    (fun _ => INVALID_EDGE_WEIGHT) (fun _ => MAXIMAL_EDGE_DURATION).

(** One phantom per node, anchored at the node with offset 0. *)
Definition phantom_at (n : NodeID) : PhantomNode :=
  mkPhantomNode [mkAnchor n 0 0] [mkAnchor n 0 0].

Definition path_phantoms : list PhantomNode :=
  [phantom_at 0%N; phantom_at 1%N; phantom_at 2%N].

(** The heap of a forward search on [path_facade] after node 0 was seeded
    and node 1 inserted from it. *)
Definition two_node_heap : QueryHeap :=
  Insert (Insert empty_heap 0%N 0 (HeapData.mk 0%N 0)) 1%N 2 (HeapData.mk 0%N 2).

(** The bucket list of the backward searches on [path_facade] from
    target node 2 (column 0) and target node 1 (column 1), as appended. *)
Definition two_columns : list NodeBucket :=
  [mkNodeBucket 2%N 2%N 0%N 0 0; mkNodeBucket 1%N 2%N 0%N 3 3; mkNodeBucket 0%N 1%N 0%N 5 5;
   mkNodeBucket 1%N 1%N 1%N 0 0; mkNodeBucket 0%N 1%N 1%N 2 2].

(** ** Tables along the forward searches *)

(** [tables_lowered t t']: the tables [t'] have the sizes of [t], and no
    weight cell of [t'] is larger than in [t] or negative where it was not
    negative in [t]. *)
Definition tables_lowered (t t' : Tables) : Prop :=
  length (weights_table t') = length (weights_table t)
  /\ length (durations_table t') = length (durations_table t)
  /\ length (middle_nodes_table t') = length (middle_nodes_table t)
  /\ (forall cell w, weights_table t !! cell = Some w ->
        exists w', weights_table t' !! cell = Some w' /\ w' <= w /\ (0 <= w -> 0 <= w')).

(** A sorted bucket list for column 0 in which the nodes 1 and 2 name
    each other as parent. *)
Definition parent_cycle : list NodeBucket :=
  [mkNodeBucket 1%N 2%N 0%N 4 4; mkNodeBucket 2%N 1%N 0%N 4 4].

(** The entries of [two_columns] in the order of node and column. *)
Definition two_columns_by_key : list NodeBucket :=
  [mkNodeBucket 0%N 1%N 0%N 5 5; mkNodeBucket 0%N 1%N 1%N 2 2; mkNodeBucket 1%N 2%N 0%N 3 3;
   mkNodeBucket 1%N 1%N 1%N 0 0; mkNodeBucket 2%N 2%N 0%N 0 0].


(** ** Searches whose weights stay in the 32-bit range *)

(** Every edge usable in the direction has a positive weight of at most
    [W]. *)
Definition edges_at_most (DIRECTION : bool) (facade : DataFacade) (W : Z) : Prop :=
  forall n e, (n < GetNumberOfNodes facade)%N ->
    e ∈ GetAdjacentEdgeRange facade n ->
    (if DIRECTION then EdgeData.forward e else EdgeData.backward e) = true ->
    0 < EdgeData.weight e <= W.

(** The anchors lie in the graph and their weights between [lo] and [hi]. *)
Definition anchors_within (facade : DataFacade) (lo hi : Z) (anchors : list Anchor) : Prop :=
  Forall (fun a => (anchor_node a < GetNumberOfNodes facade)%N
                   /\ lo <= anchor_weight a <= hi) anchors.

(** The number of nodes popped so far: inserted and no longer queued. *)
Definition popped (h : QueryHeap) : nat :=
  size (dom (inserted_nodes h) ∖ heap h).

(** The parent recorded for a node is the node itself or an inserted node
    of smaller key. *)
Definition parents_lower (h : QueryHeap) : Prop :=
  forall x e, inserted_nodes h !! x = Some e ->
    HeapData.parent (data e) = x
    \/ exists e', inserted_nodes h !! HeapData.parent (data e) = Some e' /\ key e' < key e.

(** The state of a search in which no sum of weights has left the 32-bit
    range: a key is at most [hi] plus [W] for every node popped. *)
Definition search_in_range (facade : DataFacade) (lo hi W : Z) (h : QueryHeap) : Prop :=
  heap_wf facade h
  /\ parents_lower h
  /\ forall x e, inserted_nodes h !! x = Some e ->
       lo <= key e <= hi + Z.of_nat (popped h) * W.

(** The number of inserted nodes whose key is below [k]. *)
Definition keys_below (h : QueryHeap) (k : EdgeWeight) : nat :=
  length (filter (fun p : N * HeapNode => key p.2 < k) (map_to_list (inserted_nodes h))).

(** * Properties of the routines *)

(** ** Machine arithmetic *)

Lemma wrap_int32_id z : int32_range z -> wrap_int32 z = z.
Proof.
  unfold int32_range, wrap_int32. intros Hz.
  rewrite Z.mod_small by lia. lia.
Qed.

Lemma wrap_int32_range z : int32_range (wrap_int32 z).
Proof.
  unfold int32_range, wrap_int32.
  pose proof (Z.mod_pos_bound (z + 2147483648) 4294967296). lia.
Qed.

Lemma add32_exact a b : int32_range (a + b) -> add32 a b = a + b.
Proof. apply wrap_int32_id. Qed.

Lemma tie_lt_spec a b c d :
  tie_lt a b c d = true <-> a < c \/ (a = c /\ b < d).
Proof. unfold tie_lt. lia. Qed.

Lemma tie_lt_irrefl a b : tie_lt a b a b = false.
Proof. unfold tie_lt. lia. Qed.

(** Comparisons on [N] as propositions, for [lia]. *)
Ltac n_compare :=
  unfold bucket_le, bucket_lt, Compare_bucket_node, Compare_node_bucket,
    ColumnCompare_bucket_node, ColumnCompare_node_bucket, key_lt in *;
  repeat (progress
    rewrite ?orb_true_iff, ?orb_false_iff, ?andb_true_iff, ?andb_false_iff,
      ?negb_true_iff, ?negb_false_iff, ?N.ltb_lt, ?N.ltb_ge, ?N.eqb_eq, ?N.eqb_neq in * );
  try lia.

(** ** Vector accesses *)

Lemma at_index_Done {A} (v : list A) i x : v !! i = Some x -> at_index v i = Done x.
Proof. unfold at_index. by intros ->. Qed.

Lemma store_Done {A} (v : list A) i x :
  (i < length v)%nat -> store v i x = Done (<[i:=x]> v).
Proof.
  intros Hi. unfold store.
  destruct (Nat.ltb_spec i (length v)); [done | lia].
Qed.

(** ** The merge of one bucket entry *)

Lemma addLoopWeight_cases facade node w d :
  w < 0 ->
  addLoopWeight facade node w d =
    if decide (self_loop_weight facade node <> INVALID_EDGE_WEIGHT
               /\ 0 <= add32 w (self_loop_weight facade node))
    then Done (true, add32 w (self_loop_weight facade node),
               add32 d (self_loop_duration facade node))
    else Done (false, w, d).
Proof.
  intros Hw. unfold addLoopWeight, BOOST_ASSERT, getLoopWeight.
  destruct (Z.ltb_spec w 0); [|lia]. cbn.
  destruct (Z.eqb_spec (self_loop_weight facade node) INVALID_EDGE_WEIGHT) as [He|He]; cbn.
  - rewrite decide_False; [done | tauto].
  - destruct (Z.leb_spec 0 (add32 w (self_loop_weight facade node))).
    + rewrite decide_True; [done | tauto].
    + rewrite decide_False; [done | lia].
Qed.

(** The merge of an entry whose summed weight is negative. *)
Lemma merge_bucket_negative
    (facade : DataFacade) (row_idx number_of_targets : N) (node : NodeID)
    (source_weight : EdgeWeight) (source_duration : EdgeDuration)
    (tables : Tables) (b : NodeBucket) (cw : EdgeWeight) (cd : EdgeDuration) :
  let cell := cell_index row_idx number_of_targets (column_index b) in
  let new_weight := add32 source_weight (weight b) in
  let new_duration := add32 source_duration (duration b) in
  let loop_weight := self_loop_weight facade node in
  let loop_duration := self_loop_duration facade node in
  new_weight < 0 ->
  weights_table tables !! cell = Some cw ->
  durations_table tables !! cell = Some cd ->
  (cell < length (middle_nodes_table tables))%nat ->
  merge_bucket facade row_idx number_of_targets node
    source_weight source_duration tables b
  = if decide (loop_weight <> INVALID_EDGE_WEIGHT /\ 0 <= add32 new_weight loop_weight)
    then Done (mkTables
                 (<[cell := Z.min cw (add32 new_weight loop_weight)]> (weights_table tables))
                 (<[cell := Z.min cd (add32 new_duration loop_duration)]> (durations_table tables))
                 (<[cell := node]> (middle_nodes_table tables)))
    else Done tables.
Proof.
  intros cell new_weight new_duration loop_weight loop_duration Hneg Hw Hd Hm.
  pose proof (addLoopWeight_cases facade node new_weight new_duration Hneg) as Hloop.
  fold loop_weight loop_duration in Hloop.
  unfold merge_bucket. fold cell new_weight new_duration.
  rewrite (at_index_Done _ _ _ Hw), (at_index_Done _ _ _ Hd). cbn.
  destruct (Z.ltb_spec new_weight 0) as [_|]; [|lia].
  rewrite Hloop. apply lookup_lt_Some in Hw. apply lookup_lt_Some in Hd.
  case_decide; cbn; [|done]. by rewrite !store_Done.
Qed.

(** C3.  A candidate whose summed weight is negative goes through the
    self-loop correction.  Without a self-loop, or when the sum plus the
    self-loop weight is still negative, [addLoopWeight] answers false and
    the merge leaves all three tables as they were.  Otherwise it answers
    true with the sum plus the self-loop weight and the summed duration
    plus the self-loop duration (the mathematical sums whenever these fit
    32 bits), and the merge works with these corrected values. *)
Theorem negative_candidate_correction
    (facade : DataFacade) (row_idx number_of_targets : N) (node : NodeID)
    (source_weight : EdgeWeight) (source_duration : EdgeDuration)
    (tables : Tables) (b : NodeBucket) (cw : EdgeWeight) (cd : EdgeDuration) :
  let cell := cell_index row_idx number_of_targets (column_index b) in
  let new_weight := add32 source_weight (weight b) in
  let new_duration := add32 source_duration (duration b) in
  let loop_weight := self_loop_weight facade node in
  let loop_duration := self_loop_duration facade node in
  new_weight < 0 ->
  weights_table tables !! cell = Some cw ->
  durations_table tables !! cell = Some cd ->
  (cell < length (middle_nodes_table tables))%nat ->
  (loop_weight = INVALID_EDGE_WEIGHT \/ add32 new_weight loop_weight < 0 ->
     addLoopWeight facade node new_weight new_duration
       = Done (false, new_weight, new_duration)
     /\ merge_bucket facade row_idx number_of_targets node
          source_weight source_duration tables b = Done tables)
  /\ (loop_weight <> INVALID_EDGE_WEIGHT /\ 0 <= add32 new_weight loop_weight ->
     addLoopWeight facade node new_weight new_duration
       = Done (true, add32 new_weight loop_weight, add32 new_duration loop_duration)
     /\ (int32_range (new_weight + loop_weight) ->
         add32 new_weight loop_weight = new_weight + loop_weight)
     /\ (int32_range (new_duration + loop_duration) ->
         add32 new_duration loop_duration = new_duration + loop_duration)
     /\ merge_bucket facade row_idx number_of_targets node
          source_weight source_duration tables b
        = Done (mkTables
                  (<[cell := Z.min cw (add32 new_weight loop_weight)]> (weights_table tables))
                  (<[cell := Z.min cd (add32 new_duration loop_duration)]> (durations_table tables))
                  (<[cell := node]> (middle_nodes_table tables)))).
Proof.
  intros cell new_weight new_duration loop_weight loop_duration Hneg Hw Hd Hm.
  pose proof (addLoopWeight_cases facade node new_weight new_duration Hneg) as Hloop.
  pose proof (merge_bucket_negative facade row_idx number_of_targets node
                source_weight source_duration tables b cw cd Hneg Hw Hd Hm) as Hmerge.
  fold cell new_weight new_duration loop_weight loop_duration in Hloop, Hmerge.
  split.
  - intros Hdiscard.
    rewrite decide_False in Hloop by (intros [? ?]; destruct Hdiscard; [done | lia]).
    rewrite decide_False in Hmerge by (intros [? ?]; destruct Hdiscard; [done | lia]).
    done.
  - intros Hok. rewrite decide_True in Hloop by exact Hok.
    rewrite decide_True in Hmerge by exact Hok.
    split; [exact Hloop|]. split; [apply add32_exact|]. split; [apply add32_exact|].
    exact Hmerge.
Qed.

(** A candidate whose summed weight is not negative replaces the cell
    exactly when it is lexicographically smaller than the stored pair. *)
Lemma merge_bucket_nonnegative
    (facade : DataFacade) (row_idx number_of_targets : N) (node : NodeID)
    (source_weight : EdgeWeight) (source_duration : EdgeDuration)
    (tables : Tables) (b : NodeBucket) (cw : EdgeWeight) (cd : EdgeDuration) :
  let cell := cell_index row_idx number_of_targets (column_index b) in
  let new_weight := add32 source_weight (weight b) in
  let new_duration := add32 source_duration (duration b) in
  0 <= new_weight ->
  weights_table tables !! cell = Some cw ->
  durations_table tables !! cell = Some cd ->
  (cell < length (middle_nodes_table tables))%nat ->
  merge_bucket facade row_idx number_of_targets node
    source_weight source_duration tables b
  = if tie_lt new_weight new_duration cw cd
    then Done (mkTables (<[cell := new_weight]> (weights_table tables))
                        (<[cell := new_duration]> (durations_table tables))
                        (<[cell := node]> (middle_nodes_table tables)))
    else Done tables.
Proof.
  intros cell new_weight new_duration Hpos Hw Hd Hm.
  unfold merge_bucket. fold cell new_weight new_duration.
  rewrite (at_index_Done _ _ _ Hw), (at_index_Done _ _ _ Hd). cbn.
  destruct (Z.ltb_spec new_weight 0); [lia|].
  destruct (tie_lt new_weight new_duration cw cd); [|done].
  apply lookup_lt_Some in Hw. apply lookup_lt_Some in Hd.
  by rewrite !store_Done.
Qed.

(** C1, the code at the failing input.  The cell holds (2, 20) with middle
    node 7.  Node 5 is settled with weight -4; its bucket entry for the
    column has weight 1, so the sum is -3 and the self-loop of weight 8
    corrects it to 5.  With bucket duration 50 the corrected pair (5, 50)
    is not smaller than (2, 20), yet the middle node becomes 5; with bucket
    duration 10 the cell ends as (2, 10): the weight of one candidate with
    the duration of another. *)
Theorem merge_bucket_corrected_candidate_overwrites :
  addLoopWeight loop_facade 5%N (add32 (-4) 1) (add32 0 50) = Done (true, 5, 50)
  /\ tie_lt 5 50 2 20 = false
  /\ merge_bucket loop_facade 0%N 1%N 5%N (-4) 0 one_cell (mkNodeBucket 5%N 5%N 0%N 1 50)
     = Done (mkTables [2] [20] [5%N])
  /\ merge_bucket loop_facade 0%N 1%N 5%N (-4) 0 one_cell (mkNodeBucket 5%N 5%N 0%N 1 10)
     = Done (mkTables [2] [10] [5%N]).
Proof. repeat split; vm_compute; reflexivity. Qed.

(** ** Edge relaxation *)

(** The body of the edge loop, by the state of the target in the heap. *)
Lemma relax_edge_cases DIRECTION node w d h edge :
  relax_edge DIRECTION node w d h edge
  = if (if DIRECTION then EdgeData.forward edge else EdgeData.backward edge) then
      _ ← BOOST_ASSERT (0 <? EdgeData.weight edge);
      match inserted_nodes h !! EdgeData.target edge with
      | None =>
          Done (Insert h (EdgeData.target edge) (add32 w (EdgeData.weight edge))
                  (HeapData.mk node (add32 d (EdgeData.duration edge))))
      | Some e =>
          if tie_lt (add32 w (EdgeData.weight edge)) (add32 d (EdgeData.duration edge))
               (key e) (HeapData.duration (data e))
          then Done (DecreaseKey
                       (SetData h (EdgeData.target edge)
                          (HeapData.mk node (add32 d (EdgeData.duration edge))))
                       (EdgeData.target edge) (add32 w (EdgeData.weight edge)))
          else Done h
      end
    else Done h.
Proof.
  unfold relax_edge, WasInserted, GetKey, GetData.
  destruct (if DIRECTION then _ else _); [|done].
  destruct (BOOST_ASSERT _); cbn; try done.
  by destruct (inserted_nodes h !! EdgeData.target edge) as [e|].
Qed.

Section Relaxation.

Variable stallAtNode : bool -> DataFacade -> NodeID -> EdgeWeight -> QueryHeap -> bool.

Lemma relax_edges_app DIRECTION node w d h pre post :
  relax_edges DIRECTION node w d h (pre ++ post)
  = h1 ← relax_edges DIRECTION node w d h pre;
    relax_edges DIRECTION node w d h1 post.
Proof.
  revert h. induction pre as [|e pre IH]; intros h; [done|].
  cbn [relax_edges app].
  destruct (relax_edge DIRECTION node w d h e); cbn; [apply IH | done..].
Qed.

Lemma WasInserted_false h node :
  WasInserted h node = false <-> inserted_nodes h !! node = None.
Proof.
  unfold WasInserted. rewrite bool_decide_eq_false, <- eq_None_not_Some. done.
Qed.

Lemma WasInserted_true h node :
  WasInserted h node = true <-> is_Some (inserted_nodes h !! node).
Proof. unfold WasInserted. apply bool_decide_eq_true. Qed.

(** C5.  When the node is not stalled, the loop reaches every adjacent
    edge with the heap [h1] the edges before it left.  An edge whose flag
    for the active direction is unset leaves the heap as it is.  A usable
    edge (of positive weight, as the routine asserts) with a target never
    inserted inserts it with the summed weight, the current node as parent
    and the summed duration.  With a target already inserted, the entry of
    the target becomes (summed weight, current node, summed duration) when
    the summed pair is lexicographically smaller than its recorded (key,
    duration), no other entry and not the queue changing; when the pair is
    not smaller the heap is left as it is.  In each case the loop goes on
    with the remaining edges from the heap so obtained. *)
Theorem relaxOutgoingEdges_edge
    (DIRECTION : bool) (facade : DataFacade) (node : NodeID)
    (w : EdgeWeight) (d : EdgeDuration) (h h1 : QueryHeap)
    (pre post : list EdgeData.t) (edge : EdgeData.t) :
  let to := EdgeData.target edge in
  let to_weight := add32 w (EdgeData.weight edge) in
  let to_duration := add32 d (EdgeData.duration edge) in
  let usable := if DIRECTION then EdgeData.forward edge else EdgeData.backward edge in
  stallAtNode DIRECTION facade node w h = false ->
  GetAdjacentEdgeRange facade node = pre ++ edge :: post ->
  relax_edges DIRECTION node w d h pre = Done h1 ->
  (usable = true -> 0 < EdgeData.weight edge) ->
  exists h2,
    relax_edge DIRECTION node w d h1 edge = Done h2
    /\ relaxOutgoingEdges stallAtNode DIRECTION facade node w d h
       = relax_edges DIRECTION node w d h2 post
    /\ (usable = false -> h2 = h1)
    /\ (usable = true -> WasInserted h1 to = false ->
        h2 = Insert h1 to to_weight (HeapData.mk node to_duration))
    /\ (usable = true -> forall e, inserted_nodes h1 !! to = Some e ->
        (tie_lt to_weight to_duration (key e) (HeapData.duration (data e)) = true ->
           inserted_nodes h2 !! to
             = Some (mkHeapNode to_weight (HeapData.mk node to_duration))
           /\ (forall n, n <> to -> inserted_nodes h2 !! n = inserted_nodes h1 !! n)
           /\ heap h2 = heap h1)
        /\ (tie_lt to_weight to_duration (key e) (HeapData.duration (data e)) = false ->
           h2 = h1)).
Proof.
  intros to to_weight to_duration usable Hstall Hadj Hpre Hpos.
  assert (Hloop : forall h2, relax_edge DIRECTION node w d h1 edge = Done h2 ->
            relaxOutgoingEdges stallAtNode DIRECTION facade node w d h
            = relax_edges DIRECTION node w d h2 post).
  { intros h2 Hh2. unfold relaxOutgoingEdges.
    rewrite Hstall, Hadj, relax_edges_app, Hpre. cbn. by rewrite Hh2. }
  rewrite relax_edge_cases in *. fold to to_weight to_duration usable in Hloop |- *.
  destruct usable eqn:Husable.
  - assert (Hw : (0 <? EdgeData.weight edge) = true) by (apply Z.ltb_lt; auto).
    rewrite Hw in Hloop |- *. cbn in Hloop |- *.
    destruct (inserted_nodes h1 !! to) as [e|] eqn:Hto.
    + destruct (tie_lt to_weight to_duration (key e) (HeapData.duration (data e))) eqn:Hlt.
      * eexists. split; [done|]. split; [by apply Hloop|].
        split; [done|]. split.
        { intros _ Hno. apply WasInserted_false in Hno. congruence. }
        intros _ e' [= <-]. split; [|congruence]. intros _.
        unfold DecreaseKey, SetData; cbn.
        split; [|split; [|done]].
        -- rewrite !lookup_alter_eq, Hto. done.
        -- intros n Hn. by rewrite !lookup_alter_ne.
      * exists h1. split; [done|]. split; [by apply Hloop|].
        split; [done|]. split.
        { intros _ Hno. apply WasInserted_false in Hno. congruence. }
        intros _ e' [= <-]. split; [congruence|]. done.
    + eexists. split; [done|]. split; [by apply Hloop|].
      split; [done|]. split; [done|]. intros _ e He. congruence.
  - exists h1. split; [done|]. split; [by apply Hloop|].
    split; [done|]. split; [done|]. done.
Qed.

End Relaxation.

(** ** The binary searches *)

Section BinarySearch.

Context {A : Type} (below : A -> bool) (v : list A).
Hypothesis Hpart : partitioned below v.

Lemma lower_bound_loop_spec fuel first len :
  (len <= fuel)%nat ->
  (first + len <= length v)%nat ->
  (forall i x, (i < first)%nat -> v !! i = Some x -> below x = true) ->
  (forall i x, (first + len <= i)%nat -> v !! i = Some x -> below x = false) ->
  let r := lower_bound_loop below v fuel first len in
  (first <= r <= first + len)%nat
  /\ (forall i x, (i < r)%nat -> v !! i = Some x -> below x = true)
  /\ (forall i x, (r <= i)%nat -> v !! i = Some x -> below x = false).
Proof.
  revert first len.
  induction fuel as [|fuel IH]; intros first len Hfuel Hlen Hlo Hhi; cbn.
  - assert (len = 0)%nat as -> by lia.
    split; [lia|]. split; [done|]. intros i x Hi. apply Hhi. lia.
  - destruct (Nat.eqb_spec len 0) as [->|Hne].
    + split; [lia|]. split; [done|]. intros i x Hi. apply Hhi. lia.
    + assert (Hhalf : (Nat.div2 len < len)%nat) by (apply Nat.lt_div2; lia).
      generalize dependent (Nat.div2 len). intros half Hhalf.
      destruct (lookup_lt_is_Some_2 v (first + half)) as [x Hx]; [lia|].
      rewrite Hx. destruct (below x) eqn:Hbx.
      * destruct (IH (first + half + 1)%nat (len - half - 1)%nat)
          as (Hr & Hb & Ha); [lia | lia | | | ].
        -- intros i y Hi Hy. eapply (Hpart i (first + half)%nat); eauto. lia.
        -- intros i y Hi Hy. eapply Hhi; [|done]. lia.
        -- split; [lia|]. done.
      * destruct (IH first (half)) as (Hr & Hb & Ha); [lia | lia | done | | ].
        -- intros i y Hi Hy. destruct (below y) eqn:Hby; [|done].
           rewrite <- Hbx. symmetry.
           eapply (Hpart (first + half)%nat i); eauto.
        -- split; [lia|]. done.
Qed.

Lemma lower_bound_spec :
  let r := lower_bound below v in
  (r <= length v)%nat
  /\ (forall i x, (i < r)%nat -> v !! i = Some x -> below x = true)
  /\ (forall i x, (r <= i)%nat -> v !! i = Some x -> below x = false).
Proof.
  unfold lower_bound.
  destruct (lower_bound_loop_spec (length v) 0 (length v)) as (Hr & Hb & Ha);
    [lia | lia | lia | | ].
  - intros i x Hi Hx. apply lookup_lt_Some in Hx. cbn in Hi. lia.
  - cbn in Hr. split; [lia|]. done.
Qed.

(** The search returns the first position whose element is not below. *)
Lemma lower_bound_first i x :
  v !! i = Some x -> below x = false ->
  (forall j y, (j < i)%nat -> v !! j = Some y -> below y = true) ->
  lower_bound below v = i.
Proof.
  intros Hx Hbx Hbefore.
  destruct lower_bound_spec as (Hr & Hb & Ha).
  destruct (Nat.lt_trichotomy (lower_bound below v) i) as [Hlt|[Heq|Hgt]]; [|done|].
  - destruct (lookup_lt_is_Some_2 v (lower_bound below v)) as [y Hy].
    { apply lookup_lt_Some in Hx. lia. }
    pose proof (Hbefore _ _ Hlt Hy). pose proof (Ha _ _ (Nat.le_refl _) Hy). congruence.
  - pose proof (Hb _ _ Hgt Hx). congruence.
Qed.

(** When no element is left that is not below, the search returns the end. *)
Lemma lower_bound_end :
  (forall i x, v !! i = Some x -> below x = true) ->
  lower_bound below v = length v.
Proof.
  intros Hall. destruct lower_bound_spec as (Hr & Hb & Ha).
  destruct (Nat.eq_dec (lower_bound below v) (length v)) as [|Hne]; [done|].
  destruct (lookup_lt_is_Some_2 v (lower_bound below v)) as [y Hy]; [lia|].
  pose proof (Hall _ _ Hy). pose proof (Ha _ _ (Nat.le_refl _) Hy). congruence.
Qed.

End BinarySearch.

(** ** Ranges of a partitioned vector *)

Lemma filter_all {A} (P : A -> Prop) `{!forall x, Decision (P x)} (l : list A) :
  Forall P l -> filter P l = l.
Proof.
  induction 1 as [|x l Hx _ IH]; [done|].
  rewrite filter_cons_True by done. by rewrite IH.
Qed.

Lemma filter_none {A} (P : A -> Prop) `{!forall x, Decision (P x)} (l : list A) :
  Forall (fun x => ~ P x) l -> filter P l = [].
Proof.
  induction 1 as [|x l Hx _ IH]; [done|].
  by rewrite filter_cons_False.
Qed.

Lemma range_between {A} (P Q : A -> bool) (v : list A) :
  partitioned P v -> partitioned Q v ->
  (forall x, P x = true -> Q x = true) ->
  let lo := lower_bound P v in
  let hi := lower_bound Q v in
  (lo <= hi <= length v)%nat
  /\ v = take lo v ++ take (hi - lo) (drop lo v) ++ drop hi v
  /\ Forall (fun x => P x = true) (take lo v)
  /\ Forall (fun x => P x = false /\ Q x = true) (take (hi - lo) (drop lo v))
  /\ Forall (fun x => Q x = false) (drop hi v).
Proof.
  intros HP HQ HPQ lo hi.
  destruct (lower_bound_spec P v HP) as (HloL & HloB & HloA).
  destruct (lower_bound_spec Q v HQ) as (HhiL & HhiB & HhiA).
  fold lo in HloL, HloB, HloA. fold hi in HhiL, HhiB, HhiA.
  assert (Hle : (lo <= hi)%nat).
  { destruct (Nat.le_gt_cases lo hi) as [|Hgt]; [done|].
    destruct (lookup_lt_is_Some_2 v hi) as [x Hx]; [lia|].
    pose proof (HPQ _ (HloB _ _ Hgt Hx)).
    pose proof (HhiA _ _ (Nat.le_refl _) Hx). congruence. }
  split; [lia|]. split.
  { rewrite app_assoc, take_take_drop.
    replace (lo + (hi - lo))%nat with hi by lia. by rewrite take_drop. }
  split; [|split].
  - apply Forall_lookup. intros i x Hx.
    apply lookup_take_Some in Hx as [Hx Hi]. eauto.
  - apply Forall_lookup. intros i x Hx.
    apply lookup_take_Some in Hx as [Hx Hi]. rewrite lookup_drop in Hx.
    split; [eapply HloA | eapply HhiB]; try exact Hx; lia.
  - apply Forall_lookup. intros i x Hx. rewrite lookup_drop in Hx.
    eapply HhiA; [|exact Hx]. lia.
Qed.

(** ** The sorted bucket list *)

#[local] Instance bucket_le_total : Total bucket_le.
Proof.
  intros a b.
  destruct (decide ((middle_node a <= middle_node b)%N)); [left | right]; n_compare.
Qed.

#[local] Instance bucket_le_trans : Transitive bucket_le.
Proof. intros a b c Hab Hbc. n_compare. Qed.

Lemma sort_buckets_sorted bs : sorted_by_node (sort_buckets bs).
Proof.
  assert (Hs : StronglySorted bucket_le (sort_buckets bs))
    by (apply StronglySorted_merge_sort; apply _).
  induction Hs as [|a l _ IH Hall]; constructor; [done|].
  eapply Forall_impl; [exact Hall|]. intros b Hb. n_compare.
Qed.

Lemma sort_buckets_perm bs : sort_buckets bs ≡ₚ bs.
Proof. apply merge_sort_Permutation. Qed.

Lemma buckets_sorted_lookup v i j x y :
  buckets_sorted v -> (i <= j)%nat -> v !! i = Some x -> v !! j = Some y ->
  key_lt (middle_node y) (column_index y) (middle_node x) (column_index x) = false.
Proof.
  intros Hs. revert i j. induction Hs as [|a l Hs IH Hall]; intros i j Hij Hx Hy; [done|].
  destruct i as [|i], j as [|j]; cbn in *; simplify_eq.
  - n_compare.
  - rewrite Forall_lookup in Hall. eauto.
  - lia.
  - eapply IH; [|done..]. lia.
Qed.

(** A list sorted by node and column is sorted by node. *)
Lemma buckets_sorted_by_node v : buckets_sorted v -> sorted_by_node v.
Proof.
  induction 1 as [|a l _ IH Hall]; constructor; [done|].
  eapply Forall_impl; [exact Hall|]. intros b Hb. n_compare.
Qed.

Lemma sorted_by_node_lookup v i j x y :
  sorted_by_node v -> (i <= j)%nat -> v !! i = Some x -> v !! j = Some y ->
  (middle_node x <= middle_node y)%N.
Proof.
  intros Hs. revert i j. induction Hs as [|a l Hs IH Hall]; intros i j Hij Hx Hy; [done|].
  destruct i as [|i], j as [|j]; cbn in *; simplify_eq.
  - lia.
  - rewrite Forall_lookup in Hall. eauto.
  - lia.
  - eapply IH; [|done..]. lia.
Qed.

(** The comparisons of the equal-range calls partition a sorted list. *)
Lemma partitioned_Compare_lower v n :
  sorted_by_node v -> partitioned (fun b => Compare_bucket_node b n) v.
Proof.
  intros Hs i j x y Hij Hx Hy Hb.
  pose proof (sorted_by_node_lookup _ _ _ _ _ Hs Hij Hx Hy) as H. n_compare.
Qed.

Lemma partitioned_Compare_upper v n :
  sorted_by_node v -> partitioned (fun b => negb (Compare_node_bucket n b)) v.
Proof.
  intros Hs i j x y Hij Hx Hy Hb.
  pose proof (sorted_by_node_lookup _ _ _ _ _ Hs Hij Hx Hy) as H. n_compare.
Qed.

Lemma partitioned_ColumnCompare_lower v n c :
  buckets_sorted v -> partitioned (fun b => ColumnCompare_bucket_node c b n) v.
Proof.
  intros Hs i j x y Hij Hx Hy Hb.
  pose proof (buckets_sorted_lookup _ _ _ _ _ Hs Hij Hx Hy) as H. n_compare.
Qed.

(** On a sorted list the equal range of a node is the contiguous block of
    its entries. *)
Lemma node_buckets_sorted v n :
  sorted_by_node v ->
  let r := equal_range (fun b => Compare_bucket_node b n)
                       (fun b => Compare_node_bucket n b) v in
  (r.1 <= r.2 <= length v)%nat
  /\ v = take r.1 v ++ node_buckets v n ++ drop r.2 v
  /\ Forall (fun b => middle_node b <> n) (take r.1 v)
  /\ Forall (fun b => middle_node b = n) (node_buckets v n)
  /\ Forall (fun b => middle_node b <> n) (drop r.2 v)
  /\ node_buckets v n = filter (fun b => middle_node b = n) v.
Proof.
  intros Hs r.
  destruct (range_between (fun b => Compare_bucket_node b n)
              (fun b => negb (Compare_node_bucket n b)) v)
    as (Hle & Hsplit & Hlo & Hmid & Hhi).
  { by apply partitioned_Compare_lower. }
  { by apply partitioned_Compare_upper. }
  { intros x Hx. n_compare. }
  change (lower_bound (fun b => Compare_bucket_node b n) v) with r.1 in *.
  change (lower_bound (fun b => negb (Compare_node_bucket n b)) v) with r.2 in *.
  change (take (r.2 - r.1) (drop r.1 v)) with (node_buckets v n) in *.
  assert (Hlo' : Forall (fun b => middle_node b <> n) (take r.1 v)).
  { eapply Forall_impl; [exact Hlo|]. intros x Hx. cbn in Hx. n_compare. }
  assert (Hmid' : Forall (fun b => middle_node b = n) (node_buckets v n)).
  { eapply Forall_impl; [exact Hmid|]. intros x Hx. cbn in Hx. n_compare. }
  assert (Hhi' : Forall (fun b => middle_node b <> n) (drop r.2 v)).
  { eapply Forall_impl; [exact Hhi|]. intros x Hx. cbn in Hx. n_compare. }
  repeat split; try done; try lia.
  rewrite Hsplit at 2. rewrite !filter_app.
  rewrite (filter_none _ (take r.1 v)), (filter_none _ (drop r.2 v)) by done.
  rewrite (filter_all _ (node_buckets v n)) by done.
  by rewrite app_nil_r.
Qed.

(** C6.  Let the bucket list [bs] be appended in any order and let [s] be
    what sorting made of it: a rearrangement of [bs] ordered by node, in
    whatever order the entries of one node came out.  Then the entries of a
    node form one contiguous block of [s]: [s] is the entries before the
    equal range, none of which belongs to the node, then the equal range,
    all of whose entries belong to it, then the entries after it, none of
    which belongs to it.  The block holds exactly the entries that were
    appended for the node, each as often as it was appended. *)
Theorem sorted_buckets_equal_range (bs s : list NodeBucket) (n : NodeID) :
  s ≡ₚ bs -> sorted_by_node s ->
  let r := equal_range (fun b => Compare_bucket_node b n)
                       (fun b => Compare_node_bucket n b) s in
  s = take r.1 s ++ node_buckets s n ++ drop r.2 s
  /\ Forall (fun b => middle_node b <> n) (take r.1 s)
  /\ Forall (fun b => middle_node b = n) (node_buckets s n)
  /\ Forall (fun b => middle_node b <> n) (drop r.2 s)
  /\ (forall b, b ∈ node_buckets s n <-> b ∈ bs /\ middle_node b = n)
  /\ node_buckets s n ≡ₚ filter (fun b => middle_node b = n) bs.
Proof.
  intros Hperm Hsorted r.
  destruct (node_buckets_sorted s n Hsorted) as (_ & Hsplit & Hlo & Hmid & Hhi & Hfilter).
  fold r in Hsplit, Hlo, Hhi.
  assert (Hblock : node_buckets s n ≡ₚ filter (fun b => middle_node b = n) bs).
  { rewrite Hfilter. by apply filter_Permutation. }
  split; [done|]. split; [done|]. split; [done|]. split; [done|]. split; [|done].
  intros b. rewrite Hblock, list_elem_of_filter. tauto.
Qed.

(** The driver's sort yields such a list. *)
Lemma sort_buckets_sorted_by_node bs :
  sort_buckets bs ≡ₚ bs /\ sorted_by_node (sort_buckets bs).
Proof.
  split; [apply sort_buckets_perm | apply sort_buckets_sorted].
Qed.

(** ** Walking the bucket list *)

Lemma at_index_not_asserted {A} (v : list A) i : at_index v i <> AssertionFailed.
Proof. unfold at_index. by destruct (v !! i). Qed.

Lemma follow_parents_not_asserted fuel c bs first path :
  follow_parents fuel c bs first path <> AssertionFailed.
Proof.
  revert first path. induction fuel as [|fuel IH]; intros first path; cbn;
    unfold at_index; destruct (bs !! first) as [b|]; cbn; try done;
    destruct (_ && _); try done; apply IH.
Qed.

Lemma retrievePackedPathFromSearchSpace_not_asserted fuel m c bs :
  retrievePackedPathFromSearchSpace fuel m c bs <> AssertionFailed.
Proof.
  unfold retrievePackedPathFromSearchSpace, at_index.
  destruct (bs !! _); cbn; [apply follow_parents_not_asserted | done].
Qed.

Lemma heap_parents_not_asserted fuel h n path :
  heap_parents fuel h n path <> AssertionFailed.
Proof.
  revert n path. induction fuel as [|fuel IH]; intros n path; cbn;
    unfold GetData; destruct (inserted_nodes h !! n) as [e|]; cbn; try done;
    destruct (_ && _); try done; apply IH.
Qed.

(** The loop that retrieves the two half paths of every column of a row
    checks no assertion: whatever the heap, the bucket list and the middle
    nodes in the table, its outcome is never a failed assertion. *)
Lemma retrieve_paths_not_asserted
    (fuel : nat) (query_heap : QueryHeap) (bs : list NodeBucket) (tables : Tables)
    (row_idx number_of_targets : N) (columns : list N) :
  retrieve_paths fuel query_heap bs tables row_idx number_of_targets columns
    <> AssertionFailed.
Proof.
  induction columns as [|c columns IH]; cbn; [done|].
  pose proof (at_index_not_asserted (middle_nodes_table tables)
                (N.to_nat (row_idx * number_of_targets + c))) as H1.
  destruct (at_index _ _) as [m| | |]; cbn; try done.
  pose proof (retrievePackedPathFromSearchSpace_not_asserted fuel m c bs) as H2.
  destruct (retrievePackedPathFromSearchSpace _ _ _ _) as [p| | |]; cbn; try done.
  unfold retrievePackedPathFromSingleManyToManyHeap.
  pose proof (heap_parents_not_asserted fuel query_heap m []) as H3.
  destruct (heap_parents _ _ _ _) as [q| | |]; cbn; done.
Qed.

(** C10, the code at the failing inputs.  For the sentinel the search of
    the bucket list answers the end position and the first read is made
    there, outside the list.  For node 2, which has no entry in column 0,
    the search answers position 1, where the entry of node 3 sits: the
    returned path starts with node 3 and goes on with that entry's parent.
    The driver makes the sentinel query itself: on the path 0 - 1 - 2 the
    pair (source 2, target 0) is unreachable, and the query reads outside
    the bucket list. *)
Theorem bucket_walk_reads_other_entries :
  column_lower_bound broken_chain SPECIAL_NODEID 0%N = length broken_chain
  /\ retrievePackedPathFromSearchSpace 10 SPECIAL_NODEID 0%N broken_chain = OutOfBounds
  /\ filter (fun b => middle_node b = 2%N) broken_chain = []
  /\ column_lower_bound broken_chain 2%N 0%N = 1%nat
  /\ broken_chain !! 1%nat = Some (mkNodeBucket 3%N 4%N 0%N 1 1)
  /\ retrievePackedPathFromSearchSpace 10 2%N 0%N broken_chain = Done [3%N; 4%N]
  /\ manyToManySearch never_stall 10 path_facade path_phantoms [2%nat] [0%nat]
     = OutOfBounds.
Proof. repeat split; vm_compute; reflexivity. Qed.

(** A list that the backward searches cannot build: node 1 has an entry in
    column 0 whose parent is node 2, and node 2 has no entry in column 0.
    The walk does not stop there: the search for node 2 answers the
    position of the entry of node 3, and the parent of that entry, node 4,
    is appended as well. *)
Lemma bucket_walk_passes_missing_parent :
  buckets_sorted broken_chain
  /\ broken_chain !! 0%nat = Some (mkNodeBucket 1%N 2%N 0%N 5 5)
  /\ filter (fun b => middle_node b = 2%N /\ column_index b = 0%N) broken_chain = []
  /\ retrievePackedPathFromSearchSpace 10 1%N 0%N broken_chain = Done [1%N; 2%N; 4%N].
Proof.
  split; [|repeat split; vm_compute; reflexivity].
  unfold buckets_sorted, broken_chain.
  repeat (constructor; [|repeat constructor; vm_compute; reflexivity]).
  constructor.
Qed.

(** ** The search heap *)

Lemma elem_of_node_set n x : x ∈ node_set n <-> (x < n)%N.
Proof.
  unfold node_set. rewrite elem_of_list_to_set, list_elem_of_fmap. split.
  - intros (k & -> & Hk). apply elem_of_seq in Hk. lia.
  - intros Hx. exists (N.to_nat x). split; [lia|]. apply elem_of_seq. lia.
Qed.

Lemma size_node_set n : size (node_set n) = N.to_nat n.
Proof.
  unfold node_set. rewrite size_list_to_set.
  - by rewrite length_fmap, length_seq.
  - apply NoDup_fmap_2; [|apply NoDup_seq]. intros x y. apply Nat2N.inj.
Qed.

Lemma min_key_node_elem h n : min_key_node h = Some n -> n ∈ heap h.
Proof.
  unfold min_key_node. rewrite <- elem_of_elements.
  revert n. induction (elements (heap h)) as [|x l IH]; intros n; cbn; [done|].
  rewrite elem_of_cons.
  destruct (foldr _ None l) as [m|]; [|intros [= ->]; by left].
  destruct (_ <? _); intros [= <-]; [by left | right; by apply IH].
Qed.

Lemma min_key_node_None h : min_key_node h = None -> heap h = ∅.
Proof.
  unfold min_key_node. intros Hnone. apply leibniz_equiv, elements_empty_iff.
  destruct (elements (heap h)) as [|x l]; [done|]. cbn in Hnone.
  destruct (foldr _ None l); [destruct (_ <? _)|]; done.
Qed.

Lemma Empty_true h : Empty h = true <-> heap h = ∅.
Proof. unfold Empty. apply bool_decide_eq_true. Qed.

Lemma Empty_false h : Empty h = false <-> heap h <> ∅.
Proof. unfold Empty. apply bool_decide_eq_false. Qed.

(** A pop removes a queued node and leaves the node storage alone. *)
Lemma DeleteMin_Done h :
  Empty h = false ->
  exists node, node ∈ heap h
    /\ DeleteMin h = Done (node, mkQueryHeap (inserted_nodes h) (heap h ∖ {[node]})).
Proof.
  intros Hne. apply Empty_false in Hne. unfold DeleteMin.
  destruct (min_key_node h) as [n|] eqn:Hmin.
  - exists n. split; [by apply min_key_node_elem | done].
  - by apply min_key_node_None in Hmin.
Qed.

Lemma DeleteMin_inv h node h1 :
  DeleteMin h = Done (node, h1) ->
  node ∈ heap h /\ h1 = mkQueryHeap (inserted_nodes h) (heap h ∖ {[node]}).
Proof.
  unfold DeleteMin. destruct (min_key_node h) as [n|] eqn:Hmin; [|done].
  intros [= <- <-]. split; [by apply min_key_node_elem | done].
Qed.

Lemma DeleteMin_wf facade h node h1 :
  heap_wf facade h -> DeleteMin h = Done (node, h1) ->
  heap_wf facade h1
  /\ S (search_room facade h1) = search_room facade h
  /\ is_Some (inserted_nodes h1 !! node)
  /\ (node < GetNumberOfNodes facade)%N.
Proof.
  intros [Hq Hd] Hpop. apply DeleteMin_inv in Hpop as [Hn ->].
  assert (Hsz : (size ({[node]} : gset N) <= size (heap h))%nat)
    by (apply subseteq_size; set_solver).
  rewrite size_singleton in Hsz.
  unfold heap_wf, search_room; cbn. split; [split|split; [|split]].
  - set_solver.
  - done.
  - rewrite size_difference by set_solver. rewrite size_singleton. lia.
  - apply elem_of_dom. set_solver.
  - apply elem_of_node_set. set_solver.
Qed.

Lemma Insert_fresh_wf facade h to k d :
  heap_wf facade h -> inserted_nodes h !! to = None ->
  (to < GetNumberOfNodes facade)%N ->
  heap_wf facade (Insert h to k d)
  /\ search_room facade (Insert h to k d) = search_room facade h.
Proof.
  intros [Hq Hd] Hto Hlt.
  assert (Hnd : to ∉ dom (inserted_nodes h)) by (by apply not_elem_of_dom).
  assert (HU : to ∈ node_set (GetNumberOfNodes facade)) by (by apply elem_of_node_set).
  unfold heap_wf, search_room, Insert; cbn. rewrite dom_insert_L. split; [split|].
  - set_solver.
  - set_solver.
  - rewrite size_union by set_solver. rewrite size_singleton.
    replace (node_set (GetNumberOfNodes facade) ∖ ({[to]} ∪ dom (inserted_nodes h)))
      with ((node_set (GetNumberOfNodes facade) ∖ dom (inserted_nodes h)) ∖ {[to]})
      by set_solver.
    rewrite size_difference by set_solver. rewrite size_singleton.
    assert (Hsz : (size ({[to]} : gset N)
                   <= size (node_set (GetNumberOfNodes facade) ∖ dom (inserted_nodes h)))%nat)
      by (apply subseteq_size; set_solver).
    rewrite size_singleton in Hsz. lia.
Qed.

Lemma relax_edge_wf DIRECTION facade node w d h e h2 :
  heap_wf facade h -> (EdgeData.target e < GetNumberOfNodes facade)%N ->
  relax_edge DIRECTION node w d h e = Done h2 ->
  heap_wf facade h2 /\ search_room facade h2 = search_room facade h.
Proof.
  intros Hwf Hlt. rewrite relax_edge_cases.
  destruct (if DIRECTION then _ else _); [|by intros [= <-]].
  destruct (BOOST_ASSERT _); cbn; try done.
  destruct (inserted_nodes h !! EdgeData.target e) as [x|] eqn:Hto.
  - destruct (tie_lt _ _ _ _); intros [= <-]; [|done].
    destruct Hwf as [Hq Hd].
    unfold heap_wf, search_room, DecreaseKey, SetData; cbn.
    by rewrite !dom_alter_L.
  - intros [= <-]. by apply Insert_fresh_wf.
Qed.

(** An edge either passes or fails the assertion on its weight. *)
Lemma relax_edge_outcome DIRECTION node w d h e :
  (exists h2, relax_edge DIRECTION node w d h e = Done h2)
  \/ (relax_edge DIRECTION node w d h e = AssertionFailed
      /\ (if DIRECTION then EdgeData.forward e else EdgeData.backward e) = true
      /\ EdgeData.weight e <= 0).
Proof.
  rewrite relax_edge_cases. unfold BOOST_ASSERT.
  destruct (if DIRECTION then _ else _); [|left; eauto].
  destruct (Z.ltb_spec 0 (EdgeData.weight e)); cbn; [left|right; done].
  destruct (inserted_nodes h !! EdgeData.target e); [destruct (tie_lt _ _ _ _)|]; eauto.
Qed.

Lemma relax_edges_wf DIRECTION facade node w d h edges h2 :
  heap_wf facade h ->
  Forall (fun e => (EdgeData.target e < GetNumberOfNodes facade)%N) edges ->
  relax_edges DIRECTION node w d h edges = Done h2 ->
  heap_wf facade h2 /\ search_room facade h2 = search_room facade h.
Proof.
  intros Hwf Hall. revert h Hwf.
  induction Hall as [|e edges He _ IH]; intros h Hwf; cbn; [by intros [= <-]|].
  destruct (relax_edge DIRECTION node w d h e) as [h1| | |] eqn:Hedge; cbn; try done.
  destruct (relax_edge_wf _ _ _ _ _ _ _ _ Hwf He Hedge) as [Hwf1 Hroom1].
  intros Hrest. destruct (IH _ Hwf1 Hrest) as [Hwf2 Hroom2].
  split; [done | congruence].
Qed.

Lemma relax_edges_outcome DIRECTION node w d h edges :
  (exists h2, relax_edges DIRECTION node w d h edges = Done h2)
  \/ relax_edges DIRECTION node w d h edges = AssertionFailed.
Proof.
  revert h. induction edges as [|e edges IH]; intros h; cbn; [left; eauto|].
  destruct (relax_edge_outcome DIRECTION node w d h e) as [[h1 ->]|[-> _]]; cbn; [|by right].
  apply IH.
Qed.

Lemma relax_edges_Done (DIRECTION : bool) node w d h edges :
  Forall (fun e => (if DIRECTION then EdgeData.forward e else EdgeData.backward e) = true ->
                   0 < EdgeData.weight e) edges ->
  exists h2, relax_edges DIRECTION node w d h edges = Done h2.
Proof.
  intros Hall. revert h. induction Hall as [|e edges He _ IH]; intros h; cbn; [eauto|].
  destruct (relax_edge_outcome DIRECTION node w d h e) as [[h1 ->]|(_ & Hu & Hw)]; cbn.
  - apply IH.
  - specialize (He Hu). lia.
Qed.

Section HeapSearch.

Variable stallAtNode : bool -> DataFacade -> NodeID -> EdgeWeight -> QueryHeap -> bool.

Lemma relaxOutgoingEdges_wf DIRECTION facade node w d h h2 :
  facade_wf facade -> heap_wf facade h -> (node < GetNumberOfNodes facade)%N ->
  relaxOutgoingEdges stallAtNode DIRECTION facade node w d h = Done h2 ->
  heap_wf facade h2 /\ search_room facade h2 = search_room facade h.
Proof.
  intros Hf Hwf Hn. unfold relaxOutgoingEdges.
  destruct (stallAtNode _ _ _ _ _); [by intros [= <-]|].
  apply relax_edges_wf; [done|]. apply Forall_forall. intros e He. by eapply Hf.
Qed.

Lemma relaxOutgoingEdges_outcome DIRECTION facade node w d h :
  (exists h2, relaxOutgoingEdges stallAtNode DIRECTION facade node w d h = Done h2)
  \/ relaxOutgoingEdges stallAtNode DIRECTION facade node w d h = AssertionFailed.
Proof.
  unfold relaxOutgoingEdges. destruct (stallAtNode _ _ _ _ _); [left; eauto|].
  apply relax_edges_outcome.
Qed.

Lemma relaxOutgoingEdges_Done DIRECTION facade node w d h :
  edges_positive DIRECTION facade -> (node < GetNumberOfNodes facade)%N ->
  exists h2, relaxOutgoingEdges stallAtNode DIRECTION facade node w d h = Done h2.
Proof.
  intros Hpos Hn. unfold relaxOutgoingEdges. destruct (stallAtNode _ _ _ _ _); [eauto|].
  apply relax_edges_Done. apply Forall_forall. intros e He. by apply (Hpos node).
Qed.

End HeapSearch.

(** ** The settle loops *)

Section SettleLoops.

Variable stallAtNode : bool -> DataFacade -> NodeID -> EdgeWeight -> QueryHeap -> bool.

Lemma Empty_room facade h : Empty h = false -> (0 < search_room facade h)%nat.
Proof.
  intros Hne. apply Empty_false in Hne. unfold search_room.
  assert (size (heap h) <> 0%nat); [|lia].
  apply size_non_empty_iff. by intros ?%leibniz_equiv.
Qed.

Lemma backwardRoutingStep_outcome facade column_idx h bs :
  facade_wf facade -> heap_wf facade h -> Empty h = false ->
  backwardRoutingStep stallAtNode facade column_idx h bs = AssertionFailed
  \/ exists h' b,
       backwardRoutingStep stallAtNode facade column_idx h bs = Done (h', bs ++ [b])
       /\ column_index b = column_idx
       /\ heap_wf facade h'
       /\ S (search_room facade h') = search_room facade h.
Proof.
  intros Hf Hwf Hne.
  destruct (DeleteMin_Done h Hne) as (node & _ & Hpop).
  destruct (DeleteMin_wf facade _ _ _ Hwf Hpop) as (Hwf1 & Hroom & [e He] & Hn).
  unfold backwardRoutingStep. rewrite Hpop. cbn. unfold GetKey, GetData.
  rewrite He. cbn.
  destruct (relaxOutgoingEdges_outcome stallAtNode REVERSE_DIRECTION facade node
              (key e) (HeapData.duration (data e))
              (mkQueryHeap (inserted_nodes h) (heap h ∖ {[node]}))) as [[h2 Hrelax]|Hrelax];
    rewrite Hrelax; cbn; [right | by left].
  destruct (relaxOutgoingEdges_wf stallAtNode _ _ _ _ _ _ _ Hf Hwf1 Hn Hrelax) as [Hwf2 Hroom2].
  eexists _, _. split; [done|]. split; [done|]. split; [done|]. lia.
Qed.

Lemma backwardRoutingStep_Done facade column_idx h bs :
  facade_wf facade -> edges_positive REVERSE_DIRECTION facade ->
  heap_wf facade h -> Empty h = false ->
  exists h' b,
    backwardRoutingStep stallAtNode facade column_idx h bs = Done (h', bs ++ [b])
    /\ column_index b = column_idx
    /\ heap_wf facade h'
    /\ S (search_room facade h') = search_room facade h.
Proof.
  intros Hf Hpos Hwf Hne.
  destruct (backwardRoutingStep_outcome facade column_idx h bs Hf Hwf Hne) as [Hfail|Hok];
    [|done].
  exfalso. revert Hfail.
  destruct (DeleteMin_Done h Hne) as (node & _ & Hpop).
  destruct (DeleteMin_wf facade _ _ _ Hwf Hpop) as (Hwf1 & Hroom & [e He] & Hn).
  unfold backwardRoutingStep. rewrite Hpop. cbn. unfold GetKey, GetData.
  rewrite He. cbn.
  destruct (relaxOutgoingEdges_Done stallAtNode REVERSE_DIRECTION facade node
              (key e) (HeapData.duration (data e))
              (mkQueryHeap (inserted_nodes h) (heap h ∖ {[node]})) Hpos Hn) as [h2 ->].
  done.
Qed.

(** The backward loop ends within [search_room] steps: with the heap empty,
    or at a failed assertion of the relaxation. *)
Lemma backward_sweep_ends facade column_idx fuel h bs :
  facade_wf facade -> heap_wf facade h -> (search_room facade h <= fuel)%nat ->
  backward_sweep stallAtNode fuel facade column_idx h bs = AssertionFailed
  \/ exists h' bs',
       backward_sweep stallAtNode fuel facade column_idx h bs = Done (h', bs ++ bs')
       /\ Empty h' = true
       /\ Forall (fun b => column_index b = column_idx) bs'.
Proof.
  intros Hf. revert h bs. induction fuel as [|fuel IH]; intros h bs Hwf Hroom; cbn.
  - destruct (Empty h) eqn:Hne.
    + right. exists h, []. by rewrite app_nil_r.
    + apply (Empty_room facade) in Hne. lia.
  - destruct (Empty h) eqn:Hne.
    + right. exists h, []. by rewrite app_nil_r.
    + destruct (backwardRoutingStep_outcome facade column_idx h bs Hf Hwf Hne)
        as [->|(h1 & b & -> & Hb & Hwf1 & Hroom1)]; cbn; [by left|].
      destruct (IH h1 (bs ++ [b]) Hwf1) as [->|(h' & bs' & -> & He & Hall)];
        [lia | by left | right].
      exists h', (b :: bs'). rewrite <- app_assoc. split; [done|]. split; [done|].
      by constructor.
Qed.

Lemma backward_sweep_Done facade column_idx fuel h bs :
  facade_wf facade -> edges_positive REVERSE_DIRECTION facade ->
  heap_wf facade h -> (search_room facade h <= fuel)%nat ->
  exists h' bs',
    backward_sweep stallAtNode fuel facade column_idx h bs = Done (h', bs ++ bs')
    /\ Empty h' = true
    /\ Forall (fun b => column_index b = column_idx) bs'.
Proof.
  intros Hf Hpos. revert h bs. induction fuel as [|fuel IH]; intros h bs Hwf Hroom; cbn.
  - destruct (Empty h) eqn:Hne.
    + exists h, []. by rewrite app_nil_r.
    + apply (Empty_room facade) in Hne. lia.
  - destruct (Empty h) eqn:Hne.
    + exists h, []. by rewrite app_nil_r.
    + destruct (backwardRoutingStep_Done facade column_idx h bs Hf Hpos Hwf Hne)
        as (h1 & b & -> & Hb & Hwf1 & Hroom1); cbn.
      destruct (IH h1 (bs ++ [b]) Hwf1) as (h' & bs' & -> & He & Hall); [lia|].
      exists h', (b :: bs'). rewrite <- app_assoc. split; [done|]. split; [done|].
      by constructor.
Qed.

End SettleLoops.

(** ** The forward loop and the matrix cells *)

Lemma tables_sized_insert L tables cell w d m :
  tables_sized L tables ->
  tables_sized L (mkTables (<[cell := w]> (weights_table tables))
                           (<[cell := d]> (durations_table tables))
                           (<[cell := m]> (middle_nodes_table tables))).
Proof. unfold tables_sized; cbn. by rewrite !length_insert. Qed.

Lemma cell_content_insert_ne tables cell cell' w d m :
  cell <> cell' ->
  cell_content (mkTables (<[cell := w]> (weights_table tables))
                         (<[cell := d]> (durations_table tables))
                         (<[cell := m]> (middle_nodes_table tables))) cell'
  = cell_content tables cell'.
Proof. intros Hne. unfold cell_content; cbn. by rewrite !list_lookup_insert_ne. Qed.

(** With tables large enough the merge of an entry succeeds; it changes at
    most the cell the entry addresses, and not even that one when the
    candidate is discarded. *)
Lemma merge_bucket_Done facade row_idx number_of_targets node sw sd tables b L :
  tables_sized L tables ->
  (cell_index row_idx number_of_targets (column_index b) < L)%nat ->
  exists tables',
    merge_bucket facade row_idx number_of_targets node sw sd tables b = Done tables'
    /\ tables_sized L tables'
    /\ (forall cell,
          (cell_index row_idx number_of_targets (column_index b) = cell ->
           discarded facade node sw b) ->
          cell_content tables' cell = cell_content tables cell).
Proof.
  intros Hsz Hcell. pose proof Hsz as (Hlw & Hld & Hlm).
  set (idx := cell_index row_idx number_of_targets (column_index b)) in *.
  destruct (lookup_lt_is_Some_2 (weights_table tables) idx) as [cw Hcw]; [lia|].
  destruct (lookup_lt_is_Some_2 (durations_table tables) idx) as [cd Hcd]; [lia|].
  destruct (Z_lt_le_dec (add32 sw (weight b)) 0) as [Hneg|Hpos].
  - rewrite (merge_bucket_negative facade row_idx number_of_targets node
               sw sd tables b cw cd Hneg Hcw Hcd) by (fold idx; lia).
    fold idx. case_decide as Hok; [|eauto].
    eexists. split; [done|]. split; [by apply tables_sized_insert|].
    intros cell Hdisc. destruct (decide (idx = cell)) as [Heq|Hne].
    + destruct (Hdisc Heq) as [_ [?|?]]; [tauto | lia].
    + by apply cell_content_insert_ne.
  - rewrite (merge_bucket_nonnegative facade row_idx number_of_targets node
               sw sd tables b cw cd Hpos Hcw Hcd) by (fold idx; lia).
    fold idx. destruct (tie_lt _ _ _ _); [|eauto].
    eexists. split; [done|]. split; [by apply tables_sized_insert|].
    intros cell Hdisc. destruct (decide (idx = cell)) as [Heq|Hne].
    + destruct (Hdisc Heq) as [? _]. lia.
    + by apply cell_content_insert_ne.
Qed.

Lemma merge_buckets_Done facade row_idx number_of_targets node sw sd tables bl L :
  tables_sized L tables ->
  Forall (fun b => (cell_index row_idx number_of_targets (column_index b) < L)%nat) bl ->
  exists tables',
    merge_buckets facade row_idx number_of_targets node sw sd tables bl = Done tables'
    /\ tables_sized L tables'
    /\ (forall cell,
          (forall b, b ∈ bl ->
             cell_index row_idx number_of_targets (column_index b) = cell ->
             discarded facade node sw b) ->
          cell_content tables' cell = cell_content tables cell).
Proof.
  intros Hsz Hall. revert tables Hsz.
  induction Hall as [|b bl Hb _ IH]; intros tables Hsz; cbn; [eauto|].
  destruct (merge_bucket_Done facade row_idx number_of_targets node sw sd tables b L Hsz Hb)
    as (tables1 & -> & Hsz1 & Hcell1). cbn.
  destruct (IH tables1 Hsz1) as (tables2 & -> & Hsz2 & Hcell2).
  eexists. split; [done|]. split; [done|].
  intros cell Hdisc. rewrite Hcell2, Hcell1; [done | |].
  - intros Heq. apply Hdisc; [left | done].
  - intros b' Hb' Heq. apply Hdisc; [by right | done].
Qed.

Lemma node_buckets_subseteq bs node b : b ∈ node_buckets bs node -> b ∈ bs.
Proof.
  unfold node_buckets, iterator_range. intros Hb.
  apply elem_of_take in Hb as (i & Hi & _). rewrite lookup_drop in Hi.
  by eapply list_elem_of_lookup_2.
Qed.

Section ForwardLoop.

Variable stallAtNode : bool -> DataFacade -> NodeID -> EdgeWeight -> QueryHeap -> bool.

(** One forward step on a heap that is not empty: it pops a node, merges
    its bucket entries and relaxes its edges. *)
Lemma forwardRoutingStep_Done facade row_idx number_of_targets h bs tables L :
  facade_wf facade -> edges_positive FORWARD_DIRECTION facade ->
  heap_wf facade h -> Empty h = false ->
  tables_sized L tables ->
  Forall (fun b => (cell_index row_idx number_of_targets (column_index b) < L)%nat) bs ->
  exists node h1 e h2 tables',
    DeleteMin h = Done (node, h1)
    /\ inserted_nodes h1 !! node = Some e
    /\ relaxOutgoingEdges stallAtNode FORWARD_DIRECTION facade node
         (key e) (HeapData.duration (data e)) h1 = Done h2
    /\ forwardRoutingStep stallAtNode facade row_idx number_of_targets h bs tables
       = Done (h2, tables')
    /\ heap_wf facade h2
    /\ S (search_room facade h2) = search_room facade h
    /\ tables_sized L tables'
    /\ (forall cell,
          (forall b, b ∈ node_buckets bs node ->
             cell_index row_idx number_of_targets (column_index b) = cell ->
             discarded facade node (key e) b) ->
          cell_content tables' cell = cell_content tables cell).
Proof.
  intros Hf Hpos Hwf Hne Hsz Hcells.
  destruct (DeleteMin_Done h Hne) as (node & _ & Hpop).
  destruct (DeleteMin_wf facade _ _ _ Hwf Hpop) as (Hwf1 & Hroom & [e He] & Hn).
  destruct (merge_buckets_Done facade row_idx number_of_targets node
              (key e) (HeapData.duration (data e)) tables (node_buckets bs node) L Hsz)
    as (tables' & Hmerge & Hsz' & Hcell).
  { apply Forall_forall. intros b Hb. apply node_buckets_subseteq in Hb.
    rewrite Forall_forall in Hcells. by apply Hcells. }
  destruct (relaxOutgoingEdges_Done stallAtNode FORWARD_DIRECTION facade node
              (key e) (HeapData.duration (data e))
              (mkQueryHeap (inserted_nodes h) (heap h ∖ {[node]})) Hpos Hn) as [h2 Hrelax].
  destruct (relaxOutgoingEdges_wf stallAtNode _ _ _ _ _ _ _ Hf Hwf1 Hn Hrelax) as [Hwf2 Hroom2].
  exists node, (mkQueryHeap (inserted_nodes h) (heap h ∖ {[node]})), e, h2, tables'.
  split; [done|]. split; [done|]. split; [done|]. split.
  { unfold forwardRoutingStep. rewrite Hpop. cbv [mbind outcome_bind].
    unfold GetKey, GetData. rewrite He, Hmerge, Hrelax. done. }
  split; [done|]. split; [lia|]. split; [done|]. done.
Qed.

(** The forward loop of a row, run with enough fuel on a well-formed heap
    and tables that hold every cell the bucket entries address: it ends
    with the heap empty, and a cell is left as it was when every entry of a
    settled node that addresses it is discarded. *)
Lemma forward_sweep_Done facade row_idx number_of_targets bs L fuel h tables :
  facade_wf facade -> edges_positive FORWARD_DIRECTION facade ->
  Forall (fun b => (cell_index row_idx number_of_targets (column_index b) < L)%nat) bs ->
  heap_wf facade h -> (search_room facade h <= fuel)%nat ->
  tables_sized L tables ->
  exists h' tables',
    forward_sweep stallAtNode fuel facade row_idx number_of_targets h bs tables
      = Done (h', tables')
    /\ Empty h' = true
    /\ tables_sized L tables'
    /\ (forall cell,
          (forall node w d b, settles stallAtNode facade h node w d ->
             b ∈ node_buckets bs node ->
             cell_index row_idx number_of_targets (column_index b) = cell ->
             discarded facade node w b) ->
          cell_content tables' cell = cell_content tables cell).
Proof.
  intros Hf Hpos Hcells. revert h tables.
  induction fuel as [|fuel IH]; intros h tables Hwf Hroom Hsz; cbn.
  - destruct (Empty h) eqn:Hne.
    + exists h, tables. done.
    + apply (Empty_room facade) in Hne. lia.
  - destruct (Empty h) eqn:Hne.
    + exists h, tables. done.
    + destruct (forwardRoutingStep_Done facade row_idx number_of_targets h bs tables L
                  Hf Hpos Hwf Hne Hsz Hcells)
        as (node & h1 & e & h2 & tables1 & Hpop & He & Hrelax & -> & Hwf2 & Hroom2 & Hsz1 & Hcell1).
      cbn. destruct (IH h2 tables1 Hwf2) as (h' & tables' & -> & Hempty & Hsz' & Hcell');
        [lia | done |].
      exists h', tables'. split; [done|]. split; [done|]. split; [done|].
      intros cell Hdisc. rewrite Hcell', Hcell1; [done | |].
      * intros b Hb Heq. eapply Hdisc; [|done..]. by eapply settles_now.
      * intros n w d b Hset Hb Heq. eapply Hdisc; [|done..].
        by eapply settles_later.
Qed.

End ForwardLoop.

Lemma store_outcome {A} (v : list A) i x :
  store v i x = OutOfBounds \/ exists v', store v i x = Done v'.
Proof. unfold store. destruct (i <? length v)%nat; eauto. Qed.

(** The merge of an entry ends with new tables or at an access outside
    the tables; the assertion of [addLoopWeight] holds where it is called. *)
Lemma merge_bucket_outcome facade row_idx number_of_targets node sw sd tables b :
  merge_bucket facade row_idx number_of_targets node sw sd tables b = OutOfBounds
  \/ exists tables',
       merge_bucket facade row_idx number_of_targets node sw sd tables b = Done tables'.
Proof.
  unfold merge_bucket, at_index.
  destruct (weights_table tables !! _) as [cw|]; cbn; [|by left].
  destruct (durations_table tables !! _) as [cd|]; cbn; [|by left].
  assert (Hstores : forall w d,
    (weights ← store (weights_table tables)
                (cell_index row_idx number_of_targets (column_index b)) w;
     durations ← store (durations_table tables)
                  (cell_index row_idx number_of_targets (column_index b)) d;
     middle_nodes ← store (middle_nodes_table tables)
                     (cell_index row_idx number_of_targets (column_index b)) node;
     Done (mkTables weights durations middle_nodes)) = OutOfBounds
    \/ exists tables',
      (weights ← store (weights_table tables)
                  (cell_index row_idx number_of_targets (column_index b)) w;
       durations ← store (durations_table tables)
                    (cell_index row_idx number_of_targets (column_index b)) d;
       middle_nodes ← store (middle_nodes_table tables)
                       (cell_index row_idx number_of_targets (column_index b)) node;
       Done (mkTables weights durations middle_nodes)) = Done tables').
  { intros w d.
    destruct (store_outcome (weights_table tables)
                (cell_index row_idx number_of_targets (column_index b)) w)
      as [->|[ws ->]]; [by left|].
    destruct (store_outcome (durations_table tables)
                (cell_index row_idx number_of_targets (column_index b)) d)
      as [->|[ds ->]]; [by left|].
    destruct (store_outcome (middle_nodes_table tables)
                (cell_index row_idx number_of_targets (column_index b)) node)
      as [->|[ms ->]]; [by left|].
    right. by eexists. }
  destruct (Z.ltb_spec (add32 sw (weight b)) 0) as [Hneg|Hpos].
  - rewrite (addLoopWeight_cases _ _ _ _ Hneg). case_decide; cbn; [apply Hstores | eauto].
  - destruct (tie_lt _ _ _ _); [apply Hstores | eauto].
Qed.

Lemma merge_buckets_outcome facade row_idx number_of_targets node sw sd tables bl :
  merge_buckets facade row_idx number_of_targets node sw sd tables bl = OutOfBounds
  \/ exists tables',
       merge_buckets facade row_idx number_of_targets node sw sd tables bl = Done tables'.
Proof.
  revert tables. induction bl as [|b bl IH]; intros tables; cbn; [eauto|].
  destruct (merge_bucket_outcome facade row_idx number_of_targets node sw sd tables b)
    as [->|[tables1 ->]]; cbn; [by left | apply IH].
Qed.

Section Termination.

Variable stallAtNode : bool -> DataFacade -> NodeID -> EdgeWeight -> QueryHeap -> bool.

Lemma forwardRoutingStep_outcome facade row_idx number_of_targets h bs tables :
  facade_wf facade -> heap_wf facade h -> Empty h = false ->
  forwardRoutingStep stallAtNode facade row_idx number_of_targets h bs tables
    = AssertionFailed
  \/ forwardRoutingStep stallAtNode facade row_idx number_of_targets h bs tables
    = OutOfBounds
  \/ exists h' tables',
       forwardRoutingStep stallAtNode facade row_idx number_of_targets h bs tables
         = Done (h', tables')
       /\ heap_wf facade h'
       /\ S (search_room facade h') = search_room facade h.
Proof.
  intros Hf Hwf Hne.
  destruct (DeleteMin_Done h Hne) as (node & _ & Hpop).
  destruct (DeleteMin_wf facade _ _ _ Hwf Hpop) as (Hwf1 & Hroom & [e He] & Hn).
  unfold forwardRoutingStep. rewrite Hpop. cbv [mbind outcome_bind].
  unfold GetKey, GetData. rewrite He.
  destruct (merge_buckets_outcome facade row_idx number_of_targets node (key e)
              (HeapData.duration (data e)) tables (node_buckets bs node))
    as [->|[tables1 ->]]; [by right; left|].
  destruct (relaxOutgoingEdges_outcome stallAtNode FORWARD_DIRECTION facade node
              (key e) (HeapData.duration (data e))
              (mkQueryHeap (inserted_nodes h) (heap h ∖ {[node]}))) as [[h2 Hrelax]|Hrelax];
    rewrite Hrelax; [|by left].
  destruct (relaxOutgoingEdges_wf stallAtNode _ _ _ _ _ _ _ Hf Hwf1 Hn Hrelax) as [Hwf2 Hroom2].
  right; right. eexists _, _. split; [done|]. split; [done|]. lia.
Qed.

Lemma forward_sweep_ends facade row_idx number_of_targets bs fuel h tables :
  facade_wf facade -> heap_wf facade h -> (search_room facade h <= fuel)%nat ->
  forward_sweep stallAtNode fuel facade row_idx number_of_targets h bs tables
    = AssertionFailed
  \/ forward_sweep stallAtNode fuel facade row_idx number_of_targets h bs tables
    = OutOfBounds
  \/ exists h' tables',
       forward_sweep stallAtNode fuel facade row_idx number_of_targets h bs tables
         = Done (h', tables')
       /\ Empty h' = true.
Proof.
  intros Hf. revert h tables.
  induction fuel as [|fuel IH]; intros h tables Hwf Hroom; cbn.
  - destruct (Empty h) eqn:Hne; [right; right; eauto|].
    apply (Empty_room facade) in Hne. lia.
  - destruct (Empty h) eqn:Hne; [right; right; eauto|].
    destruct (forwardRoutingStep_outcome facade row_idx number_of_targets h bs tables
                Hf Hwf Hne) as [->|[->|(h1 & tables1 & -> & Hwf1 & Hroom1)]];
      [by left | by right; left |].
    cbn. apply IH; [done | lia].
Qed.

Lemma search_room_bound facade h :
  (search_room facade h <= size (heap h) + N.to_nat (GetNumberOfNodes facade))%nat.
Proof.
  unfold search_room. rewrite <- size_node_set.
  assert (size (node_set (GetNumberOfNodes facade) ∖ dom (inserted_nodes h))
          <= size (node_set (GetNumberOfNodes facade)))%nat; [|lia].
  apply subseteq_size. set_solver.
Qed.

(** C9.  On a finite graph, from a heap whose nodes are nodes of the graph,
    both settle loops end.  Every step pops a queued node for good, and a
    node enters the queue only when it was never inserted, so the number of
    queued nodes plus the number of nodes never inserted, which is at most
    the queue size plus the node count, falls with every step.  Given that
    many steps the loop is not cut short: the backward loop ends with the
    heap empty or at a failed assertion of the relaxation, the forward loop
    with the heap empty, at a failed assertion or at an access outside the
    tables.  When the traversed edges have positive weight, as asserted,
    the backward loop ends with the heap empty, and so does the forward
    loop when the tables hold every cell the bucket entries address. *)
Theorem settle_loops_terminate
    (facade : DataFacade) (h : QueryHeap) (fuel : nat)
    (column_idx row_idx number_of_targets : N)
    (bs : list NodeBucket) (tables : Tables) :
  facade_wf facade -> heap_wf facade h -> (search_room facade h <= fuel)%nat ->
  (search_room facade h <= size (heap h) + N.to_nat (GetNumberOfNodes facade))%nat
  /\ (backward_sweep stallAtNode fuel facade column_idx h bs = AssertionFailed
      \/ exists h' bs',
           backward_sweep stallAtNode fuel facade column_idx h bs = Done (h', bs ++ bs')
           /\ Empty h' = true)
  /\ (edges_positive REVERSE_DIRECTION facade ->
      exists h' bs',
        backward_sweep stallAtNode fuel facade column_idx h bs = Done (h', bs ++ bs')
        /\ Empty h' = true)
  /\ (forward_sweep stallAtNode fuel facade row_idx number_of_targets h bs tables
        = AssertionFailed
      \/ forward_sweep stallAtNode fuel facade row_idx number_of_targets h bs tables
        = OutOfBounds
      \/ exists h' tables',
           forward_sweep stallAtNode fuel facade row_idx number_of_targets h bs tables
             = Done (h', tables')
           /\ Empty h' = true)
  /\ (edges_positive FORWARD_DIRECTION facade ->
      forall L, tables_sized L tables ->
      Forall (fun b => (cell_index row_idx number_of_targets (column_index b) < L)%nat) bs ->
      exists h' tables',
        forward_sweep stallAtNode fuel facade row_idx number_of_targets h bs tables
          = Done (h', tables')
        /\ Empty h' = true).
Proof.
  intros Hf Hwf Hroom. split; [apply search_room_bound|]. split; [|split; [|split]].
  - destruct (backward_sweep_ends stallAtNode facade column_idx fuel h bs Hf Hwf Hroom)
      as [->|(h' & bs' & -> & He & _)]; [by left | right; eauto].
  - intros Hpos.
    destruct (backward_sweep_Done stallAtNode facade column_idx fuel h bs Hf Hpos Hwf Hroom)
      as (h' & bs' & -> & He & _). eauto.
  - by apply forward_sweep_ends.
  - intros Hpos L Hsz Hcells.
    destruct (forward_sweep_Done stallAtNode facade row_idx number_of_targets bs L fuel
                h tables Hf Hpos Hcells Hwf Hroom Hsz) as (h' & tables' & -> & He & _).
    eauto.
Qed.

End Termination.

(** ** Seeded heaps and the driver *)

Lemma insert_anchors_fresh facade anchors h :
  anchors_wf facade anchors ->
  heap h = dom (inserted_nodes h) ->
  dom (inserted_nodes h) ⊆ node_set (GetNumberOfNodes facade) ->
  heap (insert_anchors h anchors) = dom (inserted_nodes (insert_anchors h anchors))
  /\ dom (inserted_nodes (insert_anchors h anchors)) ⊆ node_set (GetNumberOfNodes facade).
Proof.
  intros Hall. revert h. unfold insert_anchors.
  induction Hall as [|a anchors Ha _ IH]; intros h Heq Hsub; cbn; [done|].
  apply IH; cbn; rewrite dom_insert_L.
  - by rewrite Heq.
  - apply elem_of_node_set in Ha. set_solver.
Qed.

(** A heap that holds the anchors of a phantom node and nothing else has
    room for as many pops as the graph has nodes. *)
Lemma seeded_heap_wf facade anchors :
  anchors_wf facade anchors ->
  heap_wf facade (insert_anchors empty_heap anchors)
  /\ search_room facade (insert_anchors empty_heap anchors)
     = N.to_nat (GetNumberOfNodes facade).
Proof.
  intros Hall.
  destruct (insert_anchors_fresh facade anchors empty_heap Hall) as [Heq Hsub].
  { cbn. by rewrite dom_empty_L. }
  { cbn. rewrite dom_empty_L. set_solver. }
  split; [split; [by rewrite Heq | done]|].
  unfold search_room. rewrite Heq, <- size_union_alt, <- size_node_set.
  f_equal. set_solver.
Qed.

Lemma initial_tables_sized n : tables_sized n (initial_tables n).
Proof. unfold tables_sized, initial_tables; cbn. by rewrite !length_replicate. Qed.

Lemma initial_tables_unreachable n cell :
  (cell < n)%nat -> cell_unreachable (initial_tables n) cell.
Proof.
  intros Hlt. unfold cell_unreachable, cell_content, initial_tables; cbn.
  by rewrite !lookup_replicate_2.
Qed.

Lemma tables_sized_0 tables : tables_sized 0 tables -> durations_table tables = [].
Proof. intros (_ & Hd & _). by apply nil_length_inv. Qed.

Section Driver.

Variable stallAtNode : bool -> DataFacade -> NodeID -> EdgeWeight -> QueryHeap -> bool.

Lemma backward_searches_Done fuel facade phantom_nodes target_indices column_idx bs :
  facade_wf facade -> edges_positive REVERSE_DIRECTION facade ->
  Forall (phantom_wf facade) phantom_nodes ->
  Forall (fun i => (i < length phantom_nodes)%nat) target_indices ->
  (N.to_nat (GetNumberOfNodes facade) <= fuel)%nat ->
  exists bs',
    backward_searches stallAtNode fuel facade phantom_nodes target_indices column_idx bs
    = Done bs'.
Proof.
  intros Hf Hpos Hph Hidx Hfuel. revert column_idx bs.
  induction Hidx as [|index rest Hi _ IH]; intros column_idx bs; cbn; [eauto|].
  destruct (lookup_lt_is_Some_2 phantom_nodes index Hi) as [phantom Hphantom].
  rewrite (at_index_Done _ _ _ Hphantom). cbn.
  assert (Hwf : phantom_wf facade phantom).
  { rewrite Forall_lookup in Hph. by eapply Hph. }
  destruct (seeded_heap_wf facade (target_anchors phantom)) as [Hheap Hroom];
    [apply Hwf|].
  destruct (backward_sweep_Done stallAtNode facade column_idx fuel
              (insertTargetInHeap empty_heap phantom) bs Hf Hpos Hheap)
    as (h' & bs' & -> & _ & _).
  { unfold insertTargetInHeap. lia. }
  cbn. apply IH.
Qed.

(** Without target columns the bucket list is empty and every row search
    runs through. *)
Lemma forward_searches_no_targets fuel facade phantom_nodes source_indices row_idx tables :
  facade_wf facade -> edges_positive FORWARD_DIRECTION facade ->
  Forall (phantom_wf facade) phantom_nodes ->
  Forall (fun i => (i < length phantom_nodes)%nat) source_indices ->
  (N.to_nat (GetNumberOfNodes facade) <= fuel)%nat ->
  tables_sized 0 tables ->
  exists tables',
    forward_searches stallAtNode fuel facade phantom_nodes source_indices row_idx
      0%N [] tables = Done tables'
    /\ tables_sized 0 tables'.
Proof.
  intros Hf Hpos Hph Hidx Hfuel. revert row_idx tables.
  induction Hidx as [|index rest Hi _ IH]; intros row_idx tables Hsz; cbn; [eauto|].
  destruct (lookup_lt_is_Some_2 phantom_nodes index Hi) as [phantom Hphantom].
  rewrite (at_index_Done _ _ _ Hphantom). cbn.
  assert (Hwf : phantom_wf facade phantom).
  { rewrite Forall_lookup in Hph. by eapply Hph. }
  destruct (seeded_heap_wf facade (source_anchors phantom)) as [Hheap Hroom];
    [apply Hwf|].
  destruct (forward_sweep_Done stallAtNode facade row_idx (wrap_uint32 0) [] 0 fuel
              (insertSourceInHeap empty_heap phantom) tables Hf Hpos)
    as (h' & tables' & -> & _ & Hsz' & _); [done | done | | done |].
  { unfold insertSourceInHeap. lia. }
  cbn. by apply IH.
Qed.

(** C8.  On a finite graph whose traversed edges have positive weight, with
    phantom nodes anchored at nodes of the graph and index lists that point
    into the phantom list, a query whose source list or target list is
    empty runs through, given one step of fuel per node for every search,
    and returns the empty durations matrix. *)
Theorem empty_index_list_gives_empty_matrix
    (fuel : nat) (facade : DataFacade) (phantom_nodes : list PhantomNode)
    (source_indices target_indices : list nat) :
  facade_wf facade ->
  edges_positive FORWARD_DIRECTION facade ->
  edges_positive REVERSE_DIRECTION facade ->
  Forall (phantom_wf facade) phantom_nodes ->
  Forall (fun i => (i < length phantom_nodes)%nat) source_indices ->
  Forall (fun i => (i < length phantom_nodes)%nat) target_indices ->
  (N.to_nat (GetNumberOfNodes facade) <= fuel)%nat ->
  source_indices = [] \/ target_indices = [] ->
  manyToManySearch stallAtNode fuel facade phantom_nodes source_indices target_indices
  = Done [].
Proof.
  intros Hf Hfwd Hrev Hph Hsrc Htgt Hfuel Hempty.
  unfold manyToManySearch, manyToManySearch_tables.
  destruct Hempty as [->| ->].
  - destruct (backward_searches_Done fuel facade phantom_nodes target_indices 0%N []
                Hf Hrev Hph Htgt Hfuel) as [bs ->].
    done.
  - cbn [backward_searches]. cbv [mbind outcome_bind].
    change (sort_buckets []) with (@nil NodeBucket).
    rewrite Nat.mul_0_r. cbn [length]. change (N.of_nat 0) with 0%N.
    destruct (forward_searches_no_targets fuel facade phantom_nodes source_indices 0%N
                (initial_tables 0) Hf Hfwd Hph Hsrc Hfuel (initial_tables_sized 0))
      as (tables' & -> & Hsz).
    by rewrite (tables_sized_0 _ Hsz).
Qed.

(** X17.  A row's settle loop, run on a finite graph with positive edge
    weights, enough fuel and tables that hold every addressed cell, ends
    with the heap empty and leaves a cell as it was whenever every bucket
    entry of a settled node that addresses the cell is discarded by the
    negative-weight rule, in particular when no settled node has an entry
    for it: a cell that held the three sentinels, as every cell does
    initially, still holds them. *)
Theorem unreachable_cell_keeps_sentinels
    (facade : DataFacade) (row_idx number_of_targets : N) (bs : list NodeBucket)
    (L fuel : nat) (h : QueryHeap) (tables : Tables) (cell : nat) :
  facade_wf facade -> edges_positive FORWARD_DIRECTION facade ->
  Forall (fun b => (cell_index row_idx number_of_targets (column_index b) < L)%nat) bs ->
  heap_wf facade h -> (search_room facade h <= fuel)%nat ->
  tables_sized L tables ->
  (forall node w d b, settles stallAtNode facade h node w d ->
     b ∈ node_buckets bs node ->
     cell_index row_idx number_of_targets (column_index b) = cell ->
     discarded facade node w b) ->
  exists h' tables',
    forward_sweep stallAtNode fuel facade row_idx number_of_targets h bs tables
      = Done (h', tables')
    /\ Empty h' = true
    /\ cell_content tables' cell = cell_content tables cell
    /\ (cell_unreachable tables cell -> cell_unreachable tables' cell)
    /\ ((cell < L)%nat -> cell_unreachable (initial_tables L) cell).
Proof.
  intros Hf Hpos Hcells Hwf Hroom Hsz Hdisc.
  destruct (forward_sweep_Done stallAtNode facade row_idx number_of_targets bs L fuel
              h tables Hf Hpos Hcells Hwf Hroom Hsz)
    as (h' & tables' & Hsweep & Hempty & _ & Hcell).
  exists h', tables'. split; [done|]. split; [done|].
  pose proof (Hcell cell Hdisc) as Hsame.
  split; [done|]. split; [|apply initial_tables_unreachable].
  unfold cell_unreachable. by rewrite Hsame.
Qed.

End Driver.

(** ** The walk along a closed parent chain *)

Lemma head_filter_Some {A} (P : A -> Prop) `{!forall x, Decision (P x)} (l : list A) x :
  head (filter P l) = Some x ->
  exists i, l !! i = Some x /\ P x
    /\ forall j y, (j < i)%nat -> l !! j = Some y -> ~ P y.
Proof.
  induction l as [|a l IH]; [done|].
  rewrite filter_cons. destruct (decide (P a)) as [Ha|Ha].
  - intros [= ->]. exists 0%nat. split; [done|]. split; [done|]. lia.
  - intros Hx. destruct (IH Hx) as (i & Hi & HP & Hbefore).
    exists (S i). split; [done|]. split; [done|].
    intros [|j] y Hj Hy; cbn in Hy; [by simplify_eq|].
    eapply Hbefore; [|done]. lia.
Qed.

Lemma bucket_entry_key bs n c b :
  bucket_entry bs n c = Some b -> middle_node b = n /\ column_index b = c.
Proof.
  intros Hb. apply head_filter_Some in Hb as (i & _ & HP & _). done.
Qed.

(** On a sorted list the search with [ColumnCompare] finds the first entry
    of the node in the column. *)
Lemma column_lower_bound_entry bs n c b :
  buckets_sorted bs -> bucket_entry bs n c = Some b ->
  bs !! column_lower_bound bs n c = Some b.
Proof.
  intros Hs Hb. apply head_filter_Some in Hb as (i & Hi & [Hn Hc] & Hbefore).
  unfold column_lower_bound, equal_range; cbn.
  rewrite (lower_bound_first (fun b => ColumnCompare_bucket_node c b n) bs
             (partitioned_ColumnCompare_lower bs n c Hs) i b); [done | done | |].
  - n_compare.
  - intros j y Hj Hy.
    pose proof (buckets_sorted_lookup bs j i y b Hs ltac:(lia) Hy Hi) as Hle.
    pose proof (Hbefore j y Hj Hy) as Hnot.
    destruct (ColumnCompare_bucket_node c y n) eqn:Hcmp; [done|].
    exfalso. apply Hnot. n_compare.
Qed.

Lemma follow_parents_unfold fuel c bs first path :
  follow_parents fuel c bs first path
  = current ← at_index bs first;
    if negb (parent_node current =? middle_node current)%N
       && negb (first =? length bs)%nat
    then
      match fuel with
      | O => OutOfFuel
      | S fuel' =>
          follow_parents fuel' c bs
            (column_lower_bound bs (parent_node current) c)
            (path ++ [parent_node current])
      end
    else Done path.
Proof. by destruct fuel. Qed.

Lemma follow_parents_chain bs c n rest fuel path :
  buckets_sorted bs -> parent_chain bs c n rest -> (length rest <= fuel)%nat ->
  follow_parents fuel c bs (column_lower_bound bs n c) path = Done (path ++ rest).
Proof.
  intros Hs Hchain. revert fuel path.
  induction Hchain as [n b Hb Hroot|n b rest Hb Hstep Hchain IH]; intros fuel path Hfuel.
  - pose proof (column_lower_bound_entry bs n c b Hs Hb) as Hat.
    apply bucket_entry_key in Hb as [Hn _].
    assert (Heq : (parent_node b =? middle_node b)%N = true) by (apply N.eqb_eq; congruence).
    rewrite follow_parents_unfold, (at_index_Done _ _ _ Hat).
    cbv [mbind outcome_bind]. rewrite Heq. cbn. by rewrite app_nil_r.
  - pose proof (column_lower_bound_entry bs n c b Hs Hb) as Hat.
    apply bucket_entry_key in Hb as [Hn _].
    assert (Hne : (parent_node b =? middle_node b)%N = false) by (apply N.eqb_neq; congruence).
    assert (Hin : (column_lower_bound bs n c =? length bs)%nat = false).
    { apply Nat.eqb_neq. apply lookup_lt_Some in Hat. lia. }
    destruct fuel as [|fuel]; cbn in Hfuel; [lia|].
    rewrite follow_parents_unfold, (at_index_Done _ _ _ Hat).
    cbv [mbind outcome_bind]. rewrite Hne, Hin. cbn [negb andb].
    rewrite IH by lia. by rewrite <- app_assoc.
Qed.

(** Where every parent met has an entry in the column, up to a
    self-referential root, the walk returns the middle node followed by
    the parents in the order in which they are met. *)
Lemma retrievePackedPathFromSearchSpace_chain bs c m rest fuel :
  buckets_sorted bs -> parent_chain bs c m rest -> (length rest <= fuel)%nat ->
  retrievePackedPathFromSearchSpace fuel m c bs = Done (m :: rest).
Proof.
  intros Hs Hchain Hfuel.
  assert (Hentry : exists b, bucket_entry bs m c = Some b) by (inversion Hchain; eauto).
  destruct Hentry as [b Hb].
  pose proof (column_lower_bound_entry bs m c b Hs Hb) as Hat.
  apply bucket_entry_key in Hb as [Hm _].
  unfold retrievePackedPathFromSearchSpace. rewrite (at_index_Done _ _ _ Hat).
  cbv [mbind outcome_bind].
  rewrite (follow_parents_chain bs c m rest fuel _ Hs Hchain Hfuel). by rewrite Hm.
Qed.

(** A query for the sentinel in a list of proper nodes reads at the end
    position, whatever the order of the list. *)
Lemma sentinel_query_out_of_bounds bs c fuel :
  Forall (fun b => (middle_node b < SPECIAL_NODEID)%N) bs ->
  column_lower_bound bs SPECIAL_NODEID c = length bs
  /\ retrievePackedPathFromSearchSpace fuel SPECIAL_NODEID c bs = OutOfBounds.
Proof.
  intros Hall. rewrite Forall_lookup in Hall.
  assert (Hbelow : forall i x, bs !! i = Some x ->
            ColumnCompare_bucket_node c x SPECIAL_NODEID = true).
  { intros i x Hx. pose proof (Hall i x Hx). n_compare. }
  assert (Hend : column_lower_bound bs SPECIAL_NODEID c = length bs).
  { unfold column_lower_bound, equal_range; cbn. apply lower_bound_end; [|done].
    intros i j x y _ Hx _ _. by eapply Hbelow. }
  split; [done|].
  unfold retrievePackedPathFromSearchSpace, at_index. rewrite Hend.
  by rewrite lookup_ge_None_2.
Qed.
(** ** The bucket list the backward searches build *)

Lemma parent_chain_spec_walk bs c n rest :
  parent_chain bs c n rest -> spec_walk bs c n rest.
Proof.
  induction 1 as [n b Hb Hroot|n b rest Hb Hstep _ IH].
  - eapply spec_walk_root; [done|]. apply bucket_entry_key in Hb as [? _]. congruence.
  - eapply spec_walk_step; [done | | done].
    apply bucket_entry_key in Hb as [? _]. congruence.
Qed.

(** With unique keys the entry of a node in a column is the only one. *)
Lemma bucket_entry_unique bs b :
  keys_unique bs -> b ∈ bs ->
  bucket_entry bs (middle_node b) (column_index b) = Some b.
Proof.
  unfold keys_unique, bucket_entry. induction bs as [|a bs IH]; intros Hnd Hb.
  - by apply elem_of_nil in Hb.
  - rewrite fmap_cons in Hnd. apply NoDup_cons in Hnd as [Ha Hnd].
    rewrite filter_cons. apply elem_of_cons in Hb as [-> | Hb].
    + by rewrite decide_True.
    + rewrite decide_False; [by apply IH|].
      intros [Hm Hc]. apply Ha. apply list_elem_of_fmap. exists b. split; [|done].
      unfold bucket_key. congruence.
Qed.

Lemma keys_unique_perm bs s : s ≡ₚ bs -> keys_unique bs -> keys_unique s.
Proof. unfold keys_unique. by intros ->. Qed.

(** Every entry of a list with unique keys whose parents come earlier
    starts a closed chain, in any permutation of the list. *)
Lemma entries_rooted bs s :
  keys_unique bs -> parents_earlier bs -> s ≡ₚ bs ->
  forall i b, bs !! i = Some b ->
    exists rest, parent_chain s (column_index b) (middle_node b) rest.
Proof.
  intros Hkeys Hparents Hperm i.
  induction i as [i IH] using lt_wf_ind. intros b Hb.
  assert (Hentry : bucket_entry s (middle_node b) (column_index b) = Some b).
  { apply bucket_entry_unique; [by eapply keys_unique_perm|].
    rewrite Hperm. by eapply list_elem_of_lookup_2. }
  destruct (decide (parent_node b = middle_node b)) as [Hroot|Hstep].
  - exists []. by eapply parent_chain_root.
  - destruct (Hparents i b Hb) as [?|(j & b' & Hj & Hb' & Hkey)]; [done|].
    destruct (IH j Hj b' Hb') as [rest Hrest].
    injection Hkey as Hm Hc. rewrite Hm, Hc in Hrest.
    exists (parent_node b :: rest). by eapply parent_chain_step.
Qed.

Section BackwardInvariant.

Variable stallAtNode : bool -> DataFacade -> NodeID -> EdgeWeight -> QueryHeap -> bool.

Lemma relax_edge_inv c DIRECTION node w d h e h2 bs :
  sweep_inv c h bs ->
  (exists b, b ∈ bs /\ bucket_key b = (node, c)) ->
  relax_edge DIRECTION node w d h e = Done h2 ->
  sweep_inv c h2 bs.
Proof.
  intros (Hq & Hkeys & Hpar & Hcol & Hdata) Hnode. rewrite relax_edge_cases.
  destruct (if DIRECTION then _ else _); [|by intros [= <-]].
  destruct (BOOST_ASSERT _); cbn; try done.
  destruct (inserted_nodes h !! EdgeData.target e) as [x|] eqn:Hto.
  - destruct (tie_lt _ _ _ _); intros [= <-]; [|done].
    unfold sweep_inv, DecreaseKey, SetData; cbn. rewrite !dom_alter_L.
    split; [done|]. split; [done|]. split; [done|]. split; [done|].
    intros y ey Hy.
    destruct (decide (y = EdgeData.target e)) as [->|Hne].
    + rewrite !lookup_alter_eq, Hto in Hy. cbn in Hy. injection Hy as <-. by right.
    + rewrite !lookup_alter_ne in Hy by done. by eapply Hdata.
  - intros [= <-]. apply not_elem_of_dom in Hto.
    unfold sweep_inv, Insert; cbn. rewrite dom_insert_L.
    split; [clear -Hq; set_solver|]. split; [done|]. split; [done|]. split.
    + intros b Hb. destruct (Hcol b Hb) as [Hle Hc]. split; [done|].
      intros Heq. destruct (Hc Heq) as [Hd Hnq]. split.
      * apply elem_of_union. by right.
      * intros [Hin|Hin]%elem_of_union; [|done].
        apply elem_of_singleton in Hin. apply Hto. by rewrite <- Hin.
    + intros y ey Hy.
      destruct (decide (y = EdgeData.target e)) as [->|Hne].
      * rewrite lookup_insert_eq in Hy. injection Hy as <-. by right.
      * rewrite lookup_insert_ne in Hy by done. by eapply Hdata.
Qed.

Lemma relax_edges_inv c DIRECTION node w d h edges h2 bs :
  sweep_inv c h bs ->
  (exists b, b ∈ bs /\ bucket_key b = (node, c)) ->
  relax_edges DIRECTION node w d h edges = Done h2 ->
  sweep_inv c h2 bs.
Proof.
  intros Hinv Hnode. revert h Hinv.
  induction edges as [|e edges IH]; intros h Hinv; cbn; [by intros [= <-]|].
  destruct (relax_edge DIRECTION node w d h e) as [h1| | |] eqn:Hedge; cbn; try done.
  apply IH. by eapply relax_edge_inv.
Qed.

Lemma backwardRoutingStep_inv facade c h bs h' bs' :
  sweep_inv c h bs ->
  backwardRoutingStep stallAtNode facade c h bs = Done (h', bs') ->
  sweep_inv c h' bs'.
Proof.
  intros (Hq & Hkeys & Hpar & Hcol & Hdata). unfold backwardRoutingStep.
  destruct (DeleteMin h) as [[node h1]| | |] eqn:Hpop; cbn; try done.
  apply DeleteMin_inv in Hpop as [Hnode ->]. unfold GetKey, GetData; cbn.
  destruct (inserted_nodes h !! node) as [e|] eqn:He; cbn; [|done].
  set (b0 := mkNodeBucket node (HeapData.parent (data e)) c (key e)
               (HeapData.duration (data e))).
  assert (Hinv1 : sweep_inv c (mkQueryHeap (inserted_nodes h) (heap h ∖ {[node]}))
                    (bs ++ [b0])).
  { unfold sweep_inv; cbn. split; [clear -Hq; set_solver|]. split; [|split; [|split]].
    - unfold keys_unique. rewrite fmap_app. apply NoDup_app.
      split; [done|]. split; [|apply NoDup_singleton].
      intros k Hk Hk'. apply list_elem_of_singleton in Hk' as ->.
      apply list_elem_of_fmap in Hk as (b & Hkey & Hb).
      injection Hkey as Hm Hc. destruct (Hcol b Hb) as [_ Hpopped].
      destruct (Hpopped (eq_sym Hc)) as [_ Hnq]. apply Hnq. by rewrite <- Hm.
    - intros i b Hb. apply lookup_app_Some in Hb as [Hb|[Hi Hb]].
      + destruct (Hpar i b Hb) as [?|(j & b' & Hj & Hb' & Hkey)]; [by left|].
        right. exists j, b'. split; [done|]. split; [|done].
        by apply lookup_app_l_Some.
      + apply list_lookup_singleton_Some in Hb as [_ <-]. cbn.
        destruct (Hdata node e He) as [?|(b' & Hb' & Hkey)]; [by left|].
        right. apply list_elem_of_lookup in Hb' as [j Hj].
        exists j, b'. split; [apply lookup_lt_Some in Hj; lia|].
        split; [by apply lookup_app_l_Some | done].
    - intros b Hb. apply elem_of_app in Hb as [Hb|Hb].
      + destruct (Hcol b Hb) as [Hle Hc]. split; [done|].
        intros Heq. destruct (Hc Heq) as [Hd Hnq]. clear -Hd Hnq. set_solver.
      + apply list_elem_of_singleton in Hb as ->. cbn. split; [lia|].
        intros _. clear -Hq Hnode. set_solver.
    - intros x ex Hx. destruct (Hdata x ex Hx) as [?|(b & Hb & Hkey)]; [by left|].
      right. exists b. split; [|done]. apply elem_of_app. by left. }
  unfold relaxOutgoingEdges.
  destruct (stallAtNode _ _ _ _ _); cbn.
  { by intros [= <- <-]. }
  destruct (relax_edges _ _ _ _ _ _) as [h2| | |] eqn:Hrelax; cbn; try done.
  intros [= <- <-]. eapply relax_edges_inv; [exact Hinv1 | | exact Hrelax].
  exists b0. split; [|done]. apply elem_of_app. right. by apply list_elem_of_singleton.
Qed.

Lemma backward_sweep_inv facade c fuel h bs h' bs' :
  sweep_inv c h bs ->
  backward_sweep stallAtNode fuel facade c h bs = Done (h', bs') ->
  sweep_inv c h' bs'.
Proof.
  revert h bs. induction fuel as [|fuel IH]; intros h bs Hinv; cbn.
  - destruct (Empty h); [by intros [= <- <-] | done].
  - destruct (Empty h); [by intros [= <- <-]|].
    destruct (backwardRoutingStep _ _ _ _ _) as [[h1 bs1]| | |] eqn:Hstep; cbn; try done.
    apply IH. by eapply backwardRoutingStep_inv.
Qed.

Lemma insert_anchors_seeds h anchors :
  heap h ⊆ dom (inserted_nodes h) ->
  (forall x e, inserted_nodes h !! x = Some e -> HeapData.parent (data e) = x) ->
  heap (insert_anchors h anchors) ⊆ dom (inserted_nodes (insert_anchors h anchors))
  /\ (forall x e, inserted_nodes (insert_anchors h anchors) !! x = Some e ->
        HeapData.parent (data e) = x).
Proof.
  revert h. unfold insert_anchors.
  induction anchors as [|a anchors IH]; intros h Hq Hself; cbn; [done|].
  apply IH; cbn.
  - rewrite dom_insert_L. clear -Hq. set_solver.
  - intros x e Hx. destruct (decide (x = anchor_node a)) as [->|Hne].
    + rewrite lookup_insert_eq in Hx. by injection Hx as <-.
    + rewrite lookup_insert_ne in Hx by done. by eapply Hself.
Qed.

(** The bucket list of the backward searches: one entry per node and
    column, the parent of an entry being the node itself or a node whose
    entry for the column was appended before. *)
Lemma backward_searches_closed fuel facade phantom_nodes target_indices column_idx bs bs' :
  keys_unique bs -> parents_earlier bs ->
  (forall b, b ∈ bs -> (column_index b < column_idx)%N) ->
  backward_searches stallAtNode fuel facade phantom_nodes target_indices column_idx bs
    = Done bs' ->
  keys_unique bs' /\ parents_earlier bs'.
Proof.
  revert column_idx bs.
  induction target_indices as [|index rest IH]; intros column_idx bs Hkeys Hpar Hcol; cbn.
  - by intros [= <-].
  - destruct (at_index phantom_nodes index) as [phantom| | |]; cbn; try done.
    destruct (backward_sweep _ _ _ _ _ _) as [[h1 bs1]| | |] eqn:Hsweep; cbn; try done.
    assert (Hinv : sweep_inv column_idx (insertTargetInHeap empty_heap phantom) bs).
    { destruct (insert_anchors_seeds empty_heap (target_anchors phantom)) as [Hq Hself].
      { cbn. set_solver. }
      { intros x e Hx. cbn in Hx. by rewrite lookup_empty in Hx. }
      split; [done|]. split; [done|]. split; [done|]. split.
      - intros b Hb. pose proof (Hcol b Hb). split; [lia|]. lia.
      - intros x e Hx. left. by eapply Hself. }
    pose proof (backward_sweep_inv _ _ _ _ _ _ _ Hinv Hsweep)
      as (_ & Hkeys1 & Hpar1 & Hcol1 & _).
    apply IH; [done | done |].
    intros b Hb. destruct (Hcol1 b Hb) as [Hle _]. lia.
Qed.

End BackwardInvariant.

Lemma spec_walk_functional bs c n rest1 rest2 :
  spec_walk bs c n rest1 -> spec_walk bs c n rest2 -> rest1 = rest2.
Proof.
  intros H1. revert rest2.
  induction H1 as [n b Hb Hroot|n Hnone|n b rest Hb Hstep _ IH]; intros rest2 H2;
    inversion H2 as [n' b' Hb' Hroot'|n' Hnone'|n' b' rest' Hb' Hstep' Hrest']; subst;
    try congruence.
  assert (b' = b) as -> by congruence. f_equal. by apply IH.
Qed.

(** A merge records as middle node of a cell only the node whose entries
    it merges, and only through an entry that addresses the cell. *)
Lemma merge_bucket_records facade row_idx number_of_targets node sw sd tables b tables' cell :
  merge_bucket facade row_idx number_of_targets node sw sd tables b = Done tables' ->
  middle_nodes_table tables' !! cell = middle_nodes_table tables !! cell
  \/ (middle_nodes_table tables' !! cell = Some node
      /\ cell_index row_idx number_of_targets (column_index b) = cell).
Proof.
  unfold merge_bucket, at_index.
  destruct (weights_table tables !! _) as [cw|]; cbn; [|done].
  destruct (durations_table tables !! _) as [cd|]; cbn; [|done].
  set (idx := cell_index row_idx number_of_targets (column_index b)).
  assert (Hstores : forall w d,
    (weights ← store (weights_table tables) idx w;
     durations ← store (durations_table tables) idx d;
     middle_nodes ← store (middle_nodes_table tables) idx node;
     Done (mkTables weights durations middle_nodes)) = Done tables' ->
    middle_nodes_table tables' !! cell = middle_nodes_table tables !! cell
    \/ (middle_nodes_table tables' !! cell = Some node /\ idx = cell)).
  { intros w d.
    destruct (store_outcome (weights_table tables) idx w) as [->|[ws ->]]; [done|].
    destruct (store_outcome (durations_table tables) idx d) as [->|[ds ->]]; [done|].
    unfold store at 1. destruct (Nat.ltb_spec idx (length (middle_nodes_table tables)));
      cbn; [|done].
    intros [= <-]. cbn. destruct (decide (idx = cell)) as [<-|Hne].
    - right. by rewrite list_lookup_insert_eq.
    - left. by rewrite list_lookup_insert_ne. }
  destruct (Z.ltb_spec (add32 sw (weight b)) 0) as [Hneg|Hpos].
  - rewrite (addLoopWeight_cases _ _ _ _ Hneg). case_decide; cbn.
    + apply Hstores.
    + intros [= <-]. by left.
  - destruct (tie_lt _ _ _ _); [apply Hstores|]. intros [= <-]. by left.
Qed.

Lemma merge_buckets_records facade row_idx number_of_targets node sw sd tables bl tables' cell :
  merge_buckets facade row_idx number_of_targets node sw sd tables bl = Done tables' ->
  middle_nodes_table tables' !! cell = middle_nodes_table tables !! cell
  \/ (middle_nodes_table tables' !! cell = Some node
      /\ exists b, b ∈ bl /\ cell_index row_idx number_of_targets (column_index b) = cell).
Proof.
  revert tables. induction bl as [|b bl IH]; intros tables; cbn.
  - intros [= <-]. by left.
  - destruct (merge_bucket facade row_idx number_of_targets node sw sd tables b)
      as [tables1| | |] eqn:Hb; cbn; try done.
    intros Hrest. destruct (IH _ Hrest) as [Hsame|(Hnode & b' & Hb' & Hcell)].
    + rewrite Hsame.
      destruct (merge_bucket_records _ _ _ _ _ _ _ _ _ cell Hb) as [?|[Hnode Hcell]];
        [by left | right].
      split; [done|]. exists b. split; [left | done].
    + right. split; [done|]. exists b'. split; [by right | done].
Qed.

Section PackedPath.

Variable stallAtNode : bool -> DataFacade -> NodeID -> EdgeWeight -> QueryHeap -> bool.

(** X16.  Let [bs] be the bucket list the backward searches built and [s]
    a rearrangement of [bs] in the order of node and column, an order the
    sort by node may or may not leave.  For a node that has an entry in [s]
    for a column, the walk of the spec from the node (start at
    its entry, follow [parent_node] from entry to entry within the column,
    stop at an entry that is its own parent or where no entry exists) is
    determined, every parent it meets has its entry, so that it ends at a
    self-referential root, and given one step of fuel per followed parent
    [retrievePackedPathFromSearchSpace] returns the node followed by the
    parents in the order of the walk. *)
Theorem packed_path_follows_parents
    (fuel : nat) (facade : DataFacade) (phantom_nodes : list PhantomNode)
    (target_indices : list nat) (bs s : list NodeBucket) (b : NodeBucket) :
  backward_searches stallAtNode fuel facade phantom_nodes target_indices 0%N [] = Done bs ->
  s ≡ₚ bs -> buckets_sorted s ->
  b ∈ s ->
  exists rest,
    spec_walk s (column_index b) (middle_node b) rest
    /\ parent_chain s (column_index b) (middle_node b) rest
    /\ (forall rest', spec_walk s (column_index b) (middle_node b) rest' -> rest' = rest)
    /\ (forall path_fuel, (length rest <= path_fuel)%nat ->
          retrievePackedPathFromSearchSpace path_fuel (middle_node b) (column_index b) s
          = Done (middle_node b :: rest)).
Proof.
  intros Hback Hperm Hsorted Hb.
  assert (H0keys : keys_unique []) by apply NoDup_nil_2.
  assert (H0par : parents_earlier []).
  { intros i x Hx. by rewrite lookup_nil in Hx. }
  assert (H0col : forall x : NodeBucket, x ∈ [] -> (column_index x < 0)%N).
  { intros x Hx. by apply elem_of_nil in Hx. }
  destruct (backward_searches_closed stallAtNode fuel facade phantom_nodes
              target_indices 0%N [] bs H0keys H0par H0col Hback) as [Hkeys Hpar].
  rewrite Hperm in Hb. apply list_elem_of_lookup in Hb as [i Hi].
  destruct (entries_rooted bs s Hkeys Hpar Hperm i b Hi) as [rest Hchain].
  pose proof (parent_chain_spec_walk _ _ _ _ Hchain) as Hwalk.
  exists rest. split; [done|]. split; [done|]. split.
  - intros rest' Hwalk'. by eapply spec_walk_functional.
  - intros path_fuel Hfuel. by apply retrievePackedPathFromSearchSpace_chain.
Qed.

End PackedPath.

(** ** Path reconstruction on the list the sort leaves *)


(** C4, the code at the failing input.  The path query for the sentinel
    fails no assertion.  On every list of proper nodes the search of the
    bucket list answers the end position for the sentinel and the first
    read is made there, outside the list; and no outcome of the loop over
    the columns is a failed assertion.  On the path 0 - 1 - 2 the pair
    (source 2, target 0) is unreachable: the settle loop of the row leaves
    the sentinel in its middle-node cell, the loop over the columns makes
    the path query for it, and the query, and with it the whole call,
    ends in the read outside the bucket list. *)
Theorem sentinel_path_query_reads_past_the_end :
  (forall fuel c bs,
     Forall (fun b => (middle_node b < SPECIAL_NODEID)%N) bs ->
     retrievePackedPathFromSearchSpace fuel SPECIAL_NODEID c bs = OutOfBounds)
  /\ (forall fuel query_heap bs tables row_idx number_of_targets columns,
        retrieve_paths fuel query_heap bs tables row_idx number_of_targets columns
          <> AssertionFailed)
  /\ (exists query_heap tables,
        forward_sweep never_stall 3 path_facade 0%N 1%N
          (insertSourceInHeap empty_heap (phantom_at 2%N))
          [mkNodeBucket 0%N 0%N 0%N 0 0] (initial_tables 1) = Done (query_heap, tables)
        /\ middle_nodes_table tables = [SPECIAL_NODEID]
        /\ retrieve_paths 3 query_heap [mkNodeBucket 0%N 0%N 0%N 0 0] tables
             0%N 1%N (columns_upto 1) = OutOfBounds)
  /\ manyToManySearch never_stall 3 path_facade path_phantoms [2%nat] [0%nat]
     = OutOfBounds.
Proof.
  split; [intros fuel c bs Hbs; by apply sentinel_query_out_of_bounds|].
  split; [apply retrieve_paths_not_asserted|].
  split; [|vm_compute; reflexivity].
  eexists _, _. split; [vm_compute; reflexivity|].
  split; [reflexivity | vm_compute; reflexivity].
Qed.

(** * Further properties of the routines *)

(** ** The self-loop correction *)

(** X1.  [addLoopWeight] checks its assertion exactly when the weight it is
    given is not negative.  For a negative weight it answers true only
    with a corrected weight between 0 and the largest 32-bit value, and
    when it answers false the weight and the duration come back as they
    were given. *)
Theorem addLoopWeight_result
    (facade : DataFacade) (node : NodeID) (w : EdgeWeight) (d : EdgeDuration) :
  (0 <= w -> addLoopWeight facade node w d = AssertionFailed)
  /\ (w < 0 ->
      exists corrected w' d',
        addLoopWeight facade node w d = Done (corrected, w', d')
        /\ (corrected = true -> 0 <= w' <= 2147483647)
        /\ (corrected = false -> w' = w /\ d' = d)).
Proof.
  split.
  - intros Hw. unfold addLoopWeight, BOOST_ASSERT.
    by destruct (Z.ltb_spec w 0); [lia|].
  - intros Hw. rewrite (addLoopWeight_cases facade node w d Hw).
    case_decide as Hok.
    + eexists _, _, _. split; [done|]. split; [|done]. intros _.
      pose proof (wrap_int32_range (w + self_loop_weight facade node)) as Hr.
      unfold add32 in *. unfold int32_range in Hr. lia.
    + eexists _, _, _. split; [done|]. split; [done|]. done.
Qed.

(** ** Edge relaxation *)

Lemma tie_lt_trans a b c d e f :
  tie_lt a b c d = true -> tie_lt c d e f = true -> tie_lt a b e f = true.
Proof. unfold tie_lt. lia. Qed.

(** What one edge does to the heap. *)
Lemma relax_edge_effect DIRECTION node w d h edge h2 :
  relax_edge DIRECTION node w d h edge = Done h2 ->
  h2 = h
  \/ ((if DIRECTION then EdgeData.forward edge else EdgeData.backward edge) = true
      /\ 0 < EdgeData.weight edge
      /\ inserted_nodes h2
         = <[EdgeData.target edge :=
               mkHeapNode (add32 w (EdgeData.weight edge))
                 (HeapData.mk node (add32 d (EdgeData.duration edge)))]> (inserted_nodes h)
      /\ ((inserted_nodes h !! EdgeData.target edge = None
           /\ heap h2 = {[EdgeData.target edge]} ∪ heap h)
          \/ (exists e, inserted_nodes h !! EdgeData.target edge = Some e
              /\ tie_lt (add32 w (EdgeData.weight edge)) (add32 d (EdgeData.duration edge))
                   (key e) (HeapData.duration (data e)) = true
              /\ heap h2 = heap h))).
Proof.
  rewrite relax_edge_cases. unfold BOOST_ASSERT.
  destruct (if DIRECTION then _ else _); [|intros [= <-]; by left].
  destruct (Z.ltb_spec 0 (EdgeData.weight edge)) as [Hpos|]; cbn; [|done].
  destruct (inserted_nodes h !! EdgeData.target edge) as [e|] eqn:Hto.
  - destruct (tie_lt _ _ _ _) eqn:Hlt; intros [= <-]; [right | by left].
    split; [done|]. split; [done|]. split.
    + unfold DecreaseKey, SetData; cbn. apply map_eq. intros x.
      unfold NodeID in *.
      destruct (decide (x = EdgeData.target edge)) as [->|Hne].
      * by rewrite !lookup_alter_eq, Hto, lookup_insert_eq.
      * by rewrite !lookup_alter_ne, lookup_insert_ne.
    + right. exists e. done.
  - intros [= <-]. right. split; [done|]. split; [done|]. split; [done|]. by left.
Qed.

Section RelaxationEffects.

Variable stallAtNode : bool -> DataFacade -> NodeID -> EdgeWeight -> QueryHeap -> bool.

Lemma relax_edges_failed (DIRECTION : bool) node w d h edges :
  relax_edges DIRECTION node w d h edges = AssertionFailed
  <-> exists edge, edge ∈ edges
        /\ (if DIRECTION then EdgeData.forward edge else EdgeData.backward edge) = true
        /\ EdgeData.weight edge <= 0.
Proof.
  revert h. induction edges as [|e edges IH]; intros h; cbn.
  - split; [done|]. intros (edge & Hin & _). by apply elem_of_nil in Hin.
  - destruct (relax_edge_outcome DIRECTION node w d h e) as [[h1 He]|(He & Hu & Hw)];
      rewrite He; cbn.
    + rewrite IH. split.
      * intros (edge & Hin & Hrest). exists edge. split; [by right | done].
      * intros (edge & Hin & Hu & Hw). apply elem_of_cons in Hin as [-> | Hin].
        -- exfalso. revert He. rewrite relax_edge_cases, Hu. unfold BOOST_ASSERT.
           by destruct (Z.ltb_spec 0 (EdgeData.weight e)); [lia|].
        -- by exists edge.
    + split; [|done]. intros _. exists e. split; [by left | done].
Qed.

(** X2.  [relaxOutgoingEdges] ends in a failed assertion exactly when the
    node is not stalled and one of its adjacent edges is usable in the
    active direction with a weight that is not positive; in every other
    case it returns a heap.  A stalled node checks no edge, and an edge
    whose flag for the direction is unset is not checked either. *)
Theorem relaxOutgoingEdges_assertion
    (DIRECTION : bool) (facade : DataFacade) (node : NodeID)
    (w : EdgeWeight) (d : EdgeDuration) (h : QueryHeap) :
  (relaxOutgoingEdges stallAtNode DIRECTION facade node w d h = AssertionFailed
   <-> stallAtNode DIRECTION facade node w h = false
       /\ exists edge, edge ∈ GetAdjacentEdgeRange facade node
            /\ (if DIRECTION then EdgeData.forward edge else EdgeData.backward edge) = true
            /\ EdgeData.weight edge <= 0)
  /\ (relaxOutgoingEdges stallAtNode DIRECTION facade node w d h = AssertionFailed
      \/ exists h', relaxOutgoingEdges stallAtNode DIRECTION facade node w d h = Done h').
Proof.
  split.
  - unfold relaxOutgoingEdges. destruct (stallAtNode _ _ _ _ _).
    + split; [done | by intros [? _]].
    + rewrite relax_edges_failed. split; [by intros ? | by intros [_ ?]].
  - destruct (relaxOutgoingEdges_outcome stallAtNode DIRECTION facade node w d h)
      as [?|?]; [by right | by left].
Qed.

(** The loop over the edges: the queue grows by targets never inserted
    before, an inserted node keeps or lowers its recorded pair, and every
    entry is an old one or the candidate of a usable edge. *)
Lemma relax_edges_effect DIRECTION node w d h edges h' :
  relax_edges DIRECTION node w d h edges = Done h' ->
  heap h ⊆ heap h'
  /\ (forall x, x ∈ heap h' -> x ∈ heap h \/ inserted_nodes h !! x = None)
  /\ (forall x e, inserted_nodes h !! x = Some e ->
        exists e', inserted_nodes h' !! x = Some e'
          /\ (e' = e
              \/ tie_lt (key e') (HeapData.duration (data e'))
                   (key e) (HeapData.duration (data e)) = true))
  /\ (forall x e', inserted_nodes h' !! x = Some e' ->
        inserted_nodes h !! x = Some e'
        \/ exists edge, edge ∈ edges
             /\ (if DIRECTION then EdgeData.forward edge else EdgeData.backward edge) = true
             /\ 0 < EdgeData.weight edge
             /\ EdgeData.target edge = x
             /\ e' = mkHeapNode (add32 w (EdgeData.weight edge))
                       (HeapData.mk node (add32 d (EdgeData.duration edge)))).
Proof.
  revert h. induction edges as [|edge edges IH]; intros h; cbn.
  - intros [= <-]. split; [done|]. split; [by left|]. split; [by eauto|]. by left.
  - destruct (relax_edge DIRECTION node w d h edge) as [h1| | |] eqn:Hedge; cbn; try done.
    intros Hrest. destruct (IH h1 Hrest) as (Hq & Hnew & Hlow & Hfrom).
    apply relax_edge_effect in Hedge as [->|(Hu & Hpos & Hins & Hcase)].
    all: unfold NodeID in *.
    { split; [done|]. split; [done|]. split; [done|].
      intros x e' Hx. destruct (Hfrom x e' Hx) as [?|(e0 & Hin & ?)]; [by left|].
      right. exists e0. split; [by right | done]. }
    assert (Hq1 : heap h ⊆ heap h1).
    { destruct Hcase as [[_ ->]|(e & _ & _ & ->)]; [|done].
      intros y Hy. apply elem_of_union. by right. }
    split; [by etrans|]. split; [|split].
    + intros x Hx. destruct (Hnew x Hx) as [Hx1|Hx1].
      * destruct Hcase as [[Hnone Hh1]|(e & _ & _ & Hh1)]; rewrite Hh1 in Hx1.
        -- apply elem_of_union in Hx1 as [Hx1|Hx1]; [|by left].
           apply elem_of_singleton in Hx1 as ->. by right.
        -- by left.
      * right. rewrite Hins in Hx1.
        destruct (decide (x = EdgeData.target edge)) as [->|Hne].
        -- by rewrite lookup_insert_eq in Hx1.
        -- by rewrite lookup_insert_ne in Hx1.
    + intros x e Hx.
      destruct (decide (x = EdgeData.target edge)) as [->|Hne].
      * destruct Hcase as [[Hnone _]|(e0 & He0 & Hlt & _)]; [congruence|].
        assert (e0 = e) as -> by congruence.
        destruct (Hlow (EdgeData.target edge) _ ltac:(rewrite Hins; apply lookup_insert_eq))
          as (e' & He' & [->|Hlt']).
        -- eexists. split; [done|]. by right.
        -- exists e'. split; [done|]. right. cbn in Hlt'. by eapply tie_lt_trans.
      * apply Hlow. rewrite Hins. by rewrite lookup_insert_ne.
    + intros x e' Hx. destruct (Hfrom x e' Hx) as [Hx1|(e0 & Hin & ?)].
      * rewrite Hins in Hx1. destruct (decide (x = EdgeData.target edge)) as [->|Hne].
        -- rewrite lookup_insert_eq in Hx1. injection Hx1 as <-.
           right. exists edge. split; [by left | done].
        -- rewrite lookup_insert_ne in Hx1 by done. by left.
      * right. exists e0. split; [by right | done].
Qed.

(** X3.  [relaxOutgoingEdges] only lowers recorded costs.  Every node that
    was inserted before the call is still inserted after it, with the same
    entry or with a (key, duration) pair that is lexicographically
    smaller; no node leaves the queue, and a node enters the queue only if
    it had never been inserted. *)
Theorem relaxOutgoingEdges_only_lowers
    (DIRECTION : bool) (facade : DataFacade) (node : NodeID)
    (w : EdgeWeight) (d : EdgeDuration) (h h' : QueryHeap) :
  relaxOutgoingEdges stallAtNode DIRECTION facade node w d h = Done h' ->
  heap h ⊆ heap h'
  /\ (forall x, x ∈ heap h' -> x ∈ heap h \/ WasInserted h x = false)
  /\ (forall x e, inserted_nodes h !! x = Some e ->
        exists e', inserted_nodes h' !! x = Some e'
          /\ (e' = e
              \/ tie_lt (key e') (HeapData.duration (data e'))
                   (key e) (HeapData.duration (data e)) = true)).
Proof.
  unfold relaxOutgoingEdges. destruct (stallAtNode _ _ _ _ _).
  - intros [= <-]. split; [done|]. split; [by left|]. eauto.
  - intros Hrelax. apply relax_edges_effect in Hrelax as (Hq & Hnew & Hlow & _).
    split; [done|]. split; [|done].
    intros x Hx. destruct (Hnew x Hx) as [?|?]; [by left|].
    right. by apply WasInserted_false.
Qed.

(** X4.  After [relaxOutgoingEdges] every entry of the heap is an entry
    that was there before or the candidate of an adjacent edge of the
    expanded node: the edge is usable in the active direction, leads to
    the entry's node, and the entry holds the node's weight plus the edge
    weight as key, the expanded node as parent and the node's duration
    plus the edge duration as duration. *)
Theorem relaxOutgoingEdges_entries_from_edges
    (DIRECTION : bool) (facade : DataFacade) (node : NodeID)
    (w : EdgeWeight) (d : EdgeDuration) (h h' : QueryHeap) :
  relaxOutgoingEdges stallAtNode DIRECTION facade node w d h = Done h' ->
  forall x e', inserted_nodes h' !! x = Some e' ->
    inserted_nodes h !! x = Some e'
    \/ exists edge, edge ∈ GetAdjacentEdgeRange facade node
         /\ (if DIRECTION then EdgeData.forward edge else EdgeData.backward edge) = true
         /\ EdgeData.target edge = x
         /\ key e' = add32 w (EdgeData.weight edge)
         /\ HeapData.parent (data e') = node
         /\ HeapData.duration (data e') = add32 d (EdgeData.duration edge).
Proof.
  unfold relaxOutgoingEdges. destruct (stallAtNode _ _ _ _ _).
  - intros [= <-] x e' Hx. by left.
  - intros Hrelax x e' Hx.
    apply relax_edges_effect in Hrelax as (_ & _ & _ & Hfrom).
    destruct (Hfrom x e' Hx) as [?|(edge & Hin & Hu & _ & Ht & ->)]; [by left|].
    right. exists edge. done.
Qed.

End RelaxationEffects.

(** ** The matrix along the forward searches *)

Lemma store_inv {A} (v : list A) i x v' :
  store v i x = Done v' -> (i < length v)%nat /\ v' = <[i:=x]> v.
Proof.
  unfold store. destruct (Nat.ltb_spec i (length v)); [|done]. by intros [= <-].
Qed.

(** What the merge of one entry does to the tables. *)
Lemma merge_bucket_effect facade row_idx number_of_targets node sw sd t b t' :
  merge_bucket facade row_idx number_of_targets node sw sd t b = Done t' ->
  let idx := cell_index row_idx number_of_targets (column_index b) in
  t' = t
  \/ exists cw w d,
       weights_table t !! idx = Some cw
       /\ (idx < length (weights_table t))%nat
       /\ (idx < length (durations_table t))%nat
       /\ (idx < length (middle_nodes_table t))%nat
       /\ t' = mkTables (<[idx := w]> (weights_table t))
                        (<[idx := d]> (durations_table t))
                        (<[idx := node]> (middle_nodes_table t))
       /\ w <= cw /\ (0 <= cw -> 0 <= w).
Proof.
  intros Hmerge idx. revert Hmerge. unfold merge_bucket, at_index. fold idx.
  destruct (weights_table t !! idx) as [cw|] eqn:Hcw; cbn; [|done].
  destruct (durations_table t !! idx) as [cd|] eqn:Hcd; cbn; [|done].
  assert (Hstores : forall w d,
    w <= cw -> (0 <= cw -> 0 <= w) ->
    (weights ← store (weights_table t) idx w;
     durations ← store (durations_table t) idx d;
     middle_nodes ← store (middle_nodes_table t) idx node;
     Done (mkTables weights durations middle_nodes)) = Done t' ->
    t' = t
    \/ exists cw0 w0 d0,
         Some cw = Some cw0
         /\ (idx < length (weights_table t))%nat
         /\ (idx < length (durations_table t))%nat
         /\ (idx < length (middle_nodes_table t))%nat
         /\ t' = mkTables (<[idx := w0]> (weights_table t))
                          (<[idx := d0]> (durations_table t))
                          (<[idx := node]> (middle_nodes_table t))
         /\ w0 <= cw0 /\ (0 <= cw0 -> 0 <= w0)).
  { intros w d Hle Hpos.
    destruct (store (weights_table t) idx w) as [ws| | |] eqn:Hws; cbn; try done.
    destruct (store (durations_table t) idx d) as [ds| | |] eqn:Hds; cbn; try done.
    destruct (store (middle_nodes_table t) idx node) as [ms| | |] eqn:Hms; cbn; try done.
    apply store_inv in Hws as [? ->]. apply store_inv in Hds as [? ->].
    apply store_inv in Hms as [? ->]. intros [= <-].
    right. exists cw, w, d. repeat (split; [done|]). done. }
  destruct (Z.ltb_spec (add32 sw (weight b)) 0) as [Hneg|Hpos].
  - rewrite (addLoopWeight_cases _ _ _ _ Hneg). case_decide as Hok; cbn.
    + apply Hstores; lia.
    + intros [= <-]. by left.
  - destruct (tie_lt _ _ _ _) eqn:Hlt; [|intros [= <-]; by left].
    apply tie_lt_spec in Hlt. apply Hstores; lia.
Qed.

Lemma tables_lowered_refl t : tables_lowered t t.
Proof. repeat split. intros cell w Hw. exists w. split; [done|]. lia. Qed.

Lemma tables_lowered_trans t1 t2 t3 :
  tables_lowered t1 t2 -> tables_lowered t2 t3 -> tables_lowered t1 t3.
Proof.
  intros (Hw1 & Hd1 & Hm1 & Hc1) (Hw2 & Hd2 & Hm2 & Hc2).
  split; [congruence|]. split; [congruence|]. split; [congruence|].
  intros cell w Hw. destruct (Hc1 cell w Hw) as (w1 & Hcell1 & Hle1 & Hpos1).
  destruct (Hc2 cell w1 Hcell1) as (w2 & Hcell2 & Hle2 & Hpos2).
  exists w2. split; [done|]. split; [lia|]. auto.
Qed.

Lemma merge_bucket_lowered facade row_idx number_of_targets node sw sd t b t' :
  merge_bucket facade row_idx number_of_targets node sw sd t b = Done t' ->
  tables_lowered t t'.
Proof.
  intros Hmerge.
  apply merge_bucket_effect in Hmerge
    as [->|(cw & w & d & Hcw & Hlw & Hld & Hlm & -> & Hle & Hpos)];
    [apply tables_lowered_refl|].
  unfold tables_lowered; cbn. rewrite !length_insert.
  repeat (split; [done|]). intros cell w0 Hw0.
  destruct (decide (cell_index row_idx number_of_targets (column_index b) = cell))
    as [<-|Hne].
  - rewrite list_lookup_insert_eq by done. exists w.
    assert (w0 = cw) as -> by congruence. done.
  - rewrite list_lookup_insert_ne by done. exists w0. split; [done|]. lia.
Qed.

Lemma merge_buckets_lowered facade row_idx number_of_targets node sw sd t bl t' :
  merge_buckets facade row_idx number_of_targets node sw sd t bl = Done t' ->
  tables_lowered t t'.
Proof.
  revert t. induction bl as [|b bl IH]; intros t; cbn.
  - intros [= <-]. apply tables_lowered_refl.
  - destruct (merge_bucket facade row_idx number_of_targets node sw sd t b)
      as [t1| | |] eqn:Hb; cbn; try done.
    intros Hrest. eapply tables_lowered_trans; [by eapply merge_bucket_lowered | by apply IH].
Qed.

(** A cell changes only through an entry that addresses it, and the node
    whose entries are merged is then its middle node. *)
Lemma merge_buckets_cells facade row_idx number_of_targets node sw sd t bl t' cell :
  merge_buckets facade row_idx number_of_targets node sw sd t bl = Done t' ->
  cell_content t' cell = cell_content t cell
  \/ (middle_nodes_table t' !! cell = Some node
      /\ exists b, b ∈ bl /\ cell_index row_idx number_of_targets (column_index b) = cell).
Proof.
  revert t. induction bl as [|b bl IH]; intros t; cbn.
  - intros [= <-]. by left.
  - destruct (merge_bucket facade row_idx number_of_targets node sw sd t b)
      as [t1| | |] eqn:Hb; cbn; try done.
    intros Hrest. destruct (IH _ Hrest) as [Hsame|(Hnode & b' & Hb' & Hcell)].
    + rewrite Hsame.
      apply merge_bucket_effect in Hb
        as [->|(cw & w & d & _ & _ & _ & Hlm & -> & _)]; [by left|].
      destruct (decide (cell_index row_idx number_of_targets (column_index b) = cell))
        as [Heq|Hne].
      * right. split.
        -- unfold cell_content in Hsame. injection Hsame as _ _ Hm.
           rewrite Hm. cbn. rewrite <- Heq. by rewrite list_lookup_insert_eq.
        -- exists b. split; [left | done].
      * left. by apply cell_content_insert_ne.
    + right. split; [done|]. exists b'. split; [by right | done].
Qed.

Section TablesAlongSearches.

Variable stallAtNode : bool -> DataFacade -> NodeID -> EdgeWeight -> QueryHeap -> bool.

Lemma forwardRoutingStep_inv facade row_idx number_of_targets h bs t h' t' :
  forwardRoutingStep stallAtNode facade row_idx number_of_targets h bs t = Done (h', t') ->
  exists node h1 e,
    DeleteMin h = Done (node, h1)
    /\ inserted_nodes h1 !! node = Some e
    /\ merge_buckets facade row_idx number_of_targets node (key e)
         (HeapData.duration (data e)) t (node_buckets bs node) = Done t'
    /\ relaxOutgoingEdges stallAtNode FORWARD_DIRECTION facade node (key e)
         (HeapData.duration (data e)) h1 = Done h'.
Proof.
  unfold forwardRoutingStep.
  destruct (DeleteMin h) as [[node h1]| | |] eqn:Hpop; cbn; try done.
  unfold GetKey, GetData.
  destruct (inserted_nodes h1 !! node) as [e|] eqn:He; cbn; [|done].
  destruct (merge_buckets _ _ _ _ _ _ _ _) as [t1| | |] eqn:Hmerge; cbn; try done.
  destruct (relaxOutgoingEdges _ _ _ _ _ _ _) as [h2| | |] eqn:Hrelax; cbn; try done.
  intros [= <- <-]. by exists node, h1, e.
Qed.

Lemma forward_sweep_lowered fuel facade row_idx number_of_targets h bs t h' t' :
  forward_sweep stallAtNode fuel facade row_idx number_of_targets h bs t = Done (h', t') ->
  Empty h' = true /\ tables_lowered t t'.
Proof.
  revert h t. induction fuel as [|fuel IH]; intros h t; cbn.
  - destruct (Empty h) eqn:He; [|done]. intros [= <- <-].
    split; [done | apply tables_lowered_refl].
  - destruct (Empty h) eqn:He.
    { intros [= <- <-]. split; [done | apply tables_lowered_refl]. }
    destruct (forwardRoutingStep _ _ _ _ _ _ _) as [[h1 t1]| | |] eqn:Hstep; cbn; try done.
    intros Hrest. destruct (IH _ _ Hrest) as [Hempty Hlow]. split; [done|].
    apply forwardRoutingStep_inv in Hstep as (node & h0 & e & _ & _ & Hmerge & _).
    eapply tables_lowered_trans; [by eapply merge_buckets_lowered | done].
Qed.

Lemma forward_sweep_cells fuel facade row_idx number_of_targets h bs t h' t' cell :
  forward_sweep stallAtNode fuel facade row_idx number_of_targets h bs t = Done (h', t') ->
  cell_content t' cell = cell_content t cell
  \/ exists node w d b,
       settles stallAtNode facade h node w d
       /\ b ∈ node_buckets bs node
       /\ cell_index row_idx number_of_targets (column_index b) = cell
       /\ middle_nodes_table t' !! cell = Some node.
Proof.
  revert h t. induction fuel as [|fuel IH]; intros h t; cbn.
  - destruct (Empty h); [|done]. intros [= <- <-]. by left.
  - destruct (Empty h); [intros [= <- <-]; by left|].
    destruct (forwardRoutingStep _ _ _ _ _ _ _) as [[h1 t1]| | |] eqn:Hstep; cbn; try done.
    intros Hrest.
    apply forwardRoutingStep_inv in Hstep as (node & h0 & e & Hpop & He & Hmerge & Hrelax).
    destruct (IH _ _ Hrest) as [Hsame|(n & w & d & b & Hset & Hb & Hcell & Hm)].
    + rewrite Hsame.
      destruct (merge_buckets_cells _ _ _ _ _ _ _ _ _ cell Hmerge)
        as [?|(Hnode & b & Hb & Hcell)]; [by left | right].
      exists node, (key e), (HeapData.duration (data e)), b.
      split; [by eapply settles_now|]. split; [done|]. split; [done|].
      unfold cell_content in Hsame. injection Hsame as _ _ Hm. by rewrite Hm.
    + right. exists n, w, d, b. split; [by eapply settles_later | done].
Qed.

(** X5.  A row's settle loop that runs through leaves the heap empty, keeps
    the sizes of the three tables and never raises a weight: every weight
    cell holds at most what it held before. *)
Theorem forward_sweep_never_raises_weights
    (fuel : nat) (facade : DataFacade) (row_idx number_of_targets : N)
    (h h' : QueryHeap) (bs : list NodeBucket) (t t' : Tables) :
  forward_sweep stallAtNode fuel facade row_idx number_of_targets h bs t = Done (h', t') ->
  Empty h' = true
  /\ length (weights_table t') = length (weights_table t)
  /\ length (durations_table t') = length (durations_table t)
  /\ length (middle_nodes_table t') = length (middle_nodes_table t)
  /\ (forall cell w, weights_table t !! cell = Some w ->
        exists w', weights_table t' !! cell = Some w' /\ w' <= w).
Proof.
  intros Hsweep. apply forward_sweep_lowered in Hsweep as (He & Hw & Hd & Hm & Hcells).
  repeat (split; [done|]). intros cell w Hcell.
  destruct (Hcells cell w Hcell) as (w' & ? & ? & _). eauto.
Qed.

(** X6.  In the tables of a row's settle loop that runs through, a middle
    node that was not there before is a node the loop settled, recorded
    through one of the node's bucket entries that addresses the cell. *)
Theorem recorded_middle_node_was_settled
    (fuel : nat) (facade : DataFacade) (row_idx number_of_targets : N)
    (h h' : QueryHeap) (bs : list NodeBucket) (t t' : Tables) (cell : nat) (m : NodeID) :
  forward_sweep stallAtNode fuel facade row_idx number_of_targets h bs t = Done (h', t') ->
  middle_nodes_table t' !! cell = Some m ->
  middle_nodes_table t !! cell = Some m
  \/ exists w d b,
       settles stallAtNode facade h m w d
       /\ b ∈ node_buckets bs m
       /\ cell_index row_idx number_of_targets (column_index b) = cell.
Proof.
  intros Hsweep Hm.
  destruct (forward_sweep_cells _ _ _ _ _ _ _ _ _ cell Hsweep)
    as [Hsame|(n & w & d & b & Hset & Hb & Hcell & Hn)].
  - left. unfold cell_content in Hsame. injection Hsame as _ _ Hsame. by rewrite <- Hsame.
  - right. assert (n = m) as -> by congruence. by exists w, d, b.
Qed.

(** X7.  The settle loop of a row writes its own matrix row only.  When
    every bucket entry carries a column index below the number of targets
    and the row's cells have indices that fit 32 bits, a loop that runs
    through leaves every cell outside the row, in all three tables, as it
    was. *)
Theorem forward_sweep_writes_own_row
    (fuel : nat) (facade : DataFacade) (row_idx number_of_targets : N)
    (h h' : QueryHeap) (bs : list NodeBucket) (t t' : Tables) (cell : nat) :
  forward_sweep stallAtNode fuel facade row_idx number_of_targets h bs t = Done (h', t') ->
  Forall (fun b => (column_index b < number_of_targets)%N) bs ->
  (row_idx * number_of_targets + number_of_targets <= 4294967296)%N ->
  (cell < N.to_nat (row_idx * number_of_targets)
   \/ N.to_nat (row_idx * number_of_targets + number_of_targets) <= cell)%nat ->
  cell_content t' cell = cell_content t cell.
Proof.
  intros Hsweep Hcols Hfit Hout.
  destruct (forward_sweep_cells _ _ _ _ _ _ _ _ _ cell Hsweep)
    as [?|(n & w & d & b & _ & Hb & Hcell & _)]; [done|].
  exfalso. apply node_buckets_subseteq in Hb.
  rewrite Forall_forall in Hcols. pose proof (Hcols b Hb) as Hcol.
  unfold cell_index, wrap_uint32 in Hcell.
  rewrite N.mod_small in Hcell by lia. lia.
Qed.



End TablesAlongSearches.

(** ** The bucket list along the backward searches *)

Section BucketsAlongSearches.

Variable stallAtNode : bool -> DataFacade -> NodeID -> EdgeWeight -> QueryHeap -> bool.

Lemma backwardRoutingStep_inv_step facade c h bs h' bs' :
  backwardRoutingStep stallAtNode facade c h bs = Done (h', bs') ->
  exists node h1 e,
    DeleteMin h = Done (node, h1)
    /\ inserted_nodes h1 !! node = Some e
    /\ bs' = bs ++ [mkNodeBucket node (HeapData.parent (data e)) c (key e)
                      (HeapData.duration (data e))]
    /\ relaxOutgoingEdges stallAtNode REVERSE_DIRECTION facade node (key e)
         (HeapData.duration (data e)) h1 = Done h'.
Proof.
  unfold backwardRoutingStep.
  destruct (DeleteMin h) as [[node h1]| | |] eqn:Hpop; cbn; try done.
  unfold GetKey, GetData.
  destruct (inserted_nodes h1 !! node) as [e|] eqn:He; cbn; [|done].
  destruct (relaxOutgoingEdges _ _ _ _ _ _ _) as [h2| | |] eqn:Hrelax; cbn; try done.
  intros [= <- <-]. by exists node, h1, e.
Qed.

Lemma relaxOutgoingEdges_queue facade DIRECTION node w d h h' :
  relaxOutgoingEdges stallAtNode DIRECTION facade node w d h = Done h' ->
  heap h ⊆ heap h'.
Proof.
  unfold relaxOutgoingEdges. destruct (stallAtNode _ _ _ _ _); [by intros [= <-]|].
  intros Hrelax. by apply relax_edges_effect in Hrelax as (? & _).
Qed.

(** The backward loop: the list grows at its end by entries of the column,
    and every node that was queued has got its entry when the loop ends. *)
Lemma backward_sweep_appends fuel facade c h bs h' bs' :
  backward_sweep stallAtNode fuel facade c h bs = Done (h', bs') ->
  Empty h' = true
  /\ exists new,
       bs' = bs ++ new
       /\ Forall (fun b => column_index b = c) new
       /\ forall x, x ∈ heap h -> exists b, b ∈ new /\ middle_node b = x.
Proof.
  revert h bs. induction fuel as [|fuel IH]; intros h bs; cbn.
  - destruct (Empty h) eqn:He; [|done]. intros [= <- <-]. split; [done|].
    exists []. rewrite app_nil_r. split; [done|]. split; [done|].
    intros x Hx. apply Empty_true in He. rewrite He in Hx. by apply elem_of_empty in Hx.
  - destruct (Empty h) eqn:He.
    { intros [= <- <-]. split; [done|].
      exists []. rewrite app_nil_r. split; [done|]. split; [done|].
      intros x Hx. apply Empty_true in He. rewrite He in Hx. by apply elem_of_empty in Hx. }
    destruct (backwardRoutingStep _ _ _ _ _) as [[h1 bs1]| | |] eqn:Hstep; cbn; try done.
    intros Hrest.
    apply backwardRoutingStep_inv_step in Hstep as (node & h0 & e & Hpop & _ & -> & Hrelax).
    apply DeleteMin_inv in Hpop as [Hnode ->].
    apply relaxOutgoingEdges_queue in Hrelax. cbn in Hrelax.
    destruct (IH _ _ Hrest) as (Hempty & new & -> & Hcols & Hall). split; [done|].
    eexists (_ :: new). rewrite <- app_assoc. split; [done|].
    split; [by constructor|].
    intros x Hx. destruct (decide (x = node)) as [->|Hne].
    + eexists. split; [left | done].
    + destruct (Hall x) as (b & Hb & Hm).
      { apply Hrelax. apply elem_of_difference. split; [done|].
        by intros ?%elem_of_singleton. }
      exists b. split; [by right | done].
Qed.

(** X9.  A backward settle loop that runs through leaves the heap empty
    and only appends to the bucket list: the entries it was given stay in
    front, in their order, every new entry carries the loop's column
    index, and every node that was queued when the loop started, the
    anchors of the target among them, has an entry among the new ones. *)
Theorem backward_sweep_appends_column_entries
    (fuel : nat) (facade : DataFacade) (column_idx : N) (phantom : PhantomNode)
    (bs bs' : list NodeBucket) (h' : QueryHeap) :
  backward_sweep stallAtNode fuel facade column_idx
    (insertTargetInHeap empty_heap phantom) bs = Done (h', bs') ->
  Empty h' = true
  /\ exists new,
       bs' = bs ++ new
       /\ Forall (fun b => column_index b = column_idx) new
       /\ Forall (fun a => exists b, b ∈ new /\ middle_node b = anchor_node a)
            (target_anchors phantom).
Proof.
  intros Hsweep.
  apply backward_sweep_appends in Hsweep as (Hempty & new & -> & Hcols & Hall).
  split; [done|]. exists new. split; [done|]. split; [done|].
  apply Forall_forall. intros a Ha. apply Hall.
  unfold insertTargetInHeap, insert_anchors.
  assert (Hgen : forall h0, anchor_node a ∈ heap h0 \/ a ∈ target_anchors phantom ->
            anchor_node a ∈ heap (foldl (fun h a =>
              Insert h (anchor_node a) (anchor_weight a)
                (HeapData.mk (anchor_node a) (anchor_duration a))) h0
              (target_anchors phantom))).
  { clear. induction (target_anchors phantom) as [|a0 l IH]; intros h0 [Hin|Hin]; cbn.
    - done.
    - by apply elem_of_nil in Hin.
    - apply IH. left. cbn. apply elem_of_union. by right.
    - apply IH. apply elem_of_cons in Hin as [-> | Hin]; [left | by right].
      cbn. apply elem_of_union. left. by apply elem_of_singleton. }
  apply Hgen. by right.
Qed.

Lemma backward_searches_columns fuel facade phantom_nodes target_indices column_idx bs bs' :
  (forall b, b ∈ bs -> (column_index b < column_idx)%N) ->
  backward_searches stallAtNode fuel facade phantom_nodes target_indices column_idx bs
    = Done bs' ->
  forall b, b ∈ bs' ->
    (column_index b < column_idx + N.of_nat (length target_indices))%N.
Proof.
  revert column_idx bs.
  induction target_indices as [|index rest IH]; intros column_idx bs Hcol; cbn.
  - intros [= <-] b Hb. pose proof (Hcol b Hb). lia.
  - destruct (at_index phantom_nodes index) as [phantom| | |]; cbn; try done.
    destruct (backward_sweep _ _ _ _ _ _) as [[h1 bs1]| | |] eqn:Hsweep; cbn; try done.
    intros Hrest b Hb.
    apply backward_sweep_appends in Hsweep as (_ & new & -> & Hcols & _).
    assert (Hcol' : forall b0, b0 ∈ bs ++ new -> (column_index b0 < column_idx + 1)%N).
    { intros b0 Hb0. apply elem_of_app in Hb0 as [Hb0|Hb0].
      - pose proof (Hcol b0 Hb0). lia.
      - rewrite Forall_forall in Hcols. rewrite (Hcols b0 Hb0). lia. }
    pose proof (IH (column_idx + 1)%N (bs ++ new) Hcol' Hrest b Hb) as Hlt.
    lia.
Qed.

(** X10.  When the backward searches have run through, the bucket list
    holds at most one entry for a node and a column, every column index is
    below the number of targets, and the parent of an entry is the entry's
    own node or a node whose entry for the same column was appended
    before. *)
Theorem backward_searches_bucket_list
    (fuel : nat) (facade : DataFacade) (phantom_nodes : list PhantomNode)
    (target_indices : list nat) (bs : list NodeBucket) :
  backward_searches stallAtNode fuel facade phantom_nodes target_indices 0%N [] = Done bs ->
  NoDup ((fun b => (middle_node b, column_index b)) <$> bs)
  /\ Forall (fun b => (column_index b < N.of_nat (length target_indices))%N) bs
  /\ (forall i b, bs !! i = Some b ->
        parent_node b = middle_node b
        \/ exists j b', (j < i)%nat /\ bs !! j = Some b'
             /\ middle_node b' = parent_node b /\ column_index b' = column_index b).
Proof.
  intros Hback.
  assert (H0keys : keys_unique []) by apply NoDup_nil_2.
  assert (H0par : parents_earlier []).
  { intros i x Hx. by rewrite lookup_nil in Hx. }
  assert (H0col : forall x : NodeBucket, x ∈ [] -> (column_index x < 0)%N).
  { intros x Hx. by apply elem_of_nil in Hx. }
  destruct (backward_searches_closed stallAtNode fuel facade phantom_nodes
              target_indices 0%N [] bs H0keys H0par H0col Hback) as [Hkeys Hpar].
  split; [exact Hkeys|]. split.
  - apply Forall_forall. intros b Hb.
    by apply (backward_searches_columns _ _ _ _ _ _ _ H0col Hback b Hb).
  - intros i b Hb. destruct (Hpar i b Hb) as [?|(j & b' & Hj & Hb' & Hkey)]; [by left|].
    right. exists j, b'. injection Hkey as Hm Hc. done.
Qed.

End BucketsAlongSearches.

(** ** The walk through the bucket list, whatever the list *)

Lemma follow_parents_extends fuel c bs first path path' :
  follow_parents fuel c bs first path = Done path' ->
  exists rest, path' = path ++ rest.
Proof.
  revert first path. induction fuel as [|fuel IH]; intros first path;
    rewrite follow_parents_unfold;
    destruct (at_index bs first) as [cur| | |]; cbv [mbind outcome_bind]; try done.
  - destruct (_ && _); [done|]. intros [= <-]. exists []. by rewrite app_nil_r.
  - destruct (_ && _).
    + intros Hrest. apply IH in Hrest as [rest ->].
      eexists. by rewrite <- app_assoc.
    + intros [= <-]. exists []. by rewrite app_nil_r.
Qed.

(** X11.  The walk through the bucket list does not notice that the node
    it is asked for has no entry in the column.  On a sorted list it then
    starts at the first entry whose key (node, column) is greater: when
    there is none it reads at the end position of the list, and otherwise
    the path it returns starts with the node of that other entry. *)
Theorem path_walk_without_entry
    (fuel : nat) (bs : list NodeBucket) (m : NodeID) (c : N) :
  buckets_sorted bs ->
  bucket_entry bs m c = None ->
  (Forall (fun b => key_lt (middle_node b) (column_index b) m c = true) bs ->
     retrievePackedPathFromSearchSpace fuel m c bs = OutOfBounds)
  /\ (forall path, retrievePackedPathFromSearchSpace fuel m c bs = Done path ->
        exists b, b ∈ bs
          /\ key_lt m c (middle_node b) (column_index b) = true
          /\ head path = Some (middle_node b)).
Proof.
  intros Hs Hnone.
  pose proof (partitioned_ColumnCompare_lower bs m c Hs) as Hpart.
  split.
  - intros Hall. rewrite Forall_lookup in Hall.
    assert (Hend : column_lower_bound bs m c = length bs).
    { unfold column_lower_bound, equal_range; cbn. apply lower_bound_end; [done|].
      intros i x Hx. by apply (Hall i x Hx). }
    unfold retrievePackedPathFromSearchSpace, at_index. rewrite Hend.
    by rewrite lookup_ge_None_2.
  - intros path. unfold retrievePackedPathFromSearchSpace, at_index.
    destruct (bs !! column_lower_bound bs m c) as [b|] eqn:Hb; cbv [mbind outcome_bind];
      [|done].
    intros Hwalk. apply follow_parents_extends in Hwalk as [rest ->].
    exists b. split; [by eapply list_elem_of_lookup_2|]. split; [|done].
    destruct (lower_bound_spec (fun b => ColumnCompare_bucket_node c b m) bs Hpart)
      as (_ & _ & Hafter).
    pose proof (Hafter (column_lower_bound bs m c) b (Nat.le_refl _) Hb) as Hnot.
    unfold bucket_entry in Hnone. apply head_None in Hnone.
    assert (Hkey : ~ (middle_node b = m /\ column_index b = c)).
    { intros Hkey.
      assert (Hin : b ∈ filter (fun b => middle_node b = m /\ column_index b = c) bs).
      { apply list_elem_of_filter. split; [done|]. by eapply list_elem_of_lookup_2. }
      rewrite Hnone in Hin. by apply elem_of_nil in Hin. }
    unfold ColumnCompare_bucket_node in Hnot. n_compare.
Qed.

Lemma follow_parents_cycle bs c (cycle : list NodeID) :
  buckets_sorted bs ->
  Forall (fun n => from_option
            (fun b => parent_node b <> n /\ parent_node b ∈ cycle) False
            (bucket_entry bs n c)) cycle ->
  forall fuel n path, n ∈ cycle ->
    follow_parents fuel c bs (column_lower_bound bs n c) path = OutOfFuel.
Proof.
  intros Hs Hcycle. rewrite Forall_forall in Hcycle.
  induction fuel as [|fuel IH]; intros n path Hn;
    pose proof (Hcycle n Hn) as Hentry;
    destruct (bucket_entry bs n c) as [b|] eqn:Hb; cbn in Hentry; try done;
    destruct Hentry as [Hne Hin];
    pose proof (column_lower_bound_entry bs n c b Hs Hb) as Hat;
    apply bucket_entry_key in Hb as [Hm _];
    assert (Hneq : (parent_node b =? middle_node b)%N = false)
      by (apply N.eqb_neq; congruence);
    assert (Hlt : (column_lower_bound bs n c =? length bs)%nat = false)
      by (apply Nat.eqb_neq; apply lookup_lt_Some in Hat; lia);
    rewrite follow_parents_unfold, (at_index_Done _ _ _ Hat);
    cbv [mbind outcome_bind]; rewrite Hneq, Hlt; cbn [negb andb]; [done|].
  by apply IH.
Qed.

(** X12.  The walk through the bucket list has no guard against parents
    that lead round in a circle: when the node asked for belongs to a set
    of nodes each of which has an entry in the column whose parent is
    another node of the set, the loop is not left, however many rounds it
    is given. *)
Theorem path_walk_loops_on_cyclic_parents
    (fuel : nat) (bs : list NodeBucket) (c : N) (cycle : list NodeID) (m : NodeID) :
  buckets_sorted bs ->
  Forall (fun n => from_option
            (fun b => parent_node b <> n /\ parent_node b ∈ cycle) False
            (bucket_entry bs n c)) cycle ->
  m ∈ cycle ->
  retrievePackedPathFromSearchSpace fuel m c bs = OutOfFuel.
Proof.
  intros Hs Hcycle Hm.
  pose proof (follow_parents_cycle bs c cycle Hs Hcycle fuel m) as Hloop.
  rewrite Forall_forall in Hcycle. pose proof (Hcycle m Hm) as Hentry.
  destruct (bucket_entry bs m c) as [b|] eqn:Hb; cbn in Hentry; [|done].
  pose proof (column_lower_bound_entry bs m c b Hs Hb) as Hat.
  unfold retrievePackedPathFromSearchSpace. rewrite (at_index_Done _ _ _ Hat).
  cbv [mbind outcome_bind]. by apply Hloop.
Qed.

(** ** What a completed query says of the pairs *)

Section CompletedQuery.

Variable stallAtNode : bool -> DataFacade -> NodeID -> EdgeWeight -> QueryHeap -> bool.




(** The loop over the columns reads the middle node of every cell of the
    row, and the walk it starts reads at the end position of the bucket
    list when the cell still holds the sentinel. *)
Lemma retrieve_paths_cells fuel h bs t row_idx number_of_targets columns :
  Forall (fun b => (middle_node b < SPECIAL_NODEID)%N) bs ->
  retrieve_paths fuel h bs t row_idx number_of_targets columns = Done tt ->
  forall c, c ∈ columns ->
    exists m, middle_nodes_table t !! N.to_nat (row_idx * number_of_targets + c) = Some m
              /\ m <> SPECIAL_NODEID.
Proof.
  intros Hbs. induction columns as [|c0 columns IH]; cbn.
  - intros _ c Hc. by apply elem_of_nil in Hc.
  - unfold at_index at 1.
    destruct (middle_nodes_table t !! _) as [m|] eqn:Hm; cbn; [|done].
    destruct (retrievePackedPathFromSearchSpace fuel m c0 bs) as [p| | |] eqn:Hwalk;
      cbn; try done.
    destruct (retrievePackedPathFromSingleManyToManyHeap _ _ _ _) as [p'| | |];
      cbn; try done.
    intros Hrest c Hc. apply elem_of_cons in Hc as [-> | Hc]; [|by apply IH].
    exists m. split; [done|]. intros ->.
    destruct (sentinel_query_out_of_bounds bs c0 fuel Hbs) as [_ Hout]. congruence.
Qed.

(** A row whose settle loop leaves the sentinel in the middle-node cell of
    one of its columns ends the loop over the rows. *)
Lemma sentinel_cell_ends_the_searches fuel facade phantom_nodes index rest row_idx
    number_of_targets bs t phantom h1 t1 c :
  Forall (fun b => (middle_node b < SPECIAL_NODEID)%N) bs ->
  at_index phantom_nodes index = Done phantom ->
  forward_sweep stallAtNode fuel facade row_idx (wrap_uint32 number_of_targets)
    (insertSourceInHeap empty_heap phantom) bs t = Done (h1, t1) ->
  (c < number_of_targets)%N ->
  middle_nodes_table t1 !! N.to_nat (row_idx * number_of_targets + c)
    = Some SPECIAL_NODEID ->
  forall t',
    forward_searches stallAtNode fuel facade phantom_nodes (index :: rest) row_idx
      number_of_targets bs t <> Done t'.
Proof.
  intros Hbs Hat Hsweep Hc Hcell t'. cbn [forward_searches].
  rewrite Hat. cbv [mbind outcome_bind]. rewrite Hsweep.
  destruct (retrieve_paths _ _ _ _ _ _ _) as [[]| | |] eqn:Hpaths; try done.
  destruct (retrieve_paths_cells _ _ _ _ _ _ _ Hbs Hpaths c) as (m & Hm & Hne).
  { unfold columns_upto. apply list_elem_of_fmap.
    exists (N.to_nat c). split; [lia|]. apply elem_of_seq. lia. }
  unfold NodeID in *. congruence.
Qed.




End CompletedQuery.

(** C7, the code at the failing input.  On the path 0 - 1 - 2, whose edges
    are usable from the lower to the higher node, the pair (source 2,
    target 0) is unreachable.  The backward search from node 0 settles node
    0 alone, the settle loop of the row settles node 2 alone and leaves
    the three sentinels in the cell, as the claim says.  The call does not
    complete with them: the loop over the columns that follows the settle
    loop queries the path for the sentinel, and the read outside the
    bucket list ends [manyToManySearch] before its [return]. *)
Theorem unreachable_pair_ends_the_query :
  backward_searches never_stall 3 path_facade path_phantoms [0%nat] 0%N []
    = Done [mkNodeBucket 0%N 0%N 0%N 0 0]
  /\ (exists query_heap tables,
        forward_sweep never_stall 3 path_facade 0%N 1%N
          (insertSourceInHeap empty_heap (phantom_at 2%N))
          (sort_buckets [mkNodeBucket 0%N 0%N 0%N 0 0]) (initial_tables 1)
          = Done (query_heap, tables)
        /\ Empty query_heap = true
        /\ cell_unreachable tables 0
        /\ retrieve_paths 3 query_heap (sort_buckets [mkNodeBucket 0%N 0%N 0%N 0 0])
             tables 0%N 1%N (columns_upto 1) = OutOfBounds)
  /\ manyToManySearch_tables never_stall 3 path_facade path_phantoms [2%nat] [0%nat]
     = OutOfBounds
  /\ manyToManySearch never_stall 3 path_facade path_phantoms [2%nat] [0%nat]
     = OutOfBounds.
Proof.
  split; [vm_compute; reflexivity|].
  split; [|split; vm_compute; reflexivity].
  eexists _, _. split; [vm_compute; reflexivity|].
  split; [vm_compute; reflexivity|].
  split; [reflexivity | vm_compute; reflexivity].
Qed.

(** ** The walk through the heap of a forward search *)

Lemma heap_parents_unfold fuel h n path :
  heap_parents fuel h n path
  = d ← GetData h n;
    if negb (n =? HeapData.parent d)%N && WasInserted h (HeapData.parent d)
    then
      match fuel with
      | O => OutOfFuel
      | S fuel' =>
          heap_parents fuel' h (HeapData.parent d) (path ++ [HeapData.parent d])
      end
    else Done path.
Proof. by destruct fuel. Qed.

(** The loop appends the parents it passes, each one an inserted node
    recorded as the parent of the node before it, and stops at a node whose
    parent is the node itself or was never inserted. *)
Lemma heap_parents_chain fuel h n path path' :
  heap_parents fuel h n path = Done path' ->
  exists rest,
    path' = path ++ rest
    /\ (forall i x y, (n :: rest) !! i = Some x -> rest !! i = Some y ->
          y <> x /\ exists e, inserted_nodes h !! x = Some e /\ HeapData.parent (data e) = y)
    /\ exists root e,
         last (n :: rest) = Some root
         /\ inserted_nodes h !! root = Some e
         /\ (HeapData.parent (data e) = root
             \/ inserted_nodes h !! HeapData.parent (data e) = None).
Proof.
  revert n path. induction fuel as [|fuel IH]; intros n path;
    rewrite heap_parents_unfold; unfold GetData;
    destruct (inserted_nodes h !! n) as [e|] eqn:He; cbv [mbind outcome_bind]; try done;
    destruct (N.eqb_spec n (HeapData.parent (data e))) as [Heq|Hne]; cbn [negb andb].
  1, 3: intros [= <-]; exists []; rewrite app_nil_r; split; [done|];
    split; [intros i x y _ Hy; by rewrite lookup_nil in Hy|];
    exists n, e; split; [done|]; split; [done|]; by left.
  - destruct (WasInserted h _) eqn:Hins; [done|].
    intros [= <-]. exists []. rewrite app_nil_r. split; [done|].
    split; [intros i x y _ Hy; by rewrite lookup_nil in Hy|].
    exists n, e. split; [done|]. split; [done|]. right. by apply WasInserted_false.
  - destruct (WasInserted h _) eqn:Hins.
    + intros Hrest. apply IH in Hrest as (rest & -> & Hchain & root & e' & Hlast & Hroot).
      exists (HeapData.parent (data e) :: rest). rewrite <- app_assoc. split; [done|].
      split.
      * intros [|i] x y Hx Hy; cbn in Hx, Hy.
        -- injection Hx as <-. injection Hy as <-. split; [done|]. by exists e.
        -- by apply (Hchain i).
      * exists root, e'. split; [|done]. by rewrite last_cons_cons.
    + intros [= <-]. exists []. rewrite app_nil_r. split; [done|].
      split; [intros i x y _ Hy; by rewrite lookup_nil in Hy|].
      exists n, e. split; [done|]. split; [done|]. right. by apply WasInserted_false.
Qed.

(** ** The walk through the heap ends *)

Lemma filter_below_mono (l : list (N * HeapNode)) k' k :
  k' <= k ->
  (length (filter (fun p : N * HeapNode => (key p.2 < k')%Z) l)
   <= length (filter (fun p : N * HeapNode => (key p.2 < k)%Z) l))%nat.
Proof.
  intros Hk. induction l as [|q l IH]; [done|].
  rewrite !filter_cons. repeat case_decide; cbn; lia.
Qed.

Lemma filter_below_lt (l : list (N * HeapNode)) q k :
  q ∈ l -> key q.2 < k ->
  (length (filter (fun p : N * HeapNode => (key p.2 < key q.2)%Z) l)
   < length (filter (fun p : N * HeapNode => (key p.2 < k)%Z) l))%nat.
Proof.
  intros Hq Hk. induction l as [|q0 l IH]; [by apply elem_of_nil in Hq|].
  rewrite !filter_cons. apply elem_of_cons in Hq as [<- | Hq].
  - rewrite decide_False by lia. rewrite decide_True by done. cbn.
    pose proof (filter_below_mono l (key q.2) k ltac:(lia)). lia.
  - specialize (IH Hq). repeat case_decide; cbn; lia.
Qed.

Lemma keys_below_lt h p e' k :
  inserted_nodes h !! p = Some e' -> key e' < k ->
  (keys_below h (key e') < keys_below h k)%nat.
Proof.
  intros Hp Hk. unfold keys_below.
  apply (filter_below_lt _ (p, e') k); [|done].
  by apply elem_of_map_to_list.
Qed.

Lemma keys_below_bound facade h k :
  heap_wf facade h -> (keys_below h k <= N.to_nat (GetNumberOfNodes facade))%nat.
Proof.
  intros [_ Hdom]. unfold keys_below.
  etrans; [apply length_filter|].
  rewrite length_map_to_list, <- size_dom, <- size_node_set.
  by apply subseteq_size.
Qed.

(** Where the parents lead down in weight the walk returns, within one
    round per inserted node of smaller key. *)
Lemma heap_parents_returns h :
  parents_lower h ->
  forall fuel n e path,
    inserted_nodes h !! n = Some e -> (keys_below h (key e) <= fuel)%nat ->
    exists path', heap_parents fuel h n path = Done path'.
Proof.
  intros Hlow. induction fuel as [|fuel IH]; intros n e path Hn Hfuel;
    rewrite heap_parents_unfold; unfold GetData; rewrite Hn; cbv [mbind outcome_bind];
    destruct (N.eqb_spec n (HeapData.parent (data e))) as [Heq|Hne]; cbn [negb andb];
    try (by eexists);
    destruct (WasInserted h _) eqn:Hins; try (by eexists);
    destruct (Hlow n e Hn) as [Hself|(e' & Hp & Hlt)]; try congruence;
    pose proof (keys_below_lt h _ e' (key e) Hp Hlt) as Hless.
  - lia.
  - apply (IH _ e'); [done | lia].
Qed.

Lemma popped_bound facade h :
  heap_wf facade h -> (popped h <= N.to_nat (GetNumberOfNodes facade))%nat.
Proof.
  intros [_ Hdom]. unfold popped. rewrite <- size_node_set.
  apply subseteq_size. clear -Hdom. set_solver.
Qed.

Lemma popped_pop h node :
  node ∈ heap h -> heap h ⊆ dom (inserted_nodes h) ->
  (S (popped h) <= popped (mkQueryHeap (inserted_nodes h) (heap h ∖ {[node]})))%nat.
Proof.
  intros Hnode Hq. unfold popped; cbn.
  assert (Hsub : (dom (inserted_nodes h) ∖ heap h) ∪ {[node]}
                 ⊆ dom (inserted_nodes h) ∖ (heap h ∖ {[node]})).
  { intros x Hx. apply elem_of_union in Hx as [Hx|Hx].
    - apply elem_of_difference in Hx as [Hd Hh]. apply elem_of_difference.
      split; [done|]. intros Hx'. apply elem_of_difference in Hx' as [? _]. done.
    - apply elem_of_singleton in Hx as ->. apply elem_of_difference.
      split; [by apply Hq|]. intros Hx'. apply elem_of_difference in Hx' as [_ Hx'].
      apply Hx'. by apply elem_of_singleton. }
  apply subseteq_size in Hsub. rewrite size_union in Hsub.
  - rewrite size_singleton in Hsub. lia.
  - intros x Hx Hx'. apply elem_of_singleton in Hx' as ->.
    apply elem_of_difference in Hx as [_ Hx]. done.
Qed.

Lemma insert_anchors_keys h anchors x e :
  inserted_nodes (insert_anchors h anchors) !! x = Some e ->
  inserted_nodes h !! x = Some e
  \/ exists a, a ∈ anchors /\ key e = anchor_weight a.
Proof.
  revert h. unfold insert_anchors.
  induction anchors as [|a anchors IH]; intros h; cbn; [by left|].
  intros Hx. destruct (IH _ Hx) as [Hold|(a' & Ha' & Hk)].
  - cbn in Hold. destruct (decide (anchor_node a = x)) as [Heq|Hne].
    + subst x. rewrite lookup_insert_eq in Hold. injection Hold as <-.
      right. exists a. split; [left | done].
    + rewrite lookup_insert_ne in Hold by done. by left.
  - right. exists a'. split; [by right | done].
Qed.

Section HeapWalkEnds.

Variable stallAtNode : bool -> DataFacade -> NodeID -> EdgeWeight -> QueryHeap -> bool.

Lemma seeded_search_in_range facade lo hi W anchors :
  0 <= W -> anchors_within facade lo hi anchors ->
  search_in_range facade lo hi W (insert_anchors empty_heap anchors).
Proof.
  intros HW Hanchors.
  assert (Hwf : anchors_wf facade anchors).
  { eapply Forall_impl; [exact Hanchors|]. by intros a [? _]. }
  destruct (seeded_heap_wf facade anchors Hwf) as [Hheap _].
  destruct (insert_anchors_seeds empty_heap anchors) as [_ Hself].
  { cbn. apply empty_subseteq. }
  { intros x e Hx. cbn in Hx. by rewrite lookup_empty in Hx. }
  split; [done|]. split.
  - intros x e Hx. left. by apply Hself.
  - intros x e Hx. apply insert_anchors_keys in Hx as [Hx|(a & Ha & ->)].
    + cbn in Hx. by rewrite lookup_empty in Hx.
    + unfold anchors_within in Hanchors. rewrite Forall_forall in Hanchors.
      destruct (Hanchors a Ha) as [_ Hrange].
      assert (0 <= Z.of_nat (popped (insert_anchors empty_heap anchors)) * W) by lia.
      lia.
Qed.

Lemma relaxOutgoingEdges_in_range facade lo hi W node e h h' :
  facade_wf facade -> edges_at_most FORWARD_DIRECTION facade W -> 0 <= W ->
  -2147483648 <= lo ->
  hi + Z.of_N (GetNumberOfNodes facade) * W <= 2147483647 ->
  (node < GetNumberOfNodes facade)%N ->
  inserted_nodes h !! node = Some e ->
  search_in_range facade lo hi W h ->
  key e + W <= hi + Z.of_nat (popped h) * W ->
  relaxOutgoingEdges stallAtNode FORWARD_DIRECTION facade node (key e)
    (HeapData.duration (data e)) h = Done h' ->
  search_in_range facade lo hi W h'.
Proof.
  intros Hf Hedges HW Hlo Hhi Hnode He (Hwf & Hlow & Hkeys) Hroom Hrelax.
  destruct (relaxOutgoingEdges_wf stallAtNode _ facade node _ _ h h' Hf Hwf Hnode Hrelax)
    as [Hwf' _].
  revert Hrelax. unfold relaxOutgoingEdges.
  destruct (stallAtNode _ _ _ _ _); [by intros [= <-]|].
  intros Hrelax. apply relax_edges_effect in Hrelax as (Hq & Hnew & Hkept & Hfrom).
  assert (Hpopped : (popped h <= popped h')%nat).
  { unfold popped. apply subseteq_size. intros x Hx.
    apply elem_of_difference in Hx as [Hd Hh]. apply elem_of_dom in Hd as [ex Hex].
    destruct (Hkept x ex Hex) as (e' & He' & _).
    apply elem_of_difference. split; [apply elem_of_dom; by exists e'|].
    intros Hx'. destruct (Hnew x Hx') as [?|Hnone]; [done | congruence]. }
  assert (Hcount : Z.of_nat (popped h) * W <= Z.of_nat (popped h') * W)
    by (apply Z.mul_le_mono_nonneg_r; lia).
  assert (Hall : Z.of_nat (popped h) * W <= Z.of_N (GetNumberOfNodes facade) * W).
  { apply Z.mul_le_mono_nonneg_r; [lia|].
    pose proof (popped_bound facade h Hwf). lia. }
  assert (Hlower : forall y ey, inserted_nodes h !! y = Some ey ->
            exists ey', inserted_nodes h' !! y = Some ey' /\ key ey' <= key ey).
  { intros y ey Hy. destruct (Hkept y ey Hy) as (ey' & Hy' & [-> | Hlt]).
    - exists ey. split; [done | lia].
    - exists ey'. split; [done|]. apply tie_lt_spec in Hlt. lia. }
  assert (Hsum : forall edge, edge ∈ GetAdjacentEdgeRange facade node ->
            EdgeData.forward edge = true ->
            add32 (key e) (EdgeData.weight edge) = key e + EdgeData.weight edge
            /\ 0 < EdgeData.weight edge <= W).
  { intros edge Hin Hu. pose proof (Hedges node edge Hnode Hin Hu) as Hw.
    split; [|done]. apply add32_exact. unfold int32_range.
    pose proof (Hkeys node e He). lia. }
  split; [done|]. split.
  - intros x e' Hx. destruct (Hfrom x e' Hx) as [Hold|(edge & Hin & Hu & _ & _ & ->)].
    + destruct (Hlow x e' Hold) as [?|(ep & Hp & Hlt)]; [by left | right].
      destruct (Hlower _ ep Hp) as (ep' & Hp' & Hle). exists ep'. split; [done | lia].
    + right. cbn. destruct (Hlower node e He) as (en' & Hn' & Hle).
      exists en'. split; [done|]. destruct (Hsum edge Hin Hu) as [-> ?]. lia.
  - intros x e' Hx. destruct (Hfrom x e' Hx) as [Hold|(edge & Hin & Hu & _ & _ & ->)].
    + pose proof (Hkeys x e' Hold). lia.
    + cbn. destruct (Hsum edge Hin Hu) as [-> ?].
      pose proof (Hkeys node e He). lia.
Qed.

Lemma forward_sweep_in_range fuel facade lo hi W row_idx number_of_targets h bs t h' t' :
  facade_wf facade -> edges_at_most FORWARD_DIRECTION facade W -> 0 <= W ->
  -2147483648 <= lo ->
  hi + Z.of_N (GetNumberOfNodes facade) * W <= 2147483647 ->
  search_in_range facade lo hi W h ->
  forward_sweep stallAtNode fuel facade row_idx number_of_targets h bs t = Done (h', t') ->
  search_in_range facade lo hi W h'.
Proof.
  intros Hf Hedges HW Hlo Hhi. revert h t.
  induction fuel as [|fuel IH]; intros h t Hin; cbn.
  - destruct (Empty h); [|done]. by intros [= <- <-].
  - destruct (Empty h); [by intros [= <- <-]|].
    destruct (forwardRoutingStep _ _ _ _ _ _ _) as [[h2 t2]| | |] eqn:Hstep; cbn; try done.
    apply forwardRoutingStep_inv in Hstep as (node & h0 & e & Hpop & He & _ & Hrelax).
    destruct Hin as (Hwf & Hlow & Hkeys).
    destruct (DeleteMin_wf facade h node h0 Hwf Hpop) as (Hwf0 & _ & _ & Hnode).
    apply DeleteMin_inv in Hpop as [Hqueued ->]. cbn in He.
    pose proof (popped_pop h node Hqueued (proj1 Hwf)) as Hcount.
    set (h1 := mkQueryHeap (inserted_nodes h) (heap h ∖ {[node]})) in *.
    change (S (popped h) <= popped h1)%nat in Hcount.
    assert (Hmore : Z.of_nat (popped h) * W + W <= Z.of_nat (popped h1) * W).
    { etrans; [|apply (Z.mul_le_mono_nonneg_r (Z.of_nat (S (popped h)))); lia].
      rewrite Nat2Z.inj_succ. unfold Z.succ. rewrite Z.mul_add_distr_r. lia. }
    apply IH. eapply (relaxOutgoingEdges_in_range facade lo hi W node e h1);
      try exact Hrelax; try done.
    + split; [done|]. split; [done|]. intros x ex Hx.
      pose proof (Hkeys x ex Hx). lia.
    + pose proof (Hkeys node e He). lia.
Qed.

(** X14.  The source-side path, read from the heap a forward search leaves
    behind, on a graph whose weights keep every sum in the 32-bit range:
    the edges lead to nodes of the graph, every edge usable forward has a
    positive weight of at most [W], the source anchors are nodes of the
    graph with weights between [lo] and [hi], and [hi] plus [W] for every
    node of the graph does not exceed the largest 32-bit value.  Started
    at an inserted node, with one round per node of the graph, the walk
    returns.  It appends to the path it is given and never the node it
    starts from: what it appends are the parents it passes, each an
    inserted node recorded as the parent of the node before it, and the
    last node reached is recorded as its own parent, as the source anchors
    are. *)
Theorem source_side_path_follows_heap_parents
    (fuel walk_fuel : nat) (facade : DataFacade) (row_idx number_of_targets : N)
    (phantom : PhantomNode) (bs : list NodeBucket) (t t' : Tables) (h' : QueryHeap)
    (middle_node_id : NodeID) (packed_path : list NodeID) (lo hi W : Z) :
  facade_wf facade ->
  edges_at_most FORWARD_DIRECTION facade W ->
  anchors_within facade lo hi (source_anchors phantom) ->
  0 <= W -> -2147483648 <= lo ->
  hi + Z.of_N (GetNumberOfNodes facade) * W <= 2147483647 ->
  forward_sweep stallAtNode fuel facade row_idx number_of_targets
    (insertSourceInHeap empty_heap phantom) bs t = Done (h', t') ->
  is_Some (inserted_nodes h' !! middle_node_id) ->
  (N.to_nat (GetNumberOfNodes facade) <= walk_fuel)%nat ->
  exists rest,
    retrievePackedPathFromSingleManyToManyHeap walk_fuel h' middle_node_id packed_path
      = Done (packed_path ++ rest)
    /\ (forall i x y, (middle_node_id :: rest) !! i = Some x -> rest !! i = Some y ->
          y <> x /\ exists e, inserted_nodes h' !! x = Some e /\ HeapData.parent (data e) = y)
    /\ exists root e,
         last (middle_node_id :: rest) = Some root
         /\ inserted_nodes h' !! root = Some e
         /\ HeapData.parent (data e) = root.
Proof.
  intros Hf Hedges Hanchors HW Hlo Hhi Hsweep [em Hm] Hfuel.
  assert (Hin : search_in_range facade lo hi W h').
  { eapply forward_sweep_in_range; try exact Hsweep; try done.
    by apply seeded_search_in_range. }
  destruct Hin as (Hwf & Hlow & _).
  destruct (heap_parents_returns h' Hlow walk_fuel middle_node_id em packed_path Hm)
    as [path' Hwalk].
  { pose proof (keys_below_bound facade h' (key em) Hwf). lia. }
  unfold retrievePackedPathFromSingleManyToManyHeap. rewrite Hwalk.
  apply heap_parents_chain in Hwalk as (rest & -> & Hchain & root & e & Hlast & He & Hend).
  exists rest. split; [done|]. split; [done|].
  exists root, e. split; [done|]. split; [done|].
  destruct Hend as [?|Hnone]; [done|].
  destruct (Hlow root e He) as [?|(e' & He' & _)]; [done | congruence].
Qed.

End HeapWalkEnds.

(** ** The cell of a pair holds at most every candidate *)

Lemma merge_bucket_candidate facade row_idx number_of_targets node sw sd t b t' :
  merge_bucket facade row_idx number_of_targets node sw sd t b = Done t' ->
  exists w',
    weights_table t' !! cell_index row_idx number_of_targets (column_index b) = Some w'
    /\ (0 <= add32 sw (weight b) -> w' <= add32 sw (weight b))
    /\ (forall cw cd,
          addLoopWeight facade node (add32 sw (weight b)) (add32 sd (duration b))
            = Done (true, cw, cd) -> w' <= cw).
Proof.
  unfold merge_bucket, at_index.
  set (idx := cell_index row_idx number_of_targets (column_index b)).
  destruct (weights_table t !! idx) as [cw|] eqn:Hcw; cbn; [|done].
  destruct (durations_table t !! idx) as [cd|] eqn:Hcd; cbn; [|done].
  assert (Hstores : forall w d,
    (weights ← store (weights_table t) idx w;
     durations ← store (durations_table t) idx d;
     middle_nodes ← store (middle_nodes_table t) idx node;
     Done (mkTables weights durations middle_nodes)) = Done t' ->
    weights_table t' !! idx = Some w).
  { intros w d.
    destruct (store (weights_table t) idx w) as [ws| | |] eqn:Hws; cbn; try done.
    destruct (store (durations_table t) idx d) as [ds| | |] eqn:Hds; cbn; try done.
    destruct (store (middle_nodes_table t) idx node) as [ms| | |] eqn:Hms; cbn; try done.
    apply store_inv in Hws as [? ->]. intros [= <-]. cbn.
    by rewrite list_lookup_insert_eq. }
  destruct (Z.ltb_spec (add32 sw (weight b)) 0) as [Hneg|Hpos].
  - rewrite (addLoopWeight_cases _ _ _ _ Hneg). case_decide as Hok; cbn.
    + intros Hdone. apply Hstores in Hdone. eexists. split; [exact Hdone|].
      split; [lia|]. intros cw' cd' [= <- <-]. lia.
    + intros [= <-]. exists cw. split; [done|]. split; [lia | done].
  - assert (Hassert : forall cw' cd',
              addLoopWeight facade node (add32 sw (weight b)) (add32 sd (duration b))
                = Done (true, cw', cd') -> False).
    { intros cw' cd'. unfold addLoopWeight, BOOST_ASSERT.
      by destruct (Z.ltb_spec (add32 sw (weight b)) 0); [lia|]. }
    destruct (tie_lt _ _ _ _) eqn:Hlt.
    + intros Hdone. apply Hstores in Hdone. eexists. split; [exact Hdone|].
      split; [lia|]. intros cw' cd' Hloop. by destruct (Hassert cw' cd').
    + intros [= <-]. exists cw. split; [done|]. split.
      * intros _. apply not_true_iff_false in Hlt. rewrite tie_lt_spec in Hlt. lia.
      * intros cw' cd' Hloop. by destruct (Hassert cw' cd').
Qed.

Lemma merge_buckets_candidate facade row_idx number_of_targets node sw sd t bl t' b :
  merge_buckets facade row_idx number_of_targets node sw sd t bl = Done t' ->
  b ∈ bl ->
  exists w',
    weights_table t' !! cell_index row_idx number_of_targets (column_index b) = Some w'
    /\ (0 <= add32 sw (weight b) -> w' <= add32 sw (weight b))
    /\ (forall cw cd,
          addLoopWeight facade node (add32 sw (weight b)) (add32 sd (duration b))
            = Done (true, cw, cd) -> w' <= cw).
Proof.
  revert t. induction bl as [|b0 bl IH]; intros t; cbn.
  - intros _ Hb. by apply elem_of_nil in Hb.
  - destruct (merge_bucket facade row_idx number_of_targets node sw sd t b0)
      as [t1| | |] eqn:Hb0; cbn; try done.
    intros Hrest Hb. apply elem_of_cons in Hb as [-> | Hb]; [|by eapply IH].
    apply merge_bucket_candidate in Hb0 as (w1 & Hw1 & Hpos & Hloop).
    apply merge_buckets_lowered in Hrest as (_ & _ & _ & Hcells).
    destruct (Hcells _ _ Hw1) as (w' & Hw' & Hle & _).
    exists w'. split; [done|]. split.
    + intros H0. pose proof (Hpos H0). lia.
    + intros cw cd Hc. pose proof (Hloop cw cd Hc). lia.
Qed.

Section LeastCandidate.

Variable stallAtNode : bool -> DataFacade -> NodeID -> EdgeWeight -> QueryHeap -> bool.

(** X15.  After a row's settle loop has run through, the weight in a cell
    is at most the weight of every candidate the loop met for it.  For a
    node the loop settled and any of the node's bucket entries, the cell
    the entry addresses holds at most the sum of the node's weight and the
    entry's weight when that sum is not negative, and at most the sum
    corrected by the node's self-loop when [addLoopWeight] accepted the
    correction. *)
Theorem cell_weight_at_most_every_candidate
    (fuel : nat) (facade : DataFacade) (row_idx number_of_targets : N)
    (h h' : QueryHeap) (bs : list NodeBucket) (t t' : Tables)
    (node : NodeID) (w : EdgeWeight) (d : EdgeDuration) (b : NodeBucket) :
  forward_sweep stallAtNode fuel facade row_idx number_of_targets h bs t = Done (h', t') ->
  settles stallAtNode facade h node w d ->
  b ∈ node_buckets bs node ->
  exists w',
    weights_table t' !! cell_index row_idx number_of_targets (column_index b) = Some w'
    /\ (0 <= add32 w (weight b) -> w' <= add32 w (weight b))
    /\ (forall cw cd,
          addLoopWeight facade node (add32 w (weight b)) (add32 d (duration b))
            = Done (true, cw, cd) -> w' <= cw).
Proof.
  intros Hsweep Hset Hb. revert fuel t Hsweep.
  induction Hset as [h node h1 e Hpop He|h node0 h1 e h2 node w d Hpop He Hrelax Hset IH];
    intros fuel t Hsweep.
  - assert (Hne : Empty h = false).
    { destruct (Empty h) eqn:Hempty; [|done].
      apply Empty_true in Hempty. apply DeleteMin_inv in Hpop as [Hin _].
      rewrite Hempty in Hin. by apply elem_of_empty in Hin. }
    destruct fuel as [|fuel]; cbn in Hsweep; rewrite Hne in Hsweep; [done|].
    destruct (forwardRoutingStep _ _ _ _ _ _ _) as [[h3 t3]| | |] eqn:Hstep;
      cbn in Hsweep; try done.
    apply forwardRoutingStep_inv in Hstep as (n & h0 & e0 & Hpop' & He0 & Hmerge & _).
    rewrite Hpop in Hpop'. injection Hpop' as <- <-.
    unfold NodeID in *. rewrite He in He0. injection He0 as <-.
    destruct (merge_buckets_candidate _ _ _ _ _ _ _ _ _ b Hmerge Hb)
      as (w1 & Hw1 & Hpos & Hloop).
    apply forward_sweep_lowered in Hsweep as (_ & _ & _ & _ & Hcells).
    destruct (Hcells _ _ Hw1) as (w' & Hw' & Hle & _).
    exists w'. split; [done|]. split.
    + intros H0. pose proof (Hpos H0). lia.
    + intros cw cd Hc. pose proof (Hloop cw cd Hc). lia.
  - assert (Hne : Empty h = false).
    { destruct (Empty h) eqn:Hempty; [|done].
      apply Empty_true in Hempty. apply DeleteMin_inv in Hpop as [Hin _].
      rewrite Hempty in Hin. by apply elem_of_empty in Hin. }
    destruct fuel as [|fuel]; cbn in Hsweep; rewrite Hne in Hsweep; [done|].
    destruct (forwardRoutingStep _ _ _ _ _ _ _) as [[h3 t3]| | |] eqn:Hstep;
      cbn in Hsweep; try done.
    apply forwardRoutingStep_inv in Hstep as (n & h0 & e0 & Hpop' & He0 & _ & Hrelax').
    rewrite Hpop in Hpop'. injection Hpop' as <- <-.
    unfold NodeID in *. rewrite He in He0. injection He0 as <-.
    rewrite Hrelax in Hrelax'. injection Hrelax' as <-.
    by eapply IH.
Qed.

End LeastCandidate.

(** * The theorems at concrete inputs *)

Lemma negative_candidate_correction_witness :
  add32 (-4) 1 < 0
  /\ weights_table one_cell !! cell_index 0 1 0 = Some 2
  /\ durations_table one_cell !! cell_index 0 1 0 = Some 20
  /\ (cell_index 0 1 0 < length (middle_nodes_table one_cell))%nat
  /\ addLoopWeight loop_facade 5%N (add32 (-4) 1) (add32 0 50) = Done (true, 5, 50)
  /\ merge_bucket loop_facade 0%N 1%N 5%N (-4) 0 one_cell (mkNodeBucket 5%N 5%N 0%N 1 50)
     = Done (mkTables [2] [20] [5%N]).
Proof.
  assert (H1 : add32 (-4) 1 < 0) by (vm_compute; reflexivity).
  assert (H2 : weights_table one_cell !! cell_index 0 1 0 = Some 2) by reflexivity.
  assert (H3 : durations_table one_cell !! cell_index 0 1 0 = Some 20) by reflexivity.
  assert (H4 : (cell_index 0 1 0 < length (middle_nodes_table one_cell))%nat)
    by (vm_compute; lia).
  do 4 (split; [assumption|]).
  destruct (negative_candidate_correction loop_facade 0%N 1%N 5%N (-4) 0 one_cell
              (mkNodeBucket 5%N 5%N 0%N 1 50) 2 20 H1 H2 H3 H4) as [_ Hok].
  destruct Hok as (Hloop & _ & _ & Hmerge).
  - split; vm_compute; congruence.
  - split; [exact Hloop | exact Hmerge].
Defined.

Lemma relaxOutgoingEdges_edge_witness :
  never_stall true path_facade 1%N 2 two_node_heap = false
  /\ GetAdjacentEdgeRange path_facade 1%N
     = [EdgeData.mk 0%N 2 2 false true] ++ EdgeData.mk 2%N 3 3 true false :: []
  /\ relax_edges true 1%N 2 2 two_node_heap [EdgeData.mk 0%N 2 2 false true]
     = Done two_node_heap
  /\ (true = true -> 0 < 3)
  /\ exists h2,
       relax_edge true 1%N 2 2 two_node_heap (EdgeData.mk 2%N 3 3 true false) = Done h2
       /\ relaxOutgoingEdges never_stall true path_facade 1%N 2 2 two_node_heap = Done h2
       /\ h2 = Insert two_node_heap 2%N 5 (HeapData.mk 1%N 5).
Proof.
  assert (H1 : never_stall true path_facade 1%N 2 two_node_heap = false) by reflexivity.
  assert (H2 : GetAdjacentEdgeRange path_facade 1%N
               = [EdgeData.mk 0%N 2 2 false true] ++ EdgeData.mk 2%N 3 3 true false :: [])
    by reflexivity.
  assert (H3 : relax_edges true 1%N 2 2 two_node_heap [EdgeData.mk 0%N 2 2 false true]
               = Done two_node_heap) by reflexivity.
  assert (H4 : true = true -> 0 < 3) by lia.
  do 4 (split; [assumption|]).
  destruct (relaxOutgoingEdges_edge never_stall true path_facade 1%N 2 2
              two_node_heap two_node_heap [EdgeData.mk 0%N 2 2 false true] []
              (EdgeData.mk 2%N 3 3 true false) H1 H2 H3 H4)
    as (h2 & Hedge & Hloop & _ & Hins & _).
  exists h2. split; [exact Hedge|]. split; [exact Hloop|].
  apply Hins; reflexivity.
Defined.

(** [path_facade] and its phantom nodes meet the conditions of the driver. *)
Lemma path_facade_edges n e :
  (n < GetNumberOfNodes path_facade)%N -> e ∈ GetAdjacentEdgeRange path_facade n ->
  (EdgeData.target e < 3)%N /\ 0 < EdgeData.weight e.
Proof.
  intros Hn He. change (GetNumberOfNodes path_facade) with 3%N in Hn.
  assert (Hcases : n = 0%N \/ n = 1%N \/ n = 2%N) by lia.
  destruct Hcases as [-> | [-> | ->]]; cbn in He;
    repeat (apply elem_of_cons in He as [-> | He]; [cbn; lia|]);
    by apply elem_of_nil in He.
Defined.

Lemma path_facade_wf : facade_wf path_facade.
Proof. intros n e Hn He. by apply (path_facade_edges n e). Defined.

Lemma path_facade_positive DIRECTION : edges_positive DIRECTION path_facade.
Proof. intros n e Hn He _. by apply (path_facade_edges n e). Defined.

Lemma path_phantoms_wf : Forall (phantom_wf path_facade) path_phantoms.
Proof.
  repeat constructor; cbn; lia.
Defined.

Lemma settle_loops_terminate_witness :
  facade_wf path_facade
  /\ heap_wf path_facade (insertTargetInHeap empty_heap (phantom_at 2%N))
  /\ (search_room path_facade (insertTargetInHeap empty_heap (phantom_at 2%N)) <= 3)%nat
  /\ exists h' bs',
       backward_sweep never_stall 3 path_facade 0%N
         (insertTargetInHeap empty_heap (phantom_at 2%N)) [] = Done (h', [] ++ bs')
       /\ Empty h' = true.
Proof.
  assert (H1 : facade_wf path_facade) by exact path_facade_wf.
  assert (Hseed : anchors_wf path_facade (target_anchors (phantom_at 2%N)))
    by (repeat constructor; cbn; lia).
  destruct (seeded_heap_wf path_facade _ Hseed) as [H2 Hroom].
  assert (H3 : (search_room path_facade (insertTargetInHeap empty_heap (phantom_at 2%N))
                <= 3)%nat).
  { unfold insertTargetInHeap. rewrite Hroom. vm_compute. lia. }
  do 3 (split; [assumption|]).
  destruct (settle_loops_terminate never_stall path_facade
              (insertTargetInHeap empty_heap (phantom_at 2%N)) 3 0%N 0%N 1%N []
              (initial_tables 1) H1 H2 H3) as (_ & _ & Hdone & _).
  exact (Hdone (path_facade_positive REVERSE_DIRECTION)).
Defined.

Lemma empty_index_list_gives_empty_matrix_witness :
  facade_wf path_facade
  /\ edges_positive FORWARD_DIRECTION path_facade
  /\ edges_positive REVERSE_DIRECTION path_facade
  /\ Forall (phantom_wf path_facade) path_phantoms
  /\ Forall (fun i => (i < length path_phantoms)%nat) [0%nat; 2%nat]
  /\ (N.to_nat (GetNumberOfNodes path_facade) <= 3)%nat
  /\ manyToManySearch never_stall 3 path_facade path_phantoms [] [0%nat; 2%nat] = Done []
  /\ manyToManySearch never_stall 3 path_facade path_phantoms [0%nat; 2%nat] [] = Done [].
Proof.
  assert (H1 : facade_wf path_facade) by exact path_facade_wf.
  assert (H2 : edges_positive FORWARD_DIRECTION path_facade)
    by exact (path_facade_positive FORWARD_DIRECTION).
  assert (H3 : edges_positive REVERSE_DIRECTION path_facade)
    by exact (path_facade_positive REVERSE_DIRECTION).
  assert (H4 : Forall (phantom_wf path_facade) path_phantoms) by exact path_phantoms_wf.
  assert (H5 : Forall (fun i => (i < length path_phantoms)%nat) [0%nat; 2%nat])
    by (repeat constructor; cbn; lia).
  assert (H6 : (N.to_nat (GetNumberOfNodes path_facade) <= 3)%nat) by (vm_compute; lia).
  assert (H0 : Forall (fun i => (i < length path_phantoms)%nat) []) by constructor.
  do 6 (split; [assumption|]).
  split.
  - apply (empty_index_list_gives_empty_matrix never_stall 3 path_facade path_phantoms
             [] [0%nat; 2%nat] H1 H2 H3 H4 H0 H5 H6). by left.
  - apply (empty_index_list_gives_empty_matrix never_stall 3 path_facade path_phantoms
             [0%nat; 2%nat] [] H1 H2 H3 H4 H5 H0 H6). by right.
Defined.

Lemma unreachable_cell_keeps_sentinels_witness :
  facade_wf path_facade
  /\ edges_positive FORWARD_DIRECTION path_facade
  /\ Forall (fun b => (cell_index 0 1 (column_index b) < 1)%nat) [mkNodeBucket 0%N 0%N 0%N 0 0]
  /\ heap_wf path_facade (insertSourceInHeap empty_heap (phantom_at 2%N))
  /\ (search_room path_facade (insertSourceInHeap empty_heap (phantom_at 2%N)) <= 3)%nat
  /\ tables_sized 1 (initial_tables 1)
  /\ (forall node w d b,
        settles never_stall path_facade (insertSourceInHeap empty_heap (phantom_at 2%N))
          node w d ->
        b ∈ node_buckets [mkNodeBucket 0%N 0%N 0%N 0 0] node ->
        cell_index 0 1 (column_index b) = 0%nat ->
        discarded path_facade node w b)
  /\ exists h' tables',
       forward_sweep never_stall 3 path_facade 0%N 1%N
         (insertSourceInHeap empty_heap (phantom_at 2%N))
         [mkNodeBucket 0%N 0%N 0%N 0 0] (initial_tables 1) = Done (h', tables')
       /\ Empty h' = true
       /\ cell_unreachable tables' 0.
Proof.
  assert (H1 : facade_wf path_facade) by exact path_facade_wf.
  assert (H2 : edges_positive FORWARD_DIRECTION path_facade)
    by exact (path_facade_positive FORWARD_DIRECTION).
  assert (H3 : Forall (fun b => (cell_index 0 1 (column_index b) < 1)%nat)
                 [mkNodeBucket 0%N 0%N 0%N 0 0])
    by (repeat constructor; vm_compute; lia).
  assert (Hseed : anchors_wf path_facade (source_anchors (phantom_at 2%N)))
    by (repeat constructor; cbn; lia).
  destruct (seeded_heap_wf path_facade _ Hseed) as [H4 Hroom].
  assert (H5 : (search_room path_facade (insertSourceInHeap empty_heap (phantom_at 2%N))
                <= 3)%nat).
  { unfold insertSourceInHeap. rewrite Hroom. vm_compute. lia. }
  assert (H6 : tables_sized 1 (initial_tables 1)) by (repeat split).
  assert (H7 : forall node w d b,
        settles never_stall path_facade (insertSourceInHeap empty_heap (phantom_at 2%N))
          node w d ->
        b ∈ node_buckets [mkNodeBucket 0%N 0%N 0%N 0 0] node ->
        cell_index 0 1 (column_index b) = 0%nat ->
        discarded path_facade node w b).
  { intros node w d b Hset Hb _. exfalso.
    inversion Hset as [h0 n0 h1 e Hpop He|h0 n0 h1 e h2 n w' d' Hpop He Hrelax Hrest]; subst.
    - vm_compute in Hpop. injection Hpop as <- <-.
      vm_compute in Hb. by apply elem_of_nil in Hb.
    - vm_compute in Hpop. injection Hpop as <- <-.
      vm_compute in He. injection He as <-.
      vm_compute in Hrelax. injection Hrelax as <-.
      inversion Hrest as [h0 n0 h1 e Hpop He|h0 n0 h1 e h2 n' w'' d'' Hpop He _ _];
        vm_compute in Hpop; discriminate. }
  do 7 (split; [assumption|]).
  destruct (unreachable_cell_keeps_sentinels never_stall path_facade 0%N 1%N
              [mkNodeBucket 0%N 0%N 0%N 0 0] 1 3
              (insertSourceInHeap empty_heap (phantom_at 2%N)) (initial_tables 1) 0%nat
              H1 H2 H3 H4 H5 H6 H7) as (h' & tables' & Hsweep & Hempty & _ & Hkeep & Hinit).
  exists h', tables'. split; [exact Hsweep|]. split; [exact Hempty|].
  apply Hkeep, Hinit. lia.
Defined.

Lemma sorted_buckets_equal_range_witness :
  sort_buckets two_columns ≡ₚ two_columns
  /\ sorted_by_node (sort_buckets two_columns)
  /\ node_buckets (sort_buckets two_columns) 1%N
     ≡ₚ [mkNodeBucket 1%N 2%N 0%N 3 3; mkNodeBucket 1%N 1%N 1%N 0 0].
Proof.
  destruct (sort_buckets_sorted_by_node two_columns) as [H1 H2].
  do 2 (split; [assumption|]).
  destruct (sorted_buckets_equal_range two_columns (sort_buckets two_columns) 1%N H1 H2)
    as (_ & _ & _ & _ & _ & Hblock).
  exact Hblock.
Defined.

Lemma packed_path_follows_parents_witness :
  backward_searches never_stall 3 path_facade path_phantoms [2%nat; 1%nat] 0%N []
    = Done two_columns
  /\ two_columns_by_key ≡ₚ two_columns
  /\ buckets_sorted two_columns_by_key
  /\ mkNodeBucket 0%N 1%N 0%N 5 5 ∈ two_columns_by_key
  /\ spec_walk two_columns_by_key 0%N 0%N [1%N; 2%N]
  /\ retrievePackedPathFromSearchSpace 2 0%N 0%N two_columns_by_key
     = Done [0%N; 1%N; 2%N].
Proof.
  assert (H1 : backward_searches never_stall 3 path_facade path_phantoms
                 [2%nat; 1%nat] 0%N [] = Done two_columns) by (vm_compute; reflexivity).
  assert (Hperm : two_columns_by_key ≡ₚ two_columns)
    by (unfold two_columns_by_key, two_columns; solve_Permutation).
  assert (Hsorted : buckets_sorted two_columns_by_key)
    by (unfold buckets_sorted, two_columns_by_key; repeat constructor).
  assert (H2 : mkNodeBucket 0%N 1%N 0%N 5 5 ∈ two_columns_by_key)
    by apply list_elem_of_here.
  assert (H3 : spec_walk two_columns_by_key 0%N 0%N [1%N; 2%N]).
  { apply (spec_walk_step _ _ 0%N (mkNodeBucket 0%N 1%N 0%N 5 5));
      [vm_compute; reflexivity | cbn; lia |].
    apply (spec_walk_step _ _ 1%N (mkNodeBucket 1%N 2%N 0%N 3 3));
      [vm_compute; reflexivity | cbn; lia |].
    apply (spec_walk_root _ _ 2%N (mkNodeBucket 2%N 2%N 0%N 0 0));
      [vm_compute; reflexivity | reflexivity]. }
  do 5 (split; [assumption|]).
  destruct (packed_path_follows_parents never_stall 3 path_facade path_phantoms
              [2%nat; 1%nat] two_columns two_columns_by_key
              (mkNodeBucket 0%N 1%N 0%N 5 5) H1 Hperm Hsorted H2)
    as (rest & _ & _ & Hunique & Hpath).
  rewrite <- (Hunique _ H3) in Hpath. apply Hpath. cbn. lia.
Defined.

Lemma relaxOutgoingEdges_only_lowers_witness :
  relaxOutgoingEdges never_stall true path_facade 1%N 2 2 two_node_heap
    = Done (Insert two_node_heap 2%N 5 (HeapData.mk 1%N 5))
  /\ heap two_node_heap ⊆ heap (Insert two_node_heap 2%N 5 (HeapData.mk 1%N 5))
  /\ (forall x, x ∈ heap (Insert two_node_heap 2%N 5 (HeapData.mk 1%N 5)) ->
        x ∈ heap two_node_heap \/ WasInserted two_node_heap x = false)
  /\ (forall x e, inserted_nodes two_node_heap !! x = Some e ->
        exists e', inserted_nodes (Insert two_node_heap 2%N 5 (HeapData.mk 1%N 5)) !! x
                   = Some e'
          /\ (e' = e
              \/ tie_lt (key e') (HeapData.duration (data e'))
                   (key e) (HeapData.duration (data e)) = true)).
Proof.
  assert (H1 : relaxOutgoingEdges never_stall true path_facade 1%N 2 2 two_node_heap
               = Done (Insert two_node_heap 2%N 5 (HeapData.mk 1%N 5)))
    by (vm_compute; reflexivity).
  split; [assumption|].
  exact (relaxOutgoingEdges_only_lowers never_stall true path_facade 1%N 2 2
           two_node_heap (Insert two_node_heap 2%N 5 (HeapData.mk 1%N 5)) H1).
Defined.

Lemma relaxOutgoingEdges_entries_from_edges_witness :
  relaxOutgoingEdges never_stall true path_facade 1%N 2 2 two_node_heap
    = Done (Insert two_node_heap 2%N 5 (HeapData.mk 1%N 5))
  /\ inserted_nodes (Insert two_node_heap 2%N 5 (HeapData.mk 1%N 5)) !! 2%N
     = Some (mkHeapNode 5 (HeapData.mk 1%N 5))
  /\ (inserted_nodes two_node_heap !! 2%N = Some (mkHeapNode 5 (HeapData.mk 1%N 5))
      \/ exists edge, edge ∈ GetAdjacentEdgeRange path_facade 1%N
           /\ EdgeData.forward edge = true
           /\ EdgeData.target edge = 2%N
           /\ 5 = add32 2 (EdgeData.weight edge)
           /\ 1%N = 1%N
           /\ 5 = add32 2 (EdgeData.duration edge)).
Proof.
  assert (H1 : relaxOutgoingEdges never_stall true path_facade 1%N 2 2 two_node_heap
               = Done (Insert two_node_heap 2%N 5 (HeapData.mk 1%N 5)))
    by (vm_compute; reflexivity).
  assert (H2 : inserted_nodes (Insert two_node_heap 2%N 5 (HeapData.mk 1%N 5)) !! 2%N
               = Some (mkHeapNode 5 (HeapData.mk 1%N 5))) by (vm_compute; reflexivity).
  do 2 (split; [assumption|]).
  exact (relaxOutgoingEdges_entries_from_edges never_stall true path_facade 1%N 2 2
           two_node_heap (Insert two_node_heap 2%N 5 (HeapData.mk 1%N 5)) H1
           2%N (mkHeapNode 5 (HeapData.mk 1%N 5)) H2).
Defined.

Lemma forward_sweep_never_raises_weights_witness :
  exists h' t',
    forward_sweep never_stall 3 path_facade 0%N 2%N
      (insertSourceInHeap empty_heap (phantom_at 0%N)) (sort_buckets two_columns)
      (initial_tables 2) = Done (h', t')
    /\ weights_table t' = [5; 2]
    /\ Empty h' = true
    /\ length (weights_table t') = length (weights_table (initial_tables 2))
    /\ length (durations_table t') = length (durations_table (initial_tables 2))
    /\ length (middle_nodes_table t') = length (middle_nodes_table (initial_tables 2))
    /\ (forall cell w, weights_table (initial_tables 2) !! cell = Some w ->
          exists w', weights_table t' !! cell = Some w' /\ w' <= w).
Proof.
  destruct (forward_sweep never_stall 3 path_facade 0%N 2%N
              (insertSourceInHeap empty_heap (phantom_at 0%N)) (sort_buckets two_columns)
              (initial_tables 2)) as [[h' t']| | |] eqn:Hsweep;
    try (vm_compute in Hsweep; discriminate).
  exists h', t'. split; [reflexivity|]. split.
  - pose proof Hsweep as Hval. vm_compute in Hval. injection Hval as _ <-. reflexivity.
  - exact (forward_sweep_never_raises_weights never_stall 3 path_facade 0%N 2%N
             (insertSourceInHeap empty_heap (phantom_at 0%N)) h' (sort_buckets two_columns)
             (initial_tables 2) t' Hsweep).
Defined.

Lemma recorded_middle_node_was_settled_witness :
  exists h' t',
    forward_sweep never_stall 3 path_facade 0%N 2%N
      (insertSourceInHeap empty_heap (phantom_at 0%N)) (sort_buckets two_columns)
      (initial_tables 2) = Done (h', t')
    /\ middle_nodes_table t' !! 0%nat = Some 0%N
    /\ (middle_nodes_table (initial_tables 2) !! 0%nat = Some 0%N
        \/ exists w d b,
             settles never_stall path_facade
               (insertSourceInHeap empty_heap (phantom_at 0%N)) 0%N w d
             /\ b ∈ node_buckets (sort_buckets two_columns) 0%N
             /\ cell_index 0 2 (column_index b) = 0%nat).
Proof.
  destruct (forward_sweep never_stall 3 path_facade 0%N 2%N
              (insertSourceInHeap empty_heap (phantom_at 0%N)) (sort_buckets two_columns)
              (initial_tables 2)) as [[h' t']| | |] eqn:Hsweep;
    try (vm_compute in Hsweep; discriminate).
  assert (H2 : middle_nodes_table t' !! 0%nat = Some 0%N).
  { pose proof Hsweep as Hval. vm_compute in Hval. injection Hval as _ <-. reflexivity. }
  exists h', t'. split; [reflexivity|]. split; [assumption|].
  exact (recorded_middle_node_was_settled never_stall 3 path_facade 0%N 2%N
           (insertSourceInHeap empty_heap (phantom_at 0%N)) h' (sort_buckets two_columns)
           (initial_tables 2) t' 0%nat 0%N Hsweep H2).
Defined.

Lemma forward_sweep_writes_own_row_witness :
  exists h' t',
    forward_sweep never_stall 3 path_facade 1%N 2%N
      (insertSourceInHeap empty_heap (phantom_at 1%N)) (sort_buckets two_columns)
      (initial_tables 4) = Done (h', t')
    /\ Forall (fun b => (column_index b < 2)%N) (sort_buckets two_columns)
    /\ (1 * 2 + 2 <= 4294967296)%N
    /\ (1 < N.to_nat (1 * 2) \/ N.to_nat (1 * 2 + 2) <= 1)%nat
    /\ weights_table t' = [INVALID_EDGE_WEIGHT; INVALID_EDGE_WEIGHT; 3; 0]
    /\ cell_content t' 1 = cell_content (initial_tables 4) 1.
Proof.
  destruct (forward_sweep never_stall 3 path_facade 1%N 2%N
              (insertSourceInHeap empty_heap (phantom_at 1%N)) (sort_buckets two_columns)
              (initial_tables 4)) as [[h' t']| | |] eqn:Hsweep;
    try (vm_compute in Hsweep; discriminate).
  assert (H2 : Forall (fun b => (column_index b < 2)%N) (sort_buckets two_columns)).
  { apply Forall_forall. intros b Hb. rewrite sort_buckets_perm in Hb.
    unfold two_columns in Hb.
    repeat (apply elem_of_cons in Hb as [-> | Hb]; [cbn; lia|]).
    by apply elem_of_nil in Hb. }
  assert (H3 : (1 * 2 + 2 <= 4294967296)%N) by lia.
  assert (H4 : (1 < N.to_nat (1 * 2) \/ N.to_nat (1 * 2 + 2) <= 1)%nat) by (left; lia).
  exists h', t'. split; [reflexivity|]. do 3 (split; [assumption|]). split.
  - pose proof Hsweep as Hval. vm_compute in Hval. injection Hval as _ <-. reflexivity.
  - exact (forward_sweep_writes_own_row never_stall 3 path_facade 1%N 2%N
             (insertSourceInHeap empty_heap (phantom_at 1%N)) h' (sort_buckets two_columns)
             (initial_tables 4) t' 1%nat Hsweep H2 H3 H4).
Defined.


Lemma backward_sweep_appends_column_entries_witness :
  exists h' bs',
    backward_sweep never_stall 3 path_facade 0%N
      (insertTargetInHeap empty_heap (phantom_at 2%N)) [] = Done (h', bs')
    /\ bs' = [mkNodeBucket 2%N 2%N 0%N 0 0; mkNodeBucket 1%N 2%N 0%N 3 3;
              mkNodeBucket 0%N 1%N 0%N 5 5]
    /\ Empty h' = true
    /\ exists new,
         bs' = [] ++ new
         /\ Forall (fun b => column_index b = 0%N) new
         /\ Forall (fun a => exists b, b ∈ new /\ middle_node b = anchor_node a)
              (target_anchors (phantom_at 2%N)).
Proof.
  destruct (backward_sweep never_stall 3 path_facade 0%N
              (insertTargetInHeap empty_heap (phantom_at 2%N)) [])
    as [[h' bs']| | |] eqn:Hsweep; try (vm_compute in Hsweep; discriminate).
  exists h', bs'. split; [reflexivity|]. split.
  - pose proof Hsweep as Hval. vm_compute in Hval. injection Hval as _ <-. reflexivity.
  - exact (backward_sweep_appends_column_entries never_stall 3 path_facade 0%N
             (phantom_at 2%N) [] bs' h' Hsweep).
Defined.

Lemma backward_searches_bucket_list_witness :
  backward_searches never_stall 3 path_facade path_phantoms [2%nat; 1%nat] 0%N []
    = Done two_columns
  /\ NoDup ((fun b => (middle_node b, column_index b)) <$> two_columns)
  /\ Forall (fun b => (column_index b < N.of_nat (length [2%nat; 1%nat]))%N) two_columns
  /\ (forall i b, two_columns !! i = Some b ->
        parent_node b = middle_node b
        \/ exists j b', (j < i)%nat /\ two_columns !! j = Some b'
             /\ middle_node b' = parent_node b /\ column_index b' = column_index b).
Proof.
  assert (H1 : backward_searches never_stall 3 path_facade path_phantoms
                 [2%nat; 1%nat] 0%N [] = Done two_columns) by (vm_compute; reflexivity).
  split; [assumption|].
  exact (backward_searches_bucket_list never_stall 3 path_facade path_phantoms
           [2%nat; 1%nat] two_columns H1).
Defined.

Lemma path_walk_without_entry_witness :
  buckets_sorted broken_chain
  /\ bucket_entry broken_chain 2%N 0%N = None
  /\ retrievePackedPathFromSearchSpace 5 2%N 0%N broken_chain = Done [3%N; 4%N]
  /\ exists b, b ∈ broken_chain
       /\ key_lt 2 0 (middle_node b) (column_index b) = true
       /\ head [3%N; 4%N] = Some (middle_node b).
Proof.
  assert (H1 : buckets_sorted broken_chain).
  { unfold buckets_sorted, broken_chain. repeat constructor. }
  assert (H2 : bucket_entry broken_chain 2%N 0%N = None) by (vm_compute; reflexivity).
  assert (H3 : retrievePackedPathFromSearchSpace 5 2%N 0%N broken_chain = Done [3%N; 4%N])
    by (vm_compute; reflexivity).
  do 3 (split; [assumption|]).
  destruct (path_walk_without_entry 5 broken_chain 2%N 0%N H1 H2) as [_ Hstart].
  exact (Hstart [3%N; 4%N] H3).
Defined.

Lemma path_walk_loops_on_cyclic_parents_witness :
  buckets_sorted parent_cycle
  /\ Forall (fun n => from_option
               (fun b => parent_node b <> n /\ parent_node b ∈ [1%N; 2%N]) False
               (bucket_entry parent_cycle n 0%N)) [1%N; 2%N]
  /\ 1%N ∈ [1%N; 2%N]
  /\ retrievePackedPathFromSearchSpace 1000 1%N 0%N parent_cycle = OutOfFuel.
Proof.
  assert (H1 : buckets_sorted parent_cycle).
  { unfold buckets_sorted, parent_cycle. repeat constructor. }
  assert (H2 : Forall (fun n => from_option
                 (fun b => parent_node b <> n /\ parent_node b ∈ [1%N; 2%N]) False
                 (bucket_entry parent_cycle n 0%N)) [1%N; 2%N]).
  { apply Forall_cons. split; [|apply Forall_cons; split; [|apply Forall_nil_2]].
    - vm_compute. split; [intros H; discriminate H|].
      apply list_elem_of_further, list_elem_of_here.
    - vm_compute. split; [intros H; discriminate H|]. apply list_elem_of_here. }
  assert (H3 : 1%N ∈ [1%N; 2%N]) by apply list_elem_of_here.
  do 3 (split; [assumption|]).
  exact (path_walk_loops_on_cyclic_parents 1000 parent_cycle 0%N [1%N; 2%N] 1%N H1 H2 H3).
Defined.


Lemma path_facade_at_most_3 : edges_at_most FORWARD_DIRECTION path_facade 3.
Proof.
  intros n e Hn He _. change (GetNumberOfNodes path_facade) with 3%N in Hn.
  assert (Hcases : n = 0%N \/ n = 1%N \/ n = 2%N) by lia.
  destruct Hcases as [-> | [-> | ->]]; cbn in He;
    repeat (apply elem_of_cons in He as [-> | He]; [cbn; lia|]);
    by apply elem_of_nil in He.
Defined.

Lemma source_side_path_follows_heap_parents_witness :
  facade_wf path_facade
  /\ edges_at_most FORWARD_DIRECTION path_facade 3
  /\ anchors_within path_facade 0 0 (source_anchors (phantom_at 0%N))
  /\ 0 <= 3
  /\ -2147483648 <= 0
  /\ 0 + Z.of_N (GetNumberOfNodes path_facade) * 3 <= 2147483647
  /\ (N.to_nat (GetNumberOfNodes path_facade) <= 3)%nat
  /\ exists h' t',
       forward_sweep never_stall 3 path_facade 0%N 2%N
         (insertSourceInHeap empty_heap (phantom_at 0%N)) (sort_buckets two_columns)
         (initial_tables 2) = Done (h', t')
       /\ is_Some (inserted_nodes h' !! 2%N)
       /\ retrievePackedPathFromSingleManyToManyHeap 3 h' 2%N [] = Done [1%N; 0%N]
       /\ exists rest,
            retrievePackedPathFromSingleManyToManyHeap 3 h' 2%N [] = Done ([] ++ rest)
            /\ (forall i x y, (2%N :: rest) !! i = Some x -> rest !! i = Some y ->
                  y <> x
                  /\ exists e, inserted_nodes h' !! x = Some e
                               /\ HeapData.parent (data e) = y)
            /\ exists root e,
                 last (2%N :: rest) = Some root
                 /\ inserted_nodes h' !! root = Some e
                 /\ HeapData.parent (data e) = root.
Proof.
  assert (H1 : facade_wf path_facade) by exact path_facade_wf.
  assert (H2 : edges_at_most FORWARD_DIRECTION path_facade 3) by exact path_facade_at_most_3.
  assert (H3 : anchors_within path_facade 0 0 (source_anchors (phantom_at 0%N)))
    by (repeat constructor; cbn; lia).
  assert (H4 : 0 <= 3) by lia.
  assert (H5 : -2147483648 <= 0) by lia.
  assert (H6 : 0 + Z.of_N (GetNumberOfNodes path_facade) * 3 <= 2147483647)
    by (cbn; lia).
  assert (H7 : (N.to_nat (GetNumberOfNodes path_facade) <= 3)%nat) by (cbn; lia).
  do 7 (split; [assumption|]).
  destruct (forward_sweep never_stall 3 path_facade 0%N 2%N
              (insertSourceInHeap empty_heap (phantom_at 0%N)) (sort_buckets two_columns)
              (initial_tables 2)) as [[h' t']| | |] eqn:Hsweep;
    try (vm_compute in Hsweep; discriminate).
  assert (H8 : is_Some (inserted_nodes h' !! 2%N)).
  { pose proof Hsweep as Hval. vm_compute in Hval. injection Hval as <- _.
    eexists. vm_compute. reflexivity. }
  assert (H9 : retrievePackedPathFromSingleManyToManyHeap 3 h' 2%N [] = Done [1%N; 0%N]).
  { pose proof Hsweep as Hval. vm_compute in Hval. injection Hval as <- _.
    vm_compute. reflexivity. }
  exists h', t'. split; [reflexivity|]. do 2 (split; [assumption|]).
  exact (source_side_path_follows_heap_parents never_stall 3 3 path_facade 0%N 2%N
           (phantom_at 0%N) (sort_buckets two_columns) (initial_tables 2) t' h'
           2%N [] 0 0 3 H1 H2 H3 H4 H5 H6 Hsweep H8 H7).
Defined.

Lemma cell_weight_at_most_every_candidate_witness :
  exists h' t',
    forward_sweep never_stall 3 path_facade 0%N 2%N
      (insertSourceInHeap empty_heap (phantom_at 0%N)) (sort_buckets two_columns)
      (initial_tables 2) = Done (h', t')
    /\ settles never_stall path_facade (insertSourceInHeap empty_heap (phantom_at 0%N))
         0%N 0 0
    /\ mkNodeBucket 0%N 1%N 0%N 5 5 ∈ node_buckets (sort_buckets two_columns) 0%N
    /\ exists w',
         weights_table t' !! cell_index 0 2 0 = Some w'
         /\ (0 <= add32 0 5 -> w' <= add32 0 5)
         /\ (forall cw cd,
               addLoopWeight path_facade 0%N (add32 0 5) (add32 0 5) = Done (true, cw, cd) ->
               w' <= cw).
Proof.
  destruct (forward_sweep never_stall 3 path_facade 0%N 2%N
              (insertSourceInHeap empty_heap (phantom_at 0%N)) (sort_buckets two_columns)
              (initial_tables 2)) as [[h' t']| | |] eqn:Hsweep;
    try (vm_compute in Hsweep; discriminate).
  assert (H2 : settles never_stall path_facade
                 (insertSourceInHeap empty_heap (phantom_at 0%N)) 0%N 0 0).
  { apply (settles_now never_stall path_facade
             (insertSourceInHeap empty_heap (phantom_at 0%N)) 0%N
             (mkQueryHeap (inserted_nodes (insertSourceInHeap empty_heap (phantom_at 0%N))) ∅)
             (mkHeapNode 0 (HeapData.mk 0%N 0))); vm_compute; reflexivity. }
  assert (H3 : mkNodeBucket 0%N 1%N 0%N 5 5 ∈ node_buckets (sort_buckets two_columns) 0%N).
  { vm_compute. apply list_elem_of_further, list_elem_of_here. }
  exists h', t'. split; [reflexivity|]. do 2 (split; [assumption|]).
  exact (cell_weight_at_most_every_candidate never_stall 3 path_facade 0%N 2%N
           (insertSourceInHeap empty_heap (phantom_at 0%N)) h' (sort_buckets two_columns)
           (initial_tables 2) t' 0%N 0 0 (mkNodeBucket 0%N 1%N 0%N 5 5) Hsweep H2 H3).
Defined.
